(** * Layout and connection core of the graph editor

    A shallow embedding of
      - [src/utils/graphLayout.ts]        (layout engine and structure analysis),
      - [renderer/ConnectionSystem.tsx]   (boundary projection, hover detection),
      - [renderer/GraphCanvas.tsx]        (connection mode and its completion).

    JavaScript numbers are modelled by exact rationals [Q]: rounding of
    IEEE doubles is idealised away.  Strings are [string]; [Map] and [Set]
    with string keys are stdpp's [gmap] and [gset]; arrays are lists. *)

From Stdlib Require Import QArith Qabs Qminmax Qround Lqa.
From stdpp Require Import gmap strings list pretty.

Set Warnings "-clear-no-such-hyp".

Open Scope Q_scope.

(** ** Data model ([core/schema.ts]) *)

Record Point := { px : Q; py : Q }.
Record Size := { width : Q; height : Q }.

Inductive HandleSide := top | right | bottom | left.

Record EdgeMetadata := {
  sourceHandle : HandleSide;
  targetPosition : Point;
}.

Record Node := {
  node_id : string;
  node_label : string;
  node_markup : option string;
  position : Point;
  node_size : option Size;
}.

Record Edge := {
  edge_id : string;
  source : string;
  target : string;
  directed : bool;
  edge_label : option string;
  edge_markup : option string;
  metadata : option EdgeMetadata;
}.

Record Graph := { nodes : list Node; edges : list Edge }.

(** [createEdge(id, source, target, directed, label, markup)] *)
Definition createEdge (id src tgt : string) (dir : bool)
    (label markup : option string) : Edge :=
  {| edge_id := id; source := src; target := tgt; directed := dir;
     edge_label := label; edge_markup := markup; metadata := None |}.

(** ** Connection geometry ([ConnectionSystem.tsx]) *)

Module Geometry.

(** [Math.min] of four arguments. *)
Definition min4 (a b c d : Q) : Q := Qmin (Qmin (Qmin a b) c) d.

Definition getClosestPointOnNode
    (nodePosition : Point) (nodeSize : Size) (targetPoint : Point) : Point :=
  let nodeLeft := px nodePosition in
  let nodeRight := px nodePosition + width nodeSize in
  let nodeTop := py nodePosition in
  let nodeBottom := py nodePosition + height nodeSize in
  let distanceToLeft := Qabs (px targetPoint - nodeLeft) in
  let distanceToRight := Qabs (px targetPoint - nodeRight) in
  let distanceToTop := Qabs (py targetPoint - nodeTop) in
  let distanceToBottom := Qabs (py targetPoint - nodeBottom) in
  let minDistance :=
    min4 distanceToLeft distanceToRight distanceToTop distanceToBottom in
  if Qeq_bool minDistance distanceToLeft then
    {| px := nodeLeft; py := Qmax nodeTop (Qmin nodeBottom (py targetPoint)) |}
  else if Qeq_bool minDistance distanceToRight then
    {| px := nodeRight; py := Qmax nodeTop (Qmin nodeBottom (py targetPoint)) |}
  else if Qeq_bool minDistance distanceToTop then
    {| px := Qmax nodeLeft (Qmin nodeRight (px targetPoint)); py := nodeTop |}
  else
    {| px := Qmax nodeLeft (Qmin nodeRight (px targetPoint)); py := nodeBottom |}.

(** Squared Euclidean distance, and the boundary of an axis-aligned box. *)
Definition dist2 (a b : Point) : Q :=
  (px a - px b) * (px a - px b) + (py a - py b) * (py a - py b).

Definition onBoundary (pos : Point) (sz : Size) (q : Point) : Prop :=
  ((px q == px pos \/ px q == px pos + width sz) /\
     py pos <= py q <= py pos + height sz)
  \/
  ((py q == py pos \/ py q == py pos + height sz) /\
     px pos <= px q <= px pos + width sz).

Definition insideBox (pos : Point) (sz : Size) (q : Point) : Prop :=
  px pos <= px q <= px pos + width sz /\
  py pos <= py q <= py pos + height sz.

End Geometry.

(** ** Connection session ([ConnectionSystem.tsx], [GraphCanvas.tsx]) *)

Module Session.
Import Geometry.

(** A ReactFlow node as the connection system reads it: [data?.node] holds
    the graph node (with its optional explicit size), [width]/[height] are
    the measured dimensions, absent until ReactFlow has measured the node. *)
Record RFNode := {
  rf_id : string;
  rf_position : Point;
  rf_data_node : option Node;
  rf_width : option Q;
  rf_height : option Q;
}.

(** [a || b] on numbers: [undefined] and [0] are falsy. *)
Definition numOr (a : option Q) (b : Q) : Q :=
  match a with
  | Some v => if Qeq_bool v 0 then b else v
  | None => b
  end.

(** [{ width: node.data?.node?.size?.width || node.width || 192,
       height: node.data?.node?.size?.height || node.height || 96 }] *)
Definition nodeSizeOf (node : RFNode) : Size :=
  let sz := rf_data_node node ≫= node_size in
  {| width := numOr (width <$> sz) (numOr (rf_width node) 192);
     height := numOr (height <$> sz) (numOr (rf_height node) 96) |}.

Definition padding : Q := 20.

(** The hit test of [handleMouseMove] against the padded box. *)
Definition hitsPadded (node : RFNode) (flowPosition : Point) : bool :=
  let nodeSize := nodeSizeOf node in
  let nodeLeft := px (rf_position node) in
  let nodeRight := px (rf_position node) + width nodeSize in
  let nodeTop := py (rf_position node) in
  let nodeBottom := py (rf_position node) + height nodeSize in
  Qle_bool (nodeLeft - padding) (px flowPosition) &&
  Qle_bool (px flowPosition) (nodeRight + padding) &&
  Qle_bool (nodeTop - padding) (py flowPosition) &&
  Qle_bool (py flowPosition) (nodeBottom + padding).

(** The [for (const node of nodes)] loop of [handleMouseMove], returning
    [(foundHoveredNode, foundSnapPosition)]. *)
Fixpoint findHovered (sourceNodeId : option string) (flowPosition : Point)
    (nodes : list RFNode) : option string * option Point :=
  match nodes with
  | [] => (None, None)
  | node :: rest =>
      if bool_decide (Some (rf_id node) = sourceNodeId)
      then findHovered sourceNodeId flowPosition rest
      else if hitsPadded node flowPosition
      then (Some (rf_id node),
            Some (getClosestPointOnNode (rf_position node) (nodeSizeOf node)
                    flowPosition))
      else findHovered sourceNodeId flowPosition rest
  end.

(** Local state of the [ConnectionSystem] component. *)
Record SystemState := {
  cursorPosition : option Point;
  hoveredNodeId : option string;
  snapPosition : option Point;
}.

Definition systemReset : SystemState :=
  {| cursorPosition := None; hoveredNodeId := None; snapPosition := None |}.

Definition handleMouseMove (sourceNodeId : option string)
    (nodes : list RFNode) (flowPosition : Point) : SystemState :=
  let found := findHovered sourceNodeId flowPosition nodes in
  {| cursorPosition := Some flowPosition;
     hoveredNodeId := fst found;
     snapPosition := snd found |}.

Inductive EdgeDirection := Directed | Undirected.

(** The [connectionMode] state of [GraphCanvas]. *)
Record ConnectionMode := {
  isActive : bool;
  sourceNodeId : option string;
  sourceHandlePosition : option HandleSide;
  edgeDirection : EdgeDirection;
}.

Definition idleMode : ConnectionMode :=
  {| isActive := false; sourceNodeId := None;
     sourceHandlePosition := None; edgeDirection := Directed |}.

(** The canvas: connection mode, the [graph] prop (the parent adopts every
    graph handed to [onGraphChange]) and the connection system's state. *)
Record Canvas := {
  connectionMode : ConnectionMode;
  graph : Graph;
  system : SystemState;
}.

(** Calls of [onGraphChange(updatedGraph)]. *)
Inductive Emitted := OnGraphChange (updatedGraph : Graph).

Definition setConnectionMode (cm : ConnectionMode) (st : Canvas) : Canvas :=
  {| connectionMode := cm; graph := graph st; system := system st |}.

Definition startConnectionFromHandle (src : string) (h : HandleSide)
    (st : Canvas) : Canvas :=
  setConnectionMode
    {| isActive := true; sourceNodeId := Some src;
       sourceHandlePosition := Some h; edgeDirection := Directed |} st.

Definition startConnectionMode (src : string) (d : EdgeDirection)
    (st : Canvas) : Canvas :=
  setConnectionMode
    {| isActive := true; sourceNodeId := Some src;
       sourceHandlePosition := None; edgeDirection := d |} st.

Definition cancelConnectionMode (st : Canvas) : Canvas :=
  setConnectionMode idleMode st.

(** Truthiness of a [string | null]: [null] and the empty string are falsy. *)
Definition truthyId (o : option string) : option string :=
  match o with
  | Some s => if bool_decide (s = EmptyString) then None else Some s
  | None => None
  end.

Definition isDirected (d : EdgeDirection) : bool :=
  match d with Directed => true | Undirected => false end.

(** [completeConnection(targetNodeId, targetPosition?)]; [now] is the value
    of [Date.now()] used for the edge id. *)
Definition completeConnection (now : Z) (st : Canvas)
    (targetNodeId : string) (targetPos : option Point)
    : Canvas * list Emitted :=
  let cm := connectionMode st in
  if negb (isActive cm) then (st, []) else
  match truthyId (sourceNodeId cm) with
  | None => (st, [])
  | Some src =>
      if bool_decide (src = targetNodeId) then (cancelConnectionMode st, [])
      else
        let newEdge :=
          createEdge ("E" +:+ pretty now) src targetNodeId
            (isDirected (edgeDirection cm)) None (Some "New connection"%string) in
        let newEdge :=
          match targetPos, sourceHandlePosition cm with
          | Some tp, Some h =>
              {| edge_id := edge_id newEdge; source := source newEdge;
                 target := target newEdge; directed := directed newEdge;
                 edge_label := edge_label newEdge;
                 edge_markup := edge_markup newEdge;
                 metadata := Some {| sourceHandle := h; targetPosition := tp |} |}
          | _, _ => newEdge
          end in
        let updatedGraph :=
          {| nodes := nodes (graph st); edges := edges (graph st) ++ [newEdge] |} in
        (cancelConnectionMode
           {| connectionMode := cm; graph := updatedGraph; system := system st |},
         [OnGraphChange updatedGraph])
  end.

(** [handleMouseUp]: commits only with a hovered node and a snap position. *)
Definition handleMouseUp (now : Z) (st : Canvas) : Canvas * list Emitted :=
  match truthyId (hoveredNodeId (system st)), snapPosition (system st) with
  | Some hovered, Some snap => completeConnection now st hovered (Some snap)
  | _, _ => (st, [])
  end.

(** [onNodeClick] while connection mode is active. *)
Definition onNodeClick (now : Z) (st : Canvas) (nodeId : string)
    : Canvas * list Emitted :=
  if isActive (connectionMode st) then completeConnection now st nodeId None
  else (st, []).

(** The effect of [ConnectionSystem]: an inactive session holds no cursor,
    hover or snap state. *)
Definition syncSystem (st : Canvas) : Canvas :=
  if isActive (connectionMode st) then st
  else {| connectionMode := connectionMode st; graph := graph st;
          system := systemReset |}.

Inductive Step :=
| StartConnectionFromHandle (src : string) (h : HandleSide)
| StartConnectionMode (src : string) (d : EdgeDirection)
| MouseMove (flowPosition : Point) (rfNodes : list RFNode)
| MouseUp (now : Z)
| NodeClick (now : Z) (nodeId : string)
| PaneClick
| Escape.

(** One user event.  The document listeners for mouse movement and release
    exist only while the session is active. *)
Definition step (st : Canvas) (ev : Step) : Canvas * list Emitted :=
  let '(st', out) :=
    match ev with
    | StartConnectionFromHandle src h => (startConnectionFromHandle src h st, [])
    | StartConnectionMode src d => (startConnectionMode src d st, [])
    | MouseMove p rfNodes =>
        if isActive (connectionMode st)
        then ({| connectionMode := connectionMode st; graph := graph st;
                 system := handleMouseMove (sourceNodeId (connectionMode st))
                             rfNodes p |}, [])
        else (st, [])
    | MouseUp now =>
        if isActive (connectionMode st) then handleMouseUp now st else (st, [])
    | NodeClick now nodeId => onNodeClick now st nodeId
    | PaneClick | Escape =>
        if isActive (connectionMode st) then (cancelConnectionMode st, [])
        else (st, [])
    end in
  (syncSystem st', out).

(** A whole gesture stream, collecting everything emitted on the way. *)
Fixpoint run (st : Canvas) (evs : list Step) : Canvas * list Emitted :=
  match evs with
  | [] => (st, [])
  | ev :: rest =>
      let '(st1, out1) := step st ev in
      let '(st2, out2) := run st1 rest in
      (st2, out1 ++ out2)
  end.

Definition initialCanvas (g : Graph) : Canvas :=
  {| connectionMode := idleMode; graph := g; system := systemReset |}.

(** The edge a graph-change event asks for is the last edge of the graph
    it carries. *)
Definition requestedEdge (e : Emitted) : option Edge :=
  match e with OnGraphChange g => last (edges g) end.

Definition noSelfLoop (e : Emitted) : Prop :=
  exists ed, requestedEdge e = Some ed /\ source ed <> target ed.

End Session.

(** ** Vocabulary of the session properties *)

Module SessionSpec.
Import Geometry Session.

(** The spec's reading of the hover rule: a node's box, padded outward,
    and the first candidate other than the source whose padded box
    contains the cursor. *)
Record Box := { bx0 : Q; by0 : Q; bx1 : Q; by1 : Q }.

Definition boxOf (n : RFNode) : Box :=
  {| bx0 := px (rf_position n); by0 := py (rf_position n);
     bx1 := px (rf_position n) + width (nodeSizeOf n);
     by1 := py (rf_position n) + height (nodeSizeOf n) |}.

Definition padBox (d : Q) (b : Box) : Box :=
  {| bx0 := bx0 b - d; by0 := by0 b - d; bx1 := bx1 b + d; by1 := by1 b + d |}.

Definition boxContains (b : Box) (p : Point) : bool :=
  Qle_bool (bx0 b) (px p) && Qle_bool (px p) (bx1 b) &&
  Qle_bool (by0 b) (py p) && Qle_bool (py p) (by1 b).

Definition spec_firstCandidate (S : string) (p : Point)
    (candidates : list RFNode) : option RFNode :=
  head (List.filter (fun n => boxContains (padBox 20 (boxOf n)) p)
          (List.filter (fun n => negb (String.eqb (rf_id n) S)) candidates)).

(** A session dragging from node A. *)
Definition draggingFromA : Canvas :=
  fst (step (initialCanvas {| nodes := []; edges := [] |})
         (StartConnectionFromHandle "A" right)).

(** An unmeasured ReactFlow node without explicit size (192 x 96). *)
Definition rfNodeAt (id : string) (x y : Q) : RFNode :=
  {| rf_id := id; rf_position := {| px := x; py := y |};
     rf_data_node := None; rf_width := None; rf_height := None |}.

Definition twoNodes : list RFNode := [rfNodeAt "A" 0 0; rfNodeAt "B" 400 0].

End SessionSpec.

(** ** Graph structure analysis and layout ([utils/graphLayout.ts]) *)

Module Layout.

Record LayoutResult := { res_nodes : list Node; res_edges : list Edge }.

(** [LayoutOptions]: every field may be absent. *)
Record LayoutOptions := {
  opt_width : option Q;
  opt_height : option Q;
  opt_iterations : option Q;
  opt_nodeSpacing : option Q;
  opt_linkDistance : option Q;
  opt_linkStrength : option Q;
  opt_repulsionStrength : option Q;
  opt_centerStrength : option Q;
}.

(** [Required<LayoutOptions>] *)
Record Options := {
  o_width : Q;
  o_height : Q;
  o_iterations : Q;
  o_nodeSpacing : Q;
  o_linkDistance : Q;
  o_linkStrength : Q;
  o_repulsionStrength : Q;
  o_centerStrength : Q;
}.

Definition noOptions : LayoutOptions :=
  {| opt_width := None; opt_height := None; opt_iterations := None;
     opt_nodeSpacing := None; opt_linkDistance := None;
     opt_linkStrength := None; opt_repulsionStrength := None;
     opt_centerStrength := None |}.

Definition DEFAULT_OPTIONS : Options :=
  {| o_width := 1200; o_height := 800; o_iterations := 300;
     o_nodeSpacing := 100; o_linkDistance := 200; o_linkStrength := 1 # 10;
     o_repulsionStrength := -1000; o_centerStrength := 1 # 10 |}.

(** [{ ...DEFAULT_OPTIONS, ...options }] for options whose absent fields
    are missing keys. *)
Definition withDefaults (options : LayoutOptions) : Options :=
  {| o_width := default (o_width DEFAULT_OPTIONS) (opt_width options);
     o_height := default (o_height DEFAULT_OPTIONS) (opt_height options);
     o_iterations := default (o_iterations DEFAULT_OPTIONS) (opt_iterations options);
     o_nodeSpacing := default (o_nodeSpacing DEFAULT_OPTIONS) (opt_nodeSpacing options);
     o_linkDistance := default (o_linkDistance DEFAULT_OPTIONS) (opt_linkDistance options);
     o_linkStrength := default (o_linkStrength DEFAULT_OPTIONS) (opt_linkStrength options);
     o_repulsionStrength :=
       default (o_repulsionStrength DEFAULT_OPTIONS) (opt_repulsionStrength options);
     o_centerStrength :=
       default (o_centerStrength DEFAULT_OPTIONS) (opt_centerStrength options) |}.

(** [{ ...node, position }] *)
Definition withPosition (node : Node) (p : Point) : Node :=
  {| node_id := node_id node; node_label := node_label node;
     node_markup := node_markup node; position := p;
     node_size := node_size node |}.

(** *** Adjacency list

    [adjacency] maps a source id to the targets of its edges, in edge
    order. *)
Definition neighborsOf (adjacency : gmap string (list string)) (nodeId : string)
    : list string :=
  default [] (adjacency !! nodeId).

Definition addEdge (adjacency : gmap string (list string)) (edge : Edge)
    : gmap string (list string) :=
  <[source edge := neighborsOf adjacency (source edge) ++ [target edge]]> adjacency.

Definition buildAdjacency (edges : list Edge) : gmap string (list string) :=
  foldl addEdge ∅ edges.

(** *** Cycle detection: [isHierarchicalGraph] *)

Record DfsState := {
  visited : gset string;
  recursionStack : gset string;
}.

(** The [for (const neighbor of neighbors)] loop of [hasCycle], over the
    recursive call [rec]; after the loop the node leaves the stack. *)
Fixpoint forNeighbors (rec : string -> DfsState -> option (bool * DfsState))
    (nodeId : string) (neighbors : list string) (st : DfsState)
    : option (bool * DfsState) :=
  match neighbors with
  | [] => Some (false, {| visited := visited st;
                          recursionStack := recursionStack st ∖ {[nodeId]} |})
  | neighbor :: rest =>
      match rec neighbor st with
      | None => None
      | Some (true, st') => Some (true, st')
      | Some (false, st') => forNeighbors rec nodeId rest st'
      end
  end.

(** [hasCycle(nodeId)], threading the two sets it mutates.  The recursion
    depth is bounded by [fuel]; [None] means the bound was too small. *)
Fixpoint hasCycle (fuel : nat) (adjacency : gmap string (list string))
    (nodeId : string) (st : DfsState) : option (bool * DfsState) :=
  match fuel with
  | O => None
  | S fuel' =>
      if decide (nodeId ∈ recursionStack st) then Some (true, st)
      else if decide (nodeId ∈ visited st) then Some (false, st)
      else
        forNeighbors (hasCycle fuel' adjacency) nodeId
          (neighborsOf adjacency nodeId)
          {| visited := {[nodeId]} ∪ visited st;
             recursionStack := {[nodeId]} ∪ recursionStack st |}
  end.

(** The loop over all nodes: [Some true] when no start finds a cycle. *)
Fixpoint checkNodes (fuel : nat) (adjacency : gmap string (list string))
    (nodes : list Node) (st : DfsState) : option bool :=
  match nodes with
  | [] => Some true
  | node :: rest =>
      if decide (node_id node ∈ visited st)
      then checkNodes fuel adjacency rest st
      else
        match hasCycle fuel adjacency (node_id node) st with
        | None => None
        | Some (true, _) => Some false
        | Some (false, st') => checkNodes fuel adjacency rest st'
        end
  end.

(** Every id a search can visit: node ids and edge targets. *)
Definition universe (nodes : list Node) (edges : list Edge) : gset string :=
  list_to_set (node_id <$> nodes) ∪ list_to_set (target <$> edges).

(** [isHierarchicalGraph].  A search descends only into unvisited ids, so
    one more than the number of ids bounds its depth
    ([isHierarchicalGraph_correct] shows the bound is never hit). *)
Definition isHierarchicalGraph (nodes : list Node) (edges : list Edge)
    : option bool :=
  match edges with
  | [] => Some false
  | _ =>
      checkNodes (S (size (universe nodes edges))) (buildAdjacency edges) nodes
        {| visited := ∅; recursionStack := ∅ |}
  end.

(** *** Hierarchical layout *)

Definition incomingEdges (edges : list Edge) : gset string :=
  list_to_set (target <$> edges).

(** Nodes without incoming edge; the first node when there is none. *)
Definition rootNodes (nodes : list Node) (edges : list Edge) : list Node :=
  let roots :=
    List.filter (fun node => bool_decide (node_id node ∉ incomingEdges edges))
      nodes in
  match roots, nodes with
  | [], first :: _ => [first]
  | _, _ => roots
  end.

Record BfsState := {
  levels : gmap string nat;
  queue : list (string * nat);
}.

(** [levels.set(root.id, 0); queue.push({ nodeId: root.id, level: 0 })] *)
Definition seedRoot (st : BfsState) (root : Node) : BfsState :=
  {| levels := <[node_id root := O]> (levels st);
     queue := queue st ++ [(node_id root, O)] |}.

(** The body of the loop over the children of a node at [level]. *)
Definition visitChild (level : nat) (st : BfsState) (childId : string)
    : BfsState :=
  match levels st !! childId with
  | Some _ => st
  | None =>
      {| levels := <[childId := S level]> (levels st);
         queue := queue st ++ [(childId, S level)] |}
  end.

(** [while (queue.length > 0)], at most [fuel] iterations. *)
Fixpoint bfsLoop (fuel : nat) (adjacency : gmap string (list string))
    (st : BfsState) : option (gmap string nat) :=
  match queue st with
  | [] => Some (levels st)
  | (nodeId, level) :: rest =>
      match fuel with
      | O => None
      | S fuel' =>
          bfsLoop fuel' adjacency
            (foldl (visitChild level)
               {| levels := levels st; queue := rest |}
               (neighborsOf adjacency nodeId))
      end
  end.

(** Seeding and the loop.  Every root is enqueued once and every other
    entry of the queue is the target of an edge, levelled once, so the
    loop runs at most [length nodes + length edges] times
    ([assignLevels_final] shows the bound is never hit). *)
Definition assignLevels (nodes : list Node) (edges : list Edge)
    : option (gmap string nat) :=
  bfsLoop (length nodes + length edges) (buildAdjacency edges)
    (foldl seedRoot {| levels := ∅; queue := [] |} (rootNodes nodes edges)).

(** [levels.get(node.id) || 0] *)
Definition levelOf (lv : gmap string nat) (nodeId : string) : nat :=
  default O (lv !! nodeId).

(** [nodesByLevel]: a [Map] from level to the nodes on it, iterated in
    insertion order of its keys; the elements are whatever the array
    holds (node records here). *)
Fixpoint groupPush {A : Type} (level : nat) (x : A)
    (groups : list (nat * list A)) : list (nat * list A) :=
  match groups with
  | [] => [(level, [x])]
  | (l, xs) :: rest =>
      if Nat.eqb l level then (l, xs ++ [x]) :: rest
      else (l, xs) :: groupPush level x rest
  end.

Definition groupByLevel {A : Type} (level : A -> nat) (xs : list A)
    : list (nat * list A) :=
  foldl (fun groups x => groupPush (level x) x groups) [] xs.

Definition levelHeight : Q := 250.
Definition nodeWidth : Q := 300.

Definition ofNat (n : nat) : Q := inject_Z (Z.of_nat n).

(** Position of the node at [index] among the [count] nodes of [level]. *)
Definition slotPosition (opts : Options) (level count index : nat) : Point :=
  let y := ofNat level * levelHeight in
  let totalWidth := (ofNat count - 1) * nodeWidth in
  let startX := (o_width opts - totalWidth) / 2 in
  {| px := startX + ofNat index * nodeWidth; py := y |}.

Definition placeLevel (opts : Options) (level : nat) (levelNodes : list Node)
    : list Node :=
  imap (fun index node =>
          withPosition node (slotPosition opts level (length levelNodes) index))
    levelNodes.

Definition placeAll (opts : Options) (groups : list (nat * list Node))
    : list Node :=
  flat_map (fun g => placeLevel opts (fst g) (snd g)) groups.

Definition applyHierarchicalLayout (nodes : list Node) (edges : list Edge)
    (options : LayoutOptions) : option LayoutResult :=
  let opts := withDefaults options in
  lv ← assignLevels nodes edges;
  let nodesByLevel := groupByLevel (fun node => levelOf lv (node_id node)) nodes in
  Some {| res_nodes := placeAll opts nodesByLevel; res_edges := edges |}.

(** *** Force-directed layout

    The simulation itself is d3-force, a library outside this repository.
    It is a parameter here.  Of a layout node it sees the id (through the
    id accessor) and the coordinates, of a layout edge the two endpoint
    ids.  Creating the simulation with its four forces either throws (a
    link whose endpoint is not the id of a node) or gives a simulation; a
    tick advances it; and the coordinates of the layout node at an index
    can be read back ([None] for [NaN]).  d3-force writes [x], [y], [vx],
    [vy] and [index] of the layout nodes it is given and nothing else, so
    [id] and [originalNode] stay as built. *)

Record LayoutNode (A : Type) := {
  ln_id : string;
  ln_x : Q;
  ln_y : Q;
  originalNode : A;
}.
Arguments ln_id {A} _.
Arguments ln_x {A} _.
Arguments ln_y {A} _.
Arguments originalNode {A} _.

Record LayoutEdge := {
  le_source : string;
  le_target : string;
  originalEdge : Edge;
}.

(** The forces [applyForceDirectedLayout] configures. *)
Record Forces := {
  link_distance : Q;
  link_strength : Q;
  charge_strength : Q;
  center_x : Q;
  center_y : Q;
  center_strength : Q;
  collide_radius : Q;
  collide_strength : Q;
}.

Record D3Force := {
  Simulation : Type;
  forceSimulation :
    list (string * Q * Q) -> list (string * string) -> Forces
    -> option Simulation;
  tick : Simulation -> Simulation;
  nodeX : Simulation -> nat -> option Q;
  nodeY : Simulation -> nat -> option Q;
}.

Definition nodeDatum {A : Type} (ln : LayoutNode A) : string * Q * Q :=
  (ln_id ln, ln_x ln, ln_y ln).

Definition linkDatum (le : LayoutEdge) : string * string :=
  (le_source le, le_target le).

(** [v || 0] for a number that may be [NaN]. *)
Definition orZero (v : option Q) : Q :=
  match v with
  | Some q => if Qeq_bool q 0 then 0 else q
  | None => 0
  end.

(** How often [for (let i = 0; i < iterations; i++)] runs its body. *)
Definition tickCount (iterations : Q) : nat := Z.to_nat (Qceiling iterations).

(** [{ id: node.id, x: node.position.x, y: node.position.y,
       originalNode: node }]; [ref] is what the array element is (the node
    record itself, or a reference to it). *)
Definition toLayoutNode {A : Type} (node : Node) (ref : A) : LayoutNode A :=
  {| ln_id := node_id node; ln_x := px (position node);
     ln_y := py (position node); originalNode := ref |}.

Definition toLayoutEdge (edge : Edge) : LayoutEdge :=
  {| le_source := source edge; le_target := target edge; originalEdge := edge |}.

Definition forcesOf (opts : Options) : Forces :=
  {| link_distance := o_linkDistance opts;
     link_strength := o_linkStrength opts;
     charge_strength := o_repulsionStrength opts;
     center_x := o_width opts / 2;
     center_y := o_height opts / 2;
     center_strength := o_centerStrength opts;
     collide_radius := o_nodeSpacing opts;
     collide_strength := 7 # 10 |}.

(** *** Node records as objects

    The arrays handed to the layout functions hold references to node
    objects owned by the caller.  A heap is the list of all node objects,
    a reference an index into it; an object literal adds a cell. *)
Abbreviation Ref := nat.
Abbreviation Heap := (list Node).

Definition emptyNode : Node :=
  {| node_id := ""; node_label := ""; node_markup := None;
     position := {| px := 0; py := 0 |}; node_size := None |}.

Definition readNode (h : Heap) (r : Ref) : Node := nth r h emptyNode.

Definition newNode (h : Heap) (node : Node) : Heap * Ref :=
  (h ++ [node], length h).




Section ForceDirected.

Variable d3 : D3Force.

(** The simulation after [simulation.stop()] and all its ticks. *)
Definition runSimulation {A : Type} (opts : Options)
    (layoutNodes : list (LayoutNode A)) (layoutEdges : list LayoutEdge)
    : option (Simulation d3) :=
  simulation ← forceSimulation d3 (nodeDatum <$> layoutNodes)
                  (linkDatum <$> layoutEdges) (forcesOf opts);
  Some (Nat.iter (tickCount (o_iterations opts)) (tick d3) simulation).

Definition applyForceDirectedLayout (nodes : list Node) (edges : list Edge)
    (options : LayoutOptions) : option LayoutResult :=
  let opts := withDefaults options in
  let layoutNodes := (fun node => toLayoutNode node node) <$> nodes in
  let layoutEdges := toLayoutEdge <$> edges in
  simulation ← runSimulation opts layoutNodes layoutEdges;
  let updatedNodes :=
    imap (fun index layoutNode =>
            withPosition (originalNode layoutNode)
              {| px := orZero (nodeX d3 simulation index);
                 py := orZero (nodeY d3 simulation index) |})
      layoutNodes in
  Some {| res_nodes := updatedNodes; res_edges := edges |}.


(** *** Automatic choice of the layout *)

Definition applyAutoLayout (nodes : list Node) (edges : list Edge)
    (options : LayoutOptions) : option LayoutResult :=
  match nodes with
  | [] => Some {| res_nodes := nodes; res_edges := edges |}
  | [node] =>
      let opts := withDefaults options in
      Some {| res_nodes :=
                [withPosition node
                   {| px := o_width opts / 2; py := o_height opts / 2 |}];
              res_edges := edges |}
  | _ =>
      hierarchical ← isHierarchicalGraph nodes edges;
      if (hierarchical : bool)
      then applyHierarchicalLayout nodes edges options
      else applyForceDirectedLayout nodes edges options
  end.

End ForceDirected.

End Layout.

(** ** Example graphs *)

Module LayoutExamples.
Import Layout.

Definition mkNode (id : string) : Node :=
  {| node_id := id; node_label := id; node_markup := None;
     position := {| px := 0; py := 0 |}; node_size := None |}.

Definition mkEdge (s t : string) : Edge :=
  createEdge (s +:+ t) s t true None None.

Definition triangle : list Edge := [mkEdge "A" "B"; mkEdge "B" "C"; mkEdge "C" "A"].
Definition tree : list Edge := [mkEdge "A" "B"; mkEdge "A" "C"; mkEdge "B" "D"].
Definition chain : list Edge := [mkEdge "A" "B"; mkEdge "B" "C"].

(** A stand-in for d3-force used in examples only: it rejects links to
    unknown ids and never moves a node. *)
Definition frozenD3 : D3Force :=
  {| Simulation := list (string * Q * Q);
     forceSimulation := fun simNodes simLinks _ =>
       if forallb (fun l : string * string =>
                     existsb (fun d : string * Q * Q => String.eqb (fst (fst d)) (fst l)) simNodes
                     && existsb (fun d : string * Q * Q => String.eqb (fst (fst d)) (snd l)) simNodes)
            simLinks
       then Some simNodes else None;
     tick := fun sim => sim;
     nodeX := fun sim i => (fun d : string * Q * Q => snd (fst d)) <$> sim !! i;
     nodeY := fun sim i => (fun d : string * Q * Q => snd d) <$> sim !! i |}.

End LayoutExamples.

(** ** Vocabulary of the layout properties *)

Module GraphSpec.
Import Layout.

(** The edge relation of a graph given by its edge list. *)
Definition edgeRel (edges : list Edge) (u v : string) : Prop :=
  exists e, e ∈ edges /\ source e = u /\ target e = v.

(** The same relation read off an adjacency list. *)
Definition adjRel (adjacency : gmap string (list string)) (u v : string) : Prop :=
  v ∈ neighborsOf adjacency u.

(** A directed cycle that some node of the graph reaches. *)
Definition reachableCycle (nodes : list Node) (edges : list Edge) : Prop :=
  exists n c, n ∈ nodes /\
    rtc (edgeRel edges) (node_id n) c /\ tc (edgeRel edges) c c.

(** Edges reference existing node ids. *)
Definition edgesReferenceNodes (nodes : list Node) (edges : list Edge) : Prop :=
  forall e, e ∈ edges ->
    (exists n, n ∈ nodes /\ node_id n = source e) /\
    (exists n, n ∈ nodes /\ node_id n = target e).

(** Nodes whose search has returned. *)
Definition finished (st : DfsState) : gset string :=
  visited st ∖ recursionStack st.

(** Finished nodes are closed under successors and lie on no cycle. *)
Definition dfsInv (adjacency : gmap string (list string)) (st : DfsState)
    : Prop :=
  (forall u w, u ∈ finished st -> adjRel adjacency u w -> w ∈ finished st) /\
  (forall u, u ∈ finished st -> ~ tc (adjRel adjacency) u u).

(** What a call of [hasCycle] guarantees. *)
Definition hasCycle_post (adjacency : gmap string (list string))
    (v : string) (st : DfsState)
    (r : option (bool * DfsState)) : Prop :=
  exists b st',
    r = Some (b, st') /\
    visited st ⊆ visited st' /\
    (b = true -> exists c, rtc (adjRel adjacency) v c /\ tc (adjRel adjacency) c c) /\
    (b = false ->
       recursionStack st' = recursionStack st /\
       v ∈ finished st' /\ dfsInv adjacency st').

(** Queue length plus the number of targets not yet levelled: unchanged by
    the children loop, so every dequeue lowers it by one. *)
Definition bfsMeasure (T : gset string) (st : BfsState) : nat :=
  length (queue st) + size (T ∖ dom (levels st)).

(** A node still waits in the queue. *)
Definition pending (st : BfsState) (u : string) : Prop :=
  exists l, (u, l) ∈ queue st.

(** The loop invariant.  The queue holds nodes of one level [k] followed by
    nodes of level [k + 1], and no node has a higher level. *)
Record bfsInv (adjacency : gmap string (list string)) (R : gset string)
    (st : BfsState) : Prop := {
  inv_queue : forall v l, (v, l) ∈ queue st -> levels st !! v = Some l;
  inv_front : exists k A B,
    queue st = A ++ B /\
    (forall v l, (v, l) ∈ A -> l = k) /\
    (forall v l, (v, l) ∈ B -> l = S k) /\
    (forall v l, levels st !! v = Some l -> (l <= S k)%nat);
  inv_edges : forall u lu w,
    levels st !! u = Some lu -> ~ pending st u -> adjRel adjacency u w ->
    exists lw, levels st !! w = Some lw /\ (lw <= S lu)%nat;
  inv_parent : forall v l,
    levels st !! v = Some (S l) -> exists u, adjRel adjacency u v /\ levels st !! u = Some l;
  inv_roots : forall v, levels st !! v = Some O <-> v ∈ R;
}.

(** What holds of the level map once the queue has drained. *)
Record bfsFinal (adjacency : gmap string (list string)) (R : gset string)
    (lv : gmap string nat) : Prop := {
  fin_edges : forall u lu w,
    lv !! u = Some lu -> adjRel adjacency u w ->
    exists lw, lv !! w = Some lw /\ (lw <= S lu)%nat;
  fin_parent : forall v l,
    lv !! v = Some (S l) -> exists u, adjRel adjacency u v /\ lv !! u = Some l;
  fin_roots : forall v, lv !! v = Some O <-> v ∈ R;
}.

(** The ids of the roots of a layout. *)
Definition rootIds (nodes : list Node) (edges : list Edge) : gset string :=
  list_to_set (node_id <$> rootNodes nodes edges).

Definition hasIncoming (edges : list Edge) (n : Node) : Prop :=
  exists e, e ∈ edges /\ target e = node_id n.

(** Zero in-degree nodes, or the first node when every node has an
    incoming edge. *)
Definition rootsSpec (nodes : list Node) (edges : list Edge) : Prop :=
  ((exists n, n ∈ nodes /\ ~ hasIncoming edges n) /\
   forall n, n ∈ rootNodes nodes edges <-> n ∈ nodes /\ ~ hasIncoming edges n)
  \/
  ((forall n, n ∈ nodes -> hasIncoming edges n) /\
   rootNodes nodes edges = take 1 nodes).

(** The elements of [xs] on level [l], in the order of [xs]. *)
Definition onLevel {A : Type} (level : A -> nat) (l : nat) (xs : list A)
    : list A :=
  List.filter (fun x => Nat.eqb (level x) l) xs.

(** The level a node is laid out on: the level assigned to its id, and 0
    when none was assigned. *)
Definition nodeLevel (lv : gmap string nat) (n : Node) : nat :=
  match lv !! node_id n with
  | Some d => d
  | None => O
  end.

(** How many nodes before position [i] share the level of [n], and how
    many nodes share it in all. *)
Definition levelIndex (lv : gmap string nat) (nodes : list Node)
    (i : nat) (n : Node) : nat :=
  length (onLevel (nodeLevel lv) (nodeLevel lv n) (take i nodes)).

Definition levelCount (lv : gmap string nat) (nodes : list Node) (n : Node) : nat :=
  length (onLevel (nodeLevel lv) (nodeLevel lv n) nodes).

(** Where the spec puts the node [n], number [i] of the input, on a canvas
    of the given width: every field is kept but the position; y is the
    level times 250; x is the slot of its rank in a row of slots 300 apart
    centred on the canvas width. *)
Definition placedNode (canvasWidth : Q) (lv : gmap string nat)
    (nodes : list Node) (i : nat) (n : Node) : Node :=
  {| node_id := node_id n; node_label := node_label n;
     node_markup := node_markup n;
     position :=
       {| px := (canvasWidth
                 - (inject_Z (Z.of_nat (levelCount lv nodes n)) - 1) * 300) / 2
                + inject_Z (Z.of_nat (levelIndex lv nodes i n)) * 300;
          py := inject_Z (Z.of_nat (nodeLevel lv n)) * 250 |};
     node_size := node_size n |}.

(** Two node records that agree on every field but the position. *)
Definition sameExceptPosition (a b : Node) : Prop :=
  node_id a = node_id b /\ node_label a = node_label b /\
  node_markup a = node_markup b /\ node_size a = node_size b.

(** [h'] keeps every object of [h] as it was. *)
Definition heapExtends (h h' : Heap) : Prop :=
  exists new, h' = h ++ new.




End GraphSpec.

(** ** Handles and the guide line ([ConnectionSystem.tsx],
       [EdgeConnectionEditor.tsx]) *)

Module Handles.
Import Geometry Session.

(** [getHandlePosition(nodePosition, nodeSize, handlePosition)] *)
Definition getHandlePosition (nodePosition : Point) (nodeSize : Size)
    (handlePosition : HandleSide) : Point :=
  let handleSize := 16 in
  let offset := 8 in
  let totalOffset := offset + handleSize / 2 in
  match handlePosition with
  | top =>
      {| px := px nodePosition + width nodeSize / 2;
         py := py nodePosition - totalOffset |}
  | right =>
      {| px := px nodePosition + width nodeSize + totalOffset;
         py := py nodePosition + height nodeSize / 2 |}
  | bottom =>
      {| px := px nodePosition + width nodeSize / 2;
         py := py nodePosition + height nodeSize + totalOffset |}
  | left =>
      {| px := px nodePosition - totalOffset;
         py := py nodePosition + height nodeSize / 2 |}
  end.

(** What the connection system draws: the line from the source handle to
    the snap point, or to the cursor while nothing is hovered. *)
Record GuideLine := {
  gl_source : Point;
  gl_target : Point;
  gl_snapped : bool;
}.

(** The render part of [ConnectionSystem]: [None] is [return null]. *)
Definition guideLine (cm : ConnectionMode) (rfNodes : list RFNode)
    (sys : SystemState) : option GuideLine :=
  if negb (isActive cm) then None else
  match truthyId (sourceNodeId cm), sourceHandlePosition cm,
        cursorPosition sys with
  | Some src, Some handle, Some cursor =>
      match List.find (fun n => String.eqb (rf_id n) src) rfNodes with
      | None => None
      | Some sourceNode =>
          Some {| gl_source :=
                    getHandlePosition (rf_position sourceNode)
                      (nodeSizeOf sourceNode) handle;
                  gl_target := default cursor (snapPosition sys);
                  gl_snapped := bool_decide (is_Some (snapPosition sys)) |}
      end
  | _, _, _ => None
  end.

(** [handleTargetPositionSelect] of the edge connection editor: the point
    it hands to [onUpdateConnectionPoints], [None] for an unknown side. *)
Definition targetSidePosition (targetNode : RFNode) (side : string)
    : option Point :=
  let targetNodeSize := nodeSizeOf targetNode in
  if String.eqb side "top" then
    Some {| px := px (rf_position targetNode) + width targetNodeSize / 2;
            py := py (rf_position targetNode) |}
  else if String.eqb side "right" then
    Some {| px := px (rf_position targetNode) + width targetNodeSize;
            py := py (rf_position targetNode) + height targetNodeSize / 2 |}
  else if String.eqb side "bottom" then
    Some {| px := px (rf_position targetNode) + width targetNodeSize / 2;
            py := py (rf_position targetNode) + height targetNodeSize |}
  else if String.eqb side "left" then
    Some {| px := px (rf_position targetNode);
            py := py (rf_position targetNode) + height targetNodeSize / 2 |}
  else None.

(** The string a handle side is written as. *)
Definition sideName (h : HandleSide) : string :=
  match h with
  | top => "top" | right => "right" | bottom => "bottom" | left => "left"
  end.

(** Pointwise equality of points ([Q] is compared by [==]). *)
Definition pointEq (a b : Point) : Prop := px a == px b /\ py a == py b.

End Handles.

(** ** Clutter test ([utils/graphLayout.ts]) *)

Module Clutter.

Definition minDistance : Q := 150.

(** [Math.sqrt(dx * dx + dy * dy) < minDistance], decided over the reals:
    for the positive bound it is [dx * dx + dy * dy < minDistance ^ 2]. *)
Definition tooClose (nodeA nodeB : Node) : bool :=
  let dx := px (position nodeA) - px (position nodeB) in
  let dy := py (position nodeA) - py (position nodeB) in
  negb (Qle_bool (minDistance * minDistance) (dx * dx + dy * dy)).

(** The two nested loops: every node against the nodes after it. *)
Fixpoint scanPairs (nodes : list Node) : bool :=
  match nodes with
  | [] => false
  | nodeA :: rest => existsb (tooClose nodeA) rest || scanPairs rest
  end.

Definition isLayoutCluttered (nodes : list Node) : bool :=
  if (length nodes <? 2)%nat then false else scanPairs nodes.

End Clutter.

(** ** Graph edits of the canvas ([GraphCanvas.tsx]) *)

Module CanvasOps.
Import Geometry Session Layout Clutter.

(** [createNode(id, label, position, markup)] of [core/schema.ts] *)
Definition createNode (id label : string) (p : Point)
    (markup : option string) : Node :=
  {| node_id := id; node_label := label; node_markup := markup;
     position := p; node_size := None |}.

(** ReactFlow's edge changes; only [remove] is acted on. *)
Inductive EdgeChange :=
| EdgeAdd (item : Edge)
| EdgeRemove (id : string)
| EdgeReset (item : Edge)
| EdgeSelect (id : string) (selected : bool).

Definition removedId (change : EdgeChange) : option string :=
  match change with
  | EdgeRemove id => Some id
  | _ => None
  end.

(** [handleEdgesChange]: the graph given to [onGraphChange], if any. *)
Definition handleEdgesChange (graph : Graph) (changes : list EdgeChange)
    : option Graph :=
  let removedIds := omap removedId changes in
  if (0 <? length removedIds)%nat then
    Some {| nodes := nodes graph;
            edges := List.filter
                       (fun edge => negb (existsb (String.eqb (edge_id edge))
                                            removedIds))
                       (edges graph) |}
  else None.

(** [{ ...edge, metadata: { ...edge.metadata, sourceHandle,
       targetPosition } }]; of the metadata record the two connection
    points are modelled, which are the keys this canvas writes. *)
Definition withConnectionPoints (edge : Edge) (handle : HandleSide)
    (tp : Point) : Edge :=
  {| edge_id := edge_id edge; source := source edge; target := target edge;
     directed := directed edge; edge_label := edge_label edge;
     edge_markup := edge_markup edge;
     metadata := Some {| sourceHandle := handle; targetPosition := tp |} |}.

(** [updateEdgeConnectionPoints] for the edge being edited (the editor
    offers the four handle sides). *)
Definition updateEdgeConnectionPoints (editingEdgeId : option string)
    (graph : Graph) (handle : HandleSide) (tp : Point) : option Graph :=
  match truthyId editingEdgeId with
  | None => None
  | Some id =>
      Some {| nodes := nodes graph;
              edges := (fun edge =>
                          if String.eqb (edge_id edge) id
                          then withConnectionPoints edge handle tp
                          else edge) <$> edges graph |}
  end.

(** [addNodeAtPosition]: [flowPosition] is where the context menu was
    opened, absent when it was opened on a node. *)
Definition addNodeAtPosition (flowPosition : option Point) (graph : Graph)
    : option Graph :=
  match flowPosition with
  | None => None
  | Some p =>
      let nodeCount := length (nodes graph) in
      let newNode :=
        createNode ("Node" +:+ pretty (nodeCount + 1)%nat)
          ("Node " +:+ pretty (nodeCount + 1)%nat) p None in
      Some {| nodes := nodes graph ++ [newNode]; edges := edges graph |}
  end.

(** [convertToReactFlowNodes]: the ReactFlow nodes built for the nodes of
    the graph, not yet measured. *)
Definition convertToReactFlowNodes (nodes : list Node) : list RFNode :=
  (fun node => {| rf_id := node_id node; rf_position := position node;
                  rf_data_node := Some node;
                  rf_width := None; rf_height := None |}) <$> nodes.

(** ReactFlow's node changes; only position changes are looked at. *)
Inductive NodeChange :=
| PositionChange (id : string) (newPosition : option Point)
    (dragging : option bool)
| OtherNodeChange.

Definition isDragStart (change : NodeChange) : bool :=
  match change with
  | PositionChange _ _ (Some true) => true
  | _ => false
  end.

Definition isDragEnd (change : NodeChange) : bool :=
  match change with
  | PositionChange _ _ (Some true) => false
  | PositionChange _ _ _ => true
  | OtherNodeChange => false
  end.

(** A position change that carries a position, as [(id, position)]. *)
Definition positionOfChange (change : NodeChange) : option (string * Point) :=
  match change with
  | PositionChange id (Some p) _ => Some (id, p)
  | _ => None
  end.

Definition defaultSize : Size := {| width := 192; height := 96 |}.

(** The record staged for a ReactFlow node. *)
Definition externalNode (positionChanges : list (string * Point))
    (n : RFNode) : Node :=
  let change := List.find (fun ch => String.eqb (fst ch) (rf_id n))
                  positionChanges in
  {| node_id := rf_id n;
     node_label :=
       match rf_data_node n with
       | Some node => node_label node
       | None => ""
       end;
     node_markup := rf_data_node n ≫= node_markup;
     position :=
       match change with
       | Some ch => snd ch
       | None => rf_position n
       end;
     node_size := Some (default defaultSize (rf_data_node n ≫= node_size)) |}.

(** The drag bookkeeping of the canvas: [isDraggingRef] and
    [pendingGraphRef]. *)
Record DragState := {
  isDragging : bool;
  pendingGraph : Graph;
}.

(** [handleNodesChange] with the ReactFlow nodes of the current render;
    the second component is the graph given to [onGraphChange], if any. *)
Definition handleNodesChange (rfNodes : list RFNode) (ds : DragState)
    (changes : list NodeChange) : DragState * option Graph :=
  let hasDragStart := existsb isDragStart changes in
  let hasDragEnd := existsb isDragEnd changes in
  let dragging1 := if hasDragStart then true else isDragging ds in
  if hasDragEnd then
    ({| isDragging := false; pendingGraph := pendingGraph ds |},
     Some (pendingGraph ds))
  else
    let positionChanges := omap positionOfChange changes in
    if (0 <? length positionChanges)%nat then
      ({| isDragging := dragging1;
          pendingGraph :=
            {| nodes := externalNode positionChanges <$> rfNodes;
               edges := edges (pendingGraph ds) |} |}, None)
    else ({| isDragging := dragging1; pendingGraph := pendingGraph ds |}, None).

Inductive LayoutType := LayoutAuto | LayoutForce | LayoutHierarchical.

(** [applyLayout(layoutType)] for a window of the given inner size: the
    graph given to [onGraphChange]; [None] when the layout throws. *)
Definition applyLayout (d3 : D3Force) (innerWidth innerHeight : Q)
    (layoutType : LayoutType) (graph : Graph) : option Graph :=
  let layoutOptions :=
    {| opt_width := Some (Qmax 1200 innerWidth);
       opt_height := Some (Qmax 800 innerHeight);
       opt_iterations := Some 300;
       opt_nodeSpacing := None; opt_linkDistance := None;
       opt_linkStrength := None; opt_repulsionStrength := None;
       opt_centerStrength := None |} in
  result ←
    match layoutType with
    | LayoutForce =>
        applyForceDirectedLayout d3 (nodes graph) (edges graph) layoutOptions
    | LayoutHierarchical =>
        applyHierarchicalLayout (nodes graph) (edges graph) layoutOptions
    | LayoutAuto =>
        applyAutoLayout d3 (nodes graph) (edges graph) layoutOptions
    end;
  Some {| nodes := res_nodes result; edges := res_edges result |}.

(** [shouldSuggestLayout] *)
Definition shouldSuggestLayout (graph : Graph) : bool :=
  isLayoutCluttered (nodes graph) && (2 <? length (nodes graph))%nat.

End CanvasOps.

(** ** Edge connection editor ([EdgeConnectionEditor.tsx]) *)

Module Editor.
Import Geometry Session Handles CanvasOps.

(** The edge the canvas hands to the editor:
    [graph.edges.find(e => e.id === edgeEditingState.edgeId)]. *)
Definition editingEdge (editingEdgeId : option string) (graph : Graph)
    : option Edge :=
  id ← truthyId editingEdgeId;
  List.find (fun e => String.eqb (edge_id e) id) (edges graph).

(** [currentTargetPosition]: the stored target position, or the middle of
    the right side of the target node. *)
Definition currentTargetPosition (edge : Edge) (targetNode : RFNode) : Point :=
  match metadata edge with
  | Some m => targetPosition m
  | None =>
      {| px := px (rf_position targetNode) + width (nodeSizeOf targetNode);
         py := py (rf_position targetNode)
               + height (nodeSizeOf targetNode) / 2 |}
  end.

(** A click on a handle button of the editor, which the canvas renders
    only when the edited edge and the ReactFlow nodes of both its ends are
    found: the graph given to [onGraphChange], if any. *)
Definition handleSourceHandleChange (editingEdgeId : option string)
    (graph : Graph) (rfNodes : list RFNode) (newHandle : HandleSide)
    : option Graph :=
  edge ← editingEdge editingEdgeId graph;
  _ ← List.find (fun n => String.eqb (rf_id n) (source edge)) rfNodes;
  targetNode ← List.find (fun n => String.eqb (rf_id n) (target edge)) rfNodes;
  updateEdgeConnectionPoints editingEdgeId graph newHandle
    (currentTargetPosition edge targetNode).

End Editor.

(** ** Vocabulary of the canvas properties *)

Module CanvasSpec.
Import Layout CanvasOps.

(** Node ids are unique and none is a name [addNodeAtPosition] will hand
    out later. *)
Definition freshNames (g : Graph) : Prop :=
  NoDup (node_id <$> nodes g) /\
  forall k, (length (nodes g) < k)%nat ->
    "Node" +:+ pretty k ∉ node_id <$> nodes g.

(** Two edges that agree on everything but the connection points. *)
Definition sameExceptMetadata (a b : Edge) : Prop :=
  edge_id a = edge_id b /\ source a = source b /\ target a = target b /\
  directed a = directed b /\ edge_label a = edge_label b /\
  edge_markup a = edge_markup b.

(** A batch ends a drag when it holds a position change that is not
    dragging, starts one when it holds a position change that is
    dragging, and carries a position when one of its position changes
    does. *)
Definition endsDrag (changes : list NodeChange) : Prop :=
  exists id p dragging,
    PositionChange id p dragging ∈ changes /\ dragging <> Some true.

Definition startsDrag (changes : list NodeChange) : Prop :=
  exists id p, PositionChange id p (Some true) ∈ changes.

Definition carriesPosition (changes : list NodeChange) : Prop :=
  exists id p dragging, PositionChange id (Some p) dragging ∈ changes.

(** [q] is the position of the first change of the batch that carries a
    position for the node [id]. *)
Definition firstPositionFor (changes : list NodeChange) (id : string)
    (q : Point) : Prop :=
  exists before dragging after,
    changes = before ++ PositionChange id (Some q) dragging :: after /\
    forall q' dragging', PositionChange id (Some q') dragging' ∉ before.

(** A staged node against the graph node it came from: the same but for
    the position, with its size made explicit (192 by 96 when it had
    none).  The position is that of the first change of the batch that
    carries one for the node, and the old one when there is no such
    change. *)
Definition stagedFrom (changes : list NodeChange) (m n : Node) : Prop :=
  node_id m = node_id n /\ node_label m = node_label n /\
  node_markup m = node_markup n /\
  node_size m = Some match node_size n with
                     | Some sz => sz
                     | None => {| width := 192; height := 96 |}
                     end /\
  (forall q, firstPositionFor changes (node_id n) q -> position m = q) /\
  (position m = position n \/
   exists dragging,
     PositionChange (node_id n) (Some (position m)) dragging ∈ changes) /\
  ((forall q dragging,
      PositionChange (node_id n) (Some q) dragging ∉ changes) ->
   position m = position n).

End CanvasSpec.

(** ** Vocabulary of the further session properties *)

Module SessionInvariants.
Import Geometry Session.

(** What every canvas state reached from the initial one satisfies. *)
Definition sessionInv (st : Canvas) : Prop :=
  (isActive (connectionMode st) = false ->
     connectionMode st = idleMode /\ system st = systemReset) /\
  (isActive (connectionMode st) = true ->
     exists src, sourceNodeId (connectionMode st) = Some src) /\
  (is_Some (hoveredNodeId (system st)) <->
     is_Some (snapPosition (system st))) /\
  (is_Some (hoveredNodeId (system st)) ->
     is_Some (cursorPosition (system st))).

(** The two events that open a session. *)
Definition isStart (ev : Step) : bool :=
  match ev with
  | StartConnectionFromHandle _ _ | StartConnectionMode _ _ => true
  | _ => false
  end.

(** The edge [completeConnection] builds at time [now]. *)
Definition connectionEdge (now : Z) (cm : ConnectionMode) (src tgt : string)
    (snap : option Point) : Edge :=
  {| edge_id := "E" +:+ pretty now; source := src; target := tgt;
     directed := match edgeDirection cm with
                 | Directed => true
                 | Undirected => false
                 end;
     edge_label := None; edge_markup := Some "New connection"%string;
     metadata :=
       match snap, sourceHandlePosition cm with
       | Some sp, Some handle =>
           Some {| sourceHandle := handle; targetPosition := sp |}
       | _, _ => None
       end |}.

End SessionInvariants.

(** ** Theorems: the example graphs *)

Module ExampleFacts.
Import Layout LayoutExamples.

Example triangle_is_cyclic :
  isHierarchicalGraph [mkNode "A"; mkNode "B"; mkNode "C"] triangle = Some false.
Proof. vm_compute. reflexivity. Qed.

Example tree_is_acyclic :
  isHierarchicalGraph [mkNode "A"; mkNode "B"; mkNode "C"; mkNode "D"] tree
  = Some true.
Proof. vm_compute. reflexivity. Qed.

Example chain_levels :
  (fun lv => (lv !! "A"%string, lv !! "B"%string, lv !! "C"%string)) <$>
    assignLevels [mkNode "A"; mkNode "B"; mkNode "C"] chain
  = Some (Some 0%nat, Some 1%nat, Some 2%nat).
Proof. vm_compute. reflexivity. Qed.

End ExampleFacts.

(** ** Theorems: graph structure *)

Module StructureFacts.
Import Layout GraphSpec.

Lemma neighborsOf_addEdge (adj : gmap string (list string)) (e : Edge)
    (u v : string) :
  v ∈ neighborsOf (addEdge adj e) u <->
  v ∈ neighborsOf adj u \/ (source e = u /\ target e = v).
Proof.
  unfold addEdge, neighborsOf at 1.
  destruct (decide (source e = u)) as [<-|Hne].
  - rewrite lookup_insert_eq. cbn. rewrite elem_of_app, list_elem_of_singleton.
    naive_solver.
  - rewrite lookup_insert_ne by done. fold (neighborsOf adj u). naive_solver.
Qed.

Lemma neighborsOf_foldl (edges : list Edge) (adj : gmap string (list string))
    (u v : string) :
  v ∈ neighborsOf (foldl addEdge adj edges) u <->
  v ∈ neighborsOf adj u \/ edgeRel edges u v.
Proof.
  revert adj. induction edges as [|e edges IH]; intros adj; cbn [foldl].
  - unfold edgeRel. split; [auto|]. intros [?|(e & He & _)]; [done|].
    by apply elem_of_nil in He.
  - rewrite IH, neighborsOf_addEdge. unfold edgeRel. split.
    + intros [[?|[? ?]]|(e' & He' & ? & ?)]; [by left|right..].
      * exists e. split; [left|done].
      * exists e'. split; [by right|done].
    + intros [?|(e' & He' & ? & ?)]; [by left; left|].
      apply elem_of_cons in He' as [->|He']; [left; right; done|].
      right. by exists e'.
Qed.

(** The adjacency list holds exactly the edges. *)
Lemma neighborsOf_buildAdjacency (edges : list Edge) (u v : string) :
  v ∈ neighborsOf (buildAdjacency edges) u <-> edgeRel edges u v.
Proof.
  unfold buildAdjacency. rewrite neighborsOf_foldl.
  unfold neighborsOf. rewrite lookup_empty. cbn.
  split; [intros [H|H]; [by apply elem_of_nil in H | done] | auto].
Qed.

Lemma tc_first_step {A : Type} (R : relation A) (x z : A) :
  tc R x z -> exists y, R x y /\ rtc R y z.
Proof.
  intros H. destruct H as [x z H|x y z H1 H2].
  - exists z. split; [done | constructor].
  - exists y. split; [done | by apply tc_rtc].
Qed.

Section Dfs.

Variable adjacency : gmap string (list string).
Variable U : gset string.

Local Abbreviation E := (adjRel adjacency).

Local Abbreviation dfsInv := (GraphSpec.dfsInv adjacency).
Local Abbreviation hasCycle_post := (GraphSpec.hasCycle_post adjacency).

Hypothesis targets_in_U : forall u v, E u v -> v ∈ U.

Lemma closed_rtc (st : DfsState) (u w : string) :
  dfsInv st -> u ∈ finished st -> rtc E u w -> w ∈ finished st.
Proof.
  intros [Hclosed _] Hu Hpath. induction Hpath as [|x y z Hxy _ IH]; [done|].
  apply IH. by apply (Hclosed x).
Qed.

Lemma size_unvisited_lt (v : string) (V : gset string) :
  v ∈ U -> v ∉ V -> (size (U ∖ ({[v]} ∪ V)) < size (U ∖ V))%nat.
Proof.
  intros HvU HvV. apply subset_size. split; [set_solver|].
  intros Hsub. assert (v ∈ U ∖ ({[v]} ∪ V)) by (apply Hsub; set_solver).
  set_solver.
Qed.

Lemma hasCycle_spec (fuel : nat) (v : string) (st : DfsState) :
  dfsInv st ->
  (forall s, s ∈ recursionStack st -> tc E s v) ->
  v ∈ U ->
  (size (U ∖ visited st) < fuel)%nat ->
  hasCycle_post v st (hasCycle fuel adjacency v st).
Proof.
  revert v st. induction fuel as [|fuel IH]; intros v st Hinv Hstack HvU Hfuel;
    [lia|].
  cbn [hasCycle].
  destruct (decide (v ∈ recursionStack st)) as [Hon|Hoff].
  { exists true, st. repeat split; try done.
    intros _. exists v. split; [constructor | by apply Hstack]. }
  destruct (decide (v ∈ visited st)) as [Hvis|Hnew].
  { exists false, st. repeat split; try done; apply Hinv || set_solver. }
  set (S0 := recursionStack st).
  set (st1 := {| visited := {[v]} ∪ visited st;
                 recursionStack := {[v]} ∪ recursionStack st |}).
  assert (Hloop : forall l sti,
    (forall nb, nb ∈ l -> E v nb) ->
    (forall nb, E v nb -> nb ∈ l \/ nb ∈ finished sti) ->
    dfsInv sti ->
    recursionStack sti = {[v]} ∪ S0 ->
    visited st1 ⊆ visited sti ->
    exists b st',
      forNeighbors (hasCycle fuel adjacency) v l sti = Some (b, st') /\
      visited sti ⊆ visited st' /\
      (b = true -> exists c, rtc E v c /\ tc E c c) /\
      (b = false ->
         recursionStack st' = S0 /\ v ∈ finished st' /\ dfsInv st')).
  { induction l as [|nb l IHl]; intros sti Hl Hdone Hinvi Hstk Hsub;
      cbn [forNeighbors].
    - eexists false, _. split; [reflexivity|]. cbn.
      split; [done|]. split; [done|]. intros _.
      assert (Hall : forall nb, E v nb -> nb ∈ finished sti).
      { intros nb Hnb. destruct (Hdone nb Hnb) as [H|H]; [|done].
        by apply elem_of_nil in H. }
      assert (Hvfin : v ∉ finished sti).
      { unfold finished. rewrite Hstk. set_solver. }
      assert (HF : finished {| visited := visited sti;
                               recursionStack := recursionStack sti ∖ {[v]} |}
                   = {[v]} ∪ finished sti).
      { unfold finished. cbn. rewrite Hstk.
        assert (v ∈ visited sti) by set_solver.
        apply set_eq. intros x. rewrite !elem_of_union, !elem_of_difference,
          !elem_of_union, !elem_of_singleton.
        destruct (decide (x = v)); naive_solver. }
      split; [rewrite Hstk; subst S0; set_solver|].
      split; [rewrite HF; set_solver|].
      split.
      + intros u w. rewrite HF, !elem_of_union, !elem_of_singleton.
        intros [->|Hu] Huw; right; [by apply Hall|].
        by apply (proj1 Hinvi u).
      + intros u. rewrite HF, elem_of_union, elem_of_singleton.
        intros [->|Hu]; [|by apply Hinvi].
        intros Hcyc. apply Hvfin.
        apply tc_first_step in Hcyc as (y & Hvy & Hyv).
        apply (closed_rtc sti y); [done | by apply Hall | done].
    - assert (Hvnb : E v nb) by (apply Hl; left).
      destruct (IH nb sti) as (b & st' & Hr & Hvis' & Htrue & Hfalse).
      + done.
      + rewrite Hstk. intros s. rewrite elem_of_union, elem_of_singleton.
        intros [->|Hs]; [by apply tc_once|].
        eapply tc_r; [by apply Hstack | done].
      + by apply (targets_in_U v).
      + pose proof (size_unvisited_lt v (visited st) HvU Hnew) as Hlt.
        assert (size (U ∖ visited sti) <= size (U ∖ ({[v]} ∪ visited st)))%nat
          by (apply subseteq_size; set_solver).
        lia.
      + rewrite Hr. destruct b.
        * exists true, st'. split; [done|]. split; [done|].
          split; [|done]. intros _.
          destruct (Htrue eq_refl) as (c & Hc1 & Hc2).
          exists c. split; [by eapply rtc_l | done].
        * destruct (Hfalse eq_refl) as (Hstk' & Hnbfin & Hinv').
          assert (Hmono : finished sti ⊆ finished st').
          { unfold finished. rewrite Hstk'. set_solver. }
          destruct (IHl st') as (b2 & st2 & Hr2 & Hvis2 & Htrue2 & Hfalse2).
          -- intros x Hx. apply Hl. by right.
          -- intros x Hx. destruct (Hdone x Hx) as [Hin|Hfin].
             ++ apply elem_of_cons in Hin as [->|Hin]; [by right | by left].
             ++ right. by apply Hmono.
          -- done.
          -- by rewrite Hstk'.
          -- set_solver.
          -- exists b2, st2. rewrite Hr2. split; [done|].
             split; [set_solver|]. done. }
  destruct (Hloop (neighborsOf adjacency v) st1)
    as (b & st' & Hr & Hvis' & Htrue & Hfalse).
  - done.
  - intros nb Hnb. by left.
  - assert (HF1 : finished st1 = finished st).
    { unfold finished, st1. cbn. set_solver. }
    destruct Hinv as [H1 H2]. split.
    + intros u w. rewrite HF1. apply H1.
    + intros u. rewrite HF1. apply H2.
  - done.
  - done.
  - exists b, st'. split; [done|]. split; [cbn in Hvis'; set_solver|].
    split; [done|]. intros Hb. destruct (Hfalse Hb) as (? & ? & ?). done.
Qed.

(** The loop over the nodes. *)
Lemma checkNodes_spec (fuel : nat) (nodes : list Node) (st : DfsState) :
  dfsInv st ->
  recursionStack st = ∅ ->
  (forall n, n ∈ nodes -> node_id n ∈ U) ->
  (size U < fuel)%nat ->
  exists b,
    checkNodes fuel adjacency nodes st = Some b /\
    (b = true ->
       exists st', dfsInv st' /\ recursionStack st' = ∅ /\
         visited st ⊆ visited st' /\
         forall n, n ∈ nodes -> node_id n ∈ visited st') /\
    (b = false ->
       exists n c, n ∈ nodes /\ rtc E (node_id n) c /\ tc E c c).
Proof.
  intros Hinv Hstk HU Hfuel. revert st Hinv Hstk.
  induction nodes as [|n nodes IH]; intros st Hinv Hstk; cbn [checkNodes].
  { exists true. split; [done|]. split; [|done]. intros _.
    exists st. repeat split; try done; try apply Hinv.
    intros n Hn. by apply elem_of_nil in Hn. }
  assert (HU' : forall m, m ∈ nodes -> node_id m ∈ U)
    by (intros m Hm; apply HU; by right).
  assert (Hrest : forall st1, dfsInv st1 -> recursionStack st1 = ∅ ->
      visited st ⊆ visited st1 -> node_id n ∈ visited st1 ->
      exists b,
        checkNodes fuel adjacency nodes st1 = Some b /\
        (b = true ->
           exists st', dfsInv st' /\ recursionStack st' = ∅ /\
             visited st ⊆ visited st' /\
             forall m, m ∈ n :: nodes -> node_id m ∈ visited st') /\
        (b = false ->
           exists m c, m ∈ n :: nodes /\ rtc E (node_id m) c /\ tc E c c)).
  { intros st1 Hinv1 Hstk1 Hsub1 Hn1.
    destruct (IH HU' st1 Hinv1 Hstk1) as (b & Hr & Htrue & Hfalse).
    exists b. split; [done|]. split.
    - intros Hb. destruct (Htrue Hb) as (st' & Hinv' & Hstk' & Hsub' & Hall).
      exists st'. split; [done|]. split; [done|]. split; [set_solver|].
      intros m Hm. apply elem_of_cons in Hm as [->|Hm]; [set_solver|].
      by apply Hall.
    - intros Hb. destruct (Hfalse Hb) as (m & c & Hm & Hc).
      exists m, c. split; [by right | done]. }
  destruct (decide (node_id n ∈ visited st)) as [Hvis|Hnew].
  { by apply Hrest. }
  destruct (hasCycle_spec fuel (node_id n) st) as (b & st1 & Hr & Hsub & Htrue & Hfalse).
  - done.
  - rewrite Hstk. intros s Hs. by apply not_elem_of_empty in Hs.
  - apply HU. left.
  - assert (size (U ∖ visited st) <= size U)%nat
      by (apply subseteq_size; set_solver).
    lia.
  - rewrite Hr. destruct b.
    + exists false. split; [done|]. split; [done|]. intros _.
      destruct (Htrue eq_refl) as (c & Hc1 & Hc2).
      exists n, c. split; [left | done].
    + destruct (Hfalse eq_refl) as (Hstk1 & Hfin & Hinv1).
      apply Hrest; [done | congruence | done |].
      unfold finished in Hfin. set_solver.
Qed.

End Dfs.

Lemma tc_mono {A : Type} (R1 R2 : relation A) (x y : A) :
  (forall a b, R1 a b -> R2 a b) -> tc R1 x y -> tc R2 x y.
Proof.
  intros Hsub H. induction H as [x y H|x y z H _ IH].
  - apply tc_once. by apply Hsub.
  - eapply tc_l; [by apply Hsub | done].
Qed.

Lemma adjRel_edgeRel (edges : list Edge) (u v : string) :
  adjRel (buildAdjacency edges) u v <-> edgeRel edges u v.
Proof. apply neighborsOf_buildAdjacency. Qed.

Lemma dfsInv_initial (adjacency : gmap string (list string)) :
  dfsInv adjacency {| visited := ∅; recursionStack := ∅ |}.
Proof. split; intros u; unfold finished; cbn; set_solver. Qed.

Lemma isHierarchicalGraph_correct (nodes : list Node) (edges : list Edge) :
  exists b,
    isHierarchicalGraph nodes edges = Some b /\
    (b = true <-> edges <> [] /\ ~ reachableCycle nodes edges).
Proof.
  unfold isHierarchicalGraph.
  destruct edges as [|e0 edges'].
  { exists false. split; [done|]. split; [done | by intros [? _]]. }
  assert (Hne : e0 :: edges' <> []) by done.
  revert Hne. generalize (e0 :: edges'). intros edges Hne.
  set (adj := buildAdjacency edges).
  destruct (checkNodes_spec adj (universe nodes edges)) with
    (fuel := S (size (universe nodes edges))) (nodes := nodes)
    (st := {| visited := ∅; recursionStack := ∅ |})
    as (b & Hr & Htrue & Hfalse).
  - intros u v Huv. apply adjRel_edgeRel in Huv as (e & He & _ & <-).
    unfold universe. apply elem_of_union_r, elem_of_list_to_set.
    apply list_elem_of_fmap. by exists e.
  - apply dfsInv_initial.
  - done.
  - intros n Hn. unfold universe. apply elem_of_union_l, elem_of_list_to_set.
    apply list_elem_of_fmap. by exists n.
  - lia.
  - exists b. split; [done|]. destruct b.
    + split; [|done]. intros _.
      destruct (Htrue eq_refl) as (st' & Hinv & Hstk & _ & Hall).
      split; [done|]. intros (n & c & Hn & Hreach & Hcyc).
      assert (Hfin : node_id n ∈ finished st').
      { unfold finished. rewrite Hstk. specialize (Hall n Hn). set_solver. }
      assert (Hc : c ∈ finished st').
      { apply (closed_rtc adj st' (node_id n)); [done..|].
        eapply rtc_subrel; [|exact Hreach]. intros a b'. apply adjRel_edgeRel. }
      apply (proj2 Hinv c Hc).
      eapply tc_mono; [|exact Hcyc]. intros a b'. apply adjRel_edgeRel.
    + split; [done|]. intros [_ Hno]. exfalso. apply Hno.
      destruct (Hfalse eq_refl) as (n & c & Hn & Hreach & Hcyc).
      exists n, c. split; [done|]. split.
      * eapply rtc_subrel; [|exact Hreach]. intros a b'. apply adjRel_edgeRel.
      * eapply tc_mono; [|exact Hcyc]. intros a b'. apply adjRel_edgeRel.
Qed.

(** When every edge joins existing nodes, a cycle anywhere in the graph is
    a cycle some node reaches. *)
Lemma reachableCycle_any (nodes : list Node) (edges : list Edge) :
  edgesReferenceNodes nodes edges ->
  reachableCycle nodes edges <-> exists c, tc (edgeRel edges) c c.
Proof.
  intros Href. split.
  - intros (n & c & _ & _ & Hc). by exists c.
  - intros (c & Hc).
    destruct (tc_first_step _ _ _ Hc) as (y & (e & He & Hs & _) & _).
    destruct (Href e He) as [(n & Hn & Hid) _].
    exists n, c. split; [done|]. split; [|done].
    rewrite Hid, Hs. constructor.
Qed.

End StructureFacts.

(** ** Theorems: breadth-first levels *)

Module LevelFacts.
Import Layout GraphSpec StructureFacts.

Section Bfs.

Variable adjacency : gmap string (list string).
Variable R : gset string.
Variable T : gset string.

Local Abbreviation E := (adjRel adjacency).

Local Abbreviation bfsMeasure := (GraphSpec.bfsMeasure T).
Local Abbreviation bfsInv := (GraphSpec.bfsInv adjacency R).
Local Abbreviation bfsFinal := (GraphSpec.bfsFinal adjacency R).

Hypothesis targets_in_T : forall u v, E u v -> v ∈ T.

(** The children loop: what it adds to the map and to the queue. *)
Lemma visitChildren_spec (level : nat) (children : list string) (st : BfsState) :
  let st' := foldl (visitChild level) st children in
  exists added,
    queue st' = queue st ++ added /\
    (forall v l, levels st !! v = Some l -> levels st' !! v = Some l) /\
    (forall v l, levels st' !! v = Some l ->
       levels st !! v = Some l \/
       (levels st !! v = None /\ l = S level /\ v ∈ children /\ (v, l) ∈ added)) /\
    (forall w, w ∈ children -> is_Some (levels st' !! w)) /\
    (forall v l, (v, l) ∈ added ->
       levels st !! v = None /\ l = S level /\ levels st' !! v = Some l).
Proof.
  cbv zeta. revert st. induction children as [|c children IH]; intros st;
    cbn [foldl].
  { exists []. rewrite app_nil_r. repeat split; try done.
    - auto.
    - intros w Hw. by apply elem_of_nil in Hw.
    - by apply elem_of_nil in H.
    - by apply elem_of_nil in H.
    - by apply elem_of_nil in H. }
  destruct (IH (visitChild level st c))
    as (added & Hq & Hkeep & Hnew & Hall & Hadded).
  destruct (levels st !! c) as [lc|] eqn:Hc.
  - assert (Hvc : visitChild level st c = st)
      by (unfold visitChild; by rewrite Hc).
    rewrite Hvc in *.
    exists added. split; [done|]. split; [done|]. split; [|split; [|done]].
    + intros v l Hv. destruct (Hnew v l Hv) as [?|(? & ? & ? & ?)]; [by left|].
      right. repeat split; try done. by right.
    + intros w Hw. apply elem_of_cons in Hw as [->|Hw]; [|by apply Hall].
      exists lc. by apply Hkeep.
  - assert (Hvc : visitChild level st c =
        {| levels := <[c:=S level]> (levels st);
           queue := queue st ++ [(c, S level)] |})
      by (unfold visitChild; by rewrite Hc).
    rewrite Hvc in *. cbn [levels queue] in *.
    exists ((c, S level) :: added).
    split; [by rewrite Hq, <- app_assoc|].
    assert (Hc' : levels (foldl (visitChild level)
        {| levels := <[c:=S level]> (levels st);
           queue := queue st ++ [(c, S level)] |} children) !! c
        = Some (S level)).
    { apply Hkeep. apply lookup_insert_eq. }
    split; [|split; [|split]].
    + intros v l Hv. apply Hkeep. rewrite lookup_insert_ne; [done|].
      intros <-. congruence.
    + intros v l Hv. destruct (decide (v = c)) as [->|Hne].
      * right. assert (l = S level) as -> by congruence.
        repeat split; try done; by left.
      * destruct (Hnew v l Hv) as [Hold|(Hold & ? & ? & ?)];
          rewrite lookup_insert_ne in Hold by done; [by left|].
        right. repeat split; try done; by right.
    + intros w Hw. apply elem_of_cons in Hw as [->|Hw]; [by eexists|].
      by apply Hall.
    + intros v l Hv. apply elem_of_cons in Hv as [[= -> ->]|Hv]; [done|].
      destruct (Hadded v l Hv) as (Hold & ? & ?).
      destruct (decide (v = c)) as [->|Hne];
        [by rewrite lookup_insert_eq in Hold|].
      by rewrite lookup_insert_ne in Hold.
Qed.

Lemma visitChild_measure (level : nat) (st : BfsState) (c : string) :
  c ∈ T -> bfsMeasure (visitChild level st c) = bfsMeasure st.
Proof.
  intros Hc. unfold visitChild, GraphSpec.bfsMeasure.
  destruct (levels st !! c) eqn:Hl; [done|]. cbn [levels queue].
  rewrite length_app, dom_insert_L. cbn [length].
  assert (Hnot : c ∉ dom (levels st)) by by apply not_elem_of_dom.
  assert (Heq : T ∖ dom (levels st) = {[c]} ∪ T ∖ ({[c]} ∪ dom (levels st))).
  { apply set_eq. intros x. rewrite elem_of_union, !elem_of_difference,
      elem_of_union, elem_of_singleton.
    destruct (decide (x = c)); naive_solver. }
  assert (Hsz : size ({[c]} ∪ T ∖ ({[c]} ∪ dom (levels st)))
                = S (size (T ∖ ({[c]} ∪ dom (levels st))))).
  { rewrite size_union by set_solver. by rewrite size_singleton. }
  rewrite Heq, Hsz. lia.
Qed.

Lemma visitChildren_measure (level : nat) (children : list string) (st : BfsState) :
  (forall c, c ∈ children -> c ∈ T) ->
  bfsMeasure (foldl (visitChild level) st children) = bfsMeasure st.
Proof.
  revert st. induction children as [|c children IH]; intros st Hin; [done|].
  cbn [foldl]. rewrite IH by (intros; apply Hin; by right).
  apply visitChild_measure. apply Hin. left.
Qed.

(** One iteration of the [while] loop keeps the invariant. *)
Lemma bfsInv_step (lv : gmap string nat) (u : string) (k : nat)
    (rest : list (string * nat)) :
  bfsInv {| levels := lv; queue := (u, k) :: rest |} ->
  bfsInv (foldl (visitChild k) {| levels := lv; queue := rest |}
            (neighborsOf adjacency u)).
Proof.
  intros [Hq Hfront Hedges Hparent Hroots]. cbn [levels queue] in *.
  destruct (visitChildren_spec k (neighborsOf adjacency u)
              {| levels := lv; queue := rest |})
    as (added & Hq' & Hkeep & Hnew & Hall & Hadded).
  cbn [levels queue] in *.
  set (st' := foldl (visitChild k) {| levels := lv; queue := rest |}
                (neighborsOf adjacency u)) in *.
  assert (Hu : lv !! u = Some k) by (apply Hq; left).
  assert (Hbound : forall v l, lv !! v = Some l -> (l <= S k)%nat).
  { destruct Hfront as (k0 & A & B & HAB & HA & HB & Hb).
    intros v l Hv. specialize (Hb v l Hv).
    destruct A as [|a A]; cbn in HAB.
    - assert (k = S k0) by (apply (HB u); rewrite <- HAB; left). lia.
    - injection HAB as <- _. assert (k = k0) by (apply (HA u); left). lia. }
  split.
  - intros v l. rewrite Hq', elem_of_app. intros [Hv|Hv].
    + apply Hkeep, Hq. by right.
    + by apply Hadded.
  - destruct Hfront as (k0 & A & B & HAB & HA & HB & Hb).
    assert (Hb' : forall v l, levels st' !! v = Some l -> (l <= S k)%nat).
    { intros v l Hv. destruct (Hnew v l Hv) as [Hold|(_ & -> & _)]; [|lia].
      by apply (Hbound v). }
    destruct A as [|a A]; cbn in HAB.
    + exists k, rest, added. split; [done|]. split; [|split; [|done]].
      * intros v l Hv. assert (k = S k0) by (apply (HB u); rewrite <- HAB; left).
        assert (l = S k0) by (apply (HB v); rewrite <- HAB; by right). lia.
      * intros v l Hv. by destruct (Hadded v l Hv) as (_ & -> & _).
    + injection HAB as <- Hrest. assert (k = k0) as <- by (apply (HA u); left).
      exists k, A, (B ++ added). split; [by rewrite Hq', Hrest, app_assoc|].
      split; [|split; [|done]].
      * intros v l Hv. apply (HA v). by right.
      * intros v l. rewrite elem_of_app. intros [Hv|Hv]; [by apply (HB v)|].
        by destruct (Hadded v l Hv) as (_ & -> & _).
  - intros x lx w Hx Hnp Hxw.
    assert (Hxold : lv !! x = Some lx).
    { destruct (Hnew x lx Hx) as [?|(_ & _ & _ & Hin)]; [done|].
      exfalso. apply Hnp. exists lx. rewrite Hq'. apply elem_of_app. by right. }
    destruct (decide (x = u)) as [->|Hne].
    + assert (lx = k) as -> by congruence.
      destruct (Hall w Hxw) as [lw Hw]. exists lw. split; [done|].
      destruct (Hnew w lw Hw) as [Hold|(_ & -> & _)]; [|lia].
      by apply (Hbound w).
    + destruct (Hedges x lx w Hxold) as (lw & Hw & Hle); [|done|].
      * intros [l Hl]. apply Hnp. exists l.
        apply elem_of_cons in Hl as [[= ? ?]|Hl]; [done|].
        rewrite Hq'. apply elem_of_app. by left.
      * exists lw. split; [by apply Hkeep | done].
  - intros v l Hv. destruct (Hnew v (S l) Hv) as [Hold|(_ & [= ->] & Hin & _)].
    + destruct (Hparent v l Hold) as (p & Hp & Hlp).
      exists p. split; [done | by apply Hkeep].
    + exists u. split; [done | by apply Hkeep].
  - intros v. rewrite <- Hroots. split.
    + intros Hv. by destruct (Hnew v O Hv) as [?|(_ & ? & _)].
    + apply Hkeep.
Qed.

(** The loop terminates within the measure and ends in a final map. *)
Lemma bfsLoop_spec (fuel : nat) (st : BfsState) :
  bfsInv st -> (bfsMeasure st <= fuel)%nat ->
  exists lv, bfsLoop fuel adjacency st = Some lv /\ bfsFinal lv.
Proof.
  revert st. induction fuel as [|fuel IH]; intros [lv q] Hinv Hm.
  - unfold GraphSpec.bfsMeasure in Hm. cbn [queue] in Hm.
    destruct q as [|x q]; [|cbn in Hm; lia].
    exists lv. split; [done|]. destruct Hinv as [_ _ He Hp Hr]. cbn in *.
    split; [|done..]. intros u lu w Hu. apply He; [done|].
    intros [l Hl]. by apply elem_of_nil in Hl.
  - destruct q as [|[u k] rest].
    + exists lv. split; [done|]. destruct Hinv as [_ _ He Hp Hr]. cbn in *.
      split; [|done..]. intros u lu w Hu. apply He; [done|].
      intros [l Hl]. by apply elem_of_nil in Hl.
    + cbn [bfsLoop queue levels]. apply IH; [by apply bfsInv_step|].
      rewrite visitChildren_measure by (intros c Hc; by apply (targets_in_T u)).
      unfold GraphSpec.bfsMeasure in *. cbn [queue levels length] in *. lia.
Qed.

(** Levels of a final map are breadth-first distances from the roots. *)
Lemma bfsFinal_path (lv : gmap string nat) (v : string) (d : nat) :
  bfsFinal lv -> lv !! v = Some d -> exists r, r ∈ R /\ nsteps E d r v.
Proof.
  intros [_ Hp Hr]. revert v. induction d as [|d IH]; intros v Hv.
  - exists v. split; [by apply Hr | constructor].
  - destruct (Hp v d Hv) as (u & Huv & Hu).
    destruct (IH u Hu) as (r & Hroot & Hpath).
    exists r. split; [done|]. by eapply nsteps_r.
Qed.

Lemma bfsFinal_shortest (lv : gmap string nat) (r v : string) (n : nat) :
  bfsFinal lv -> r ∈ R -> nsteps E n r v ->
  exists d, lv !! v = Some d /\ (d <= n)%nat.
Proof.
  intros [He _ Hr] Hroot. revert v. induction n as [|n IH]; intros v Hpath.
  - inversion Hpath; subst. exists O. split; [by apply Hr | done].
  - apply nsteps_inv_r in Hpath as (u & Hpath & Huv).
    destruct (IH u Hpath) as (du & Hu & Hle).
    destruct (He u du v Hu Huv) as (dv & Hv & Hle').
    exists dv. split; [done | lia].
Qed.

End Bfs.

Lemma seedRoots_spec (roots : list Node) (st : BfsState) :
  let st' := foldl seedRoot st roots in
  queue st' = queue st ++ ((fun r => (node_id r, O)) <$> roots) /\
  forall v, levels st' !! v =
    if decide (v ∈ node_id <$> roots) then Some O else levels st !! v.
Proof.
  cbv zeta. revert st. induction roots as [|r roots IH]; intros st; cbn [foldl].
  { rewrite app_nil_r. split; [done|]. intros v.
    rewrite decide_False; [done|]. cbn. apply not_elem_of_nil. }
  destruct (IH (seedRoot st r)) as [Hq Hl]. split.
  - rewrite Hq. cbn. by rewrite <- app_assoc.
  - intros v. rewrite Hl. cbn [fmap list_fmap seedRoot levels].
    destruct (decide (v ∈ node_id <$> roots)) as [Hin|Hnin].
    + rewrite decide_True; [done|]. by right.
    + destruct (decide (v = node_id r)) as [->|Hne].
      * rewrite lookup_insert_eq. rewrite decide_True; [done|]. left.
      * rewrite lookup_insert_ne by done. rewrite decide_False; [done|].
        intros Hin. apply elem_of_cons in Hin as [?|?]; done.
Qed.

Lemma size_list_to_set_le (l : list string) :
  (size (list_to_set l : gset string) <= length l)%nat.
Proof.
  induction l as [|x l IH]; cbn [list_to_set length].
  - by rewrite size_empty.
  - rewrite size_union_alt, size_singleton.
    assert (size (list_to_set l ∖ {[x]} : gset string)
            <= size (list_to_set l : gset string))%nat
      by (apply subseteq_size; set_solver).
    lia.
Qed.

Lemma length_filter_le {A : Type} (f : A -> bool) (l : list A) :
  (length (List.filter f l) <= length l)%nat.
Proof.
  induction l as [|x l IH]; cbn; [done|]. destruct (f x); cbn; lia.
Qed.

Lemma length_rootNodes (nodes : list Node) (edges : list Edge) :
  (length (rootNodes nodes edges) <= length nodes)%nat.
Proof.
  unfold rootNodes.
  pose proof (length_filter_le
    (fun node => bool_decide (node_id node ∉ incomingEdges edges)) nodes) as H.
  destruct (List.filter _ nodes); [|done].
  destruct nodes; cbn; lia.
Qed.

(** Seeding the roots establishes the loop invariant. *)
Lemma bfsInv_seeded (adjacency : gmap string (list string)) (roots : list Node) :
  bfsInv adjacency (list_to_set (node_id <$> roots))
    (foldl seedRoot {| levels := ∅; queue := [] |} roots).
Proof.
  destruct (seedRoots_spec roots {| levels := ∅; queue := [] |}) as [Hq Hl].
  cbn [queue levels app] in *.
  assert (Hlv : forall v l,
    levels (foldl seedRoot {| levels := ∅; queue := [] |} roots) !! v = Some l ->
    l = O /\ v ∈ node_id <$> roots).
  { intros v l. rewrite Hl. case_decide; [naive_solver|].
    by rewrite lookup_empty. }
  assert (Hin : forall v,
    v ∈ node_id <$> roots ->
    (v, O) ∈ queue (foldl seedRoot {| levels := ∅; queue := [] |} roots)).
  { intros v Hv. rewrite Hq. apply list_elem_of_fmap in Hv as (r & -> & Hr).
    apply list_elem_of_fmap. by exists r. }
  split.
  - intros v l. rewrite Hq. intros Hv.
    apply list_elem_of_fmap in Hv as (r & [= -> ->] & Hr).
    rewrite Hl. rewrite decide_True; [done|].
    apply list_elem_of_fmap. by exists r.
  - exists O, (queue (foldl seedRoot {| levels := ∅; queue := [] |} roots)), [].
    rewrite app_nil_r. split; [done|]. split; [|split].
    + intros v l. rewrite Hq. intros Hv.
      by apply list_elem_of_fmap in Hv as (r & [= -> ->] & Hr).
    + intros v l Hv. by apply elem_of_nil in Hv.
    + intros v l Hv. destruct (Hlv v l Hv) as [-> _]. lia.
  - intros u lu w Hu Hnp. exfalso. apply Hnp.
    destruct (Hlv u lu Hu) as [-> Hr]. exists O. by apply Hin.
  - intros v l Hv. by destruct (Hlv v (S l) Hv).
  - intros v. rewrite elem_of_list_to_set, Hl. case_decide; naive_solver.
Qed.

(** Level assignment terminates within its iteration bound and ends in a
    final map for the root set. *)
Lemma assignLevels_final (nodes : list Node) (edges : list Edge) :
  exists lv,
    assignLevels nodes edges = Some lv /\
    bfsFinal (buildAdjacency edges) (rootIds nodes edges) lv.
Proof.
  unfold assignLevels, rootIds.
  apply (bfsLoop_spec _ _ (list_to_set (target <$> edges))).
  - intros u v Huv. apply adjRel_edgeRel in Huv as (e & He & _ & <-).
    apply elem_of_list_to_set, list_elem_of_fmap. by exists e.
  - apply bfsInv_seeded.
  - unfold bfsMeasure.
    destruct (seedRoots_spec (rootNodes nodes edges)
                {| levels := ∅; queue := [] |}) as [Hq _].
    cbn [queue app] in Hq. rewrite Hq, length_fmap.
    pose proof (length_rootNodes nodes edges).
    pose proof (size_list_to_set_le (target <$> edges)) as Hs.
    rewrite length_fmap in Hs.
    match goal with
    | |- (_ + size (?X ∖ ?Y) <= _)%nat =>
        assert (size (X ∖ Y) <= size X)%nat by (apply subseteq_size; set_solver)
    end.
    lia.
Qed.

Lemma nsteps_mono {A : Type} (R1 R2 : relation A) (n : nat) (x y : A) :
  (forall a b, R1 a b -> R2 a b) -> nsteps R1 n x y -> nsteps R2 n x y.
Proof.
  intros Hsub H. induction H as [|n x y z H _ IH]; [constructor|].
  econstructor; [by apply Hsub | done].
Qed.

(** Levels are shortest path lengths from the root set; nodes no root
    reaches have no level. *)
Lemma assignLevels_distance (nodes : list Node) (edges : list Edge) :
  exists lv,
    assignLevels nodes edges = Some lv /\
    (forall r, r ∈ rootIds nodes edges -> lv !! r = Some O) /\
    (forall v d, lv !! v = Some d <->
       (exists r, r ∈ rootIds nodes edges /\ nsteps (edgeRel edges) d r v) /\
       (forall r n, r ∈ rootIds nodes edges ->
          nsteps (edgeRel edges) n r v -> (d <= n)%nat)) /\
    (forall v, lv !! v = None <->
       forall r, r ∈ rootIds nodes edges -> ~ rtc (edgeRel edges) r v).
Proof.
  destruct (assignLevels_final nodes edges) as (lv & Hlv & Hfin).
  exists lv. split; [done|].
  assert (Hpath : forall v d, lv !! v = Some d ->
    exists r, r ∈ rootIds nodes edges /\ nsteps (edgeRel edges) d r v).
  { intros v d Hv.
    destruct (bfsFinal_path _ _ lv v d Hfin Hv) as (r & Hr & Hp).
    exists r. split; [done|]. eapply nsteps_mono; [|exact Hp].
    intros a b. apply adjRel_edgeRel. }
  assert (Hshort : forall r v n, r ∈ rootIds nodes edges ->
    nsteps (edgeRel edges) n r v -> exists d, lv !! v = Some d /\ (d <= n)%nat).
  { intros r v n Hr Hp. apply (bfsFinal_shortest _ _ lv r v n Hfin Hr).
    eapply nsteps_mono; [|exact Hp]. intros a b. apply adjRel_edgeRel. }
  split; [|split].
  - intros r Hr. by apply (fin_roots _ _ _ Hfin).
  - intros v d. split.
    + intros Hv. split; [by apply Hpath|].
      intros r n Hr Hp. destruct (Hshort r v n Hr Hp) as (d' & Hd' & Hle).
      congruence.
    + intros [(r & Hr & Hp) Hmin].
      destruct (Hshort r v d Hr Hp) as (d' & Hd' & Hle).
      destruct (Hpath v d' Hd') as (r' & Hr' & Hp').
      specialize (Hmin r' d' Hr' Hp').
      assert (d' = d) as -> by lia. done.
  - intros v. split.
    + intros Hnone r Hr Hreach. apply rtc_nsteps in Hreach as (n & Hp).
      destruct (Hshort r v n Hr Hp) as (d & Hd & _). congruence.
    + intros Hun. destruct (lv !! v) as [d|] eqn:Hv; [|done].
      destruct (Hpath v d Hv) as (r & Hr & Hp).
      exfalso. apply (Hun r Hr). by eapply rtc_nsteps_2.
Qed.

End LevelFacts.

(** ** Theorems: grouping by level and placement *)

Module PlacementFacts.
Import Layout GraphSpec StructureFacts LevelFacts.

Lemma filter_none {A : Type} (f : A -> bool) (xs : list A) :
  (forall x, x ∈ xs -> f x = false) -> List.filter f xs = [].
Proof.
  induction xs as [|x xs IH]; intros H; cbn; [done|].
  rewrite (H x) by left. apply IH. intros y Hy. apply H. by right.
Qed.

Section Grouping.

Context {A : Type}.
Variable level : A -> nat.

Local Abbreviation onLevel := (GraphSpec.onLevel level).

Lemma onLevel_snoc (l : nat) (xs : list A) (x : A) :
  onLevel l (xs ++ [x]) =
  onLevel l xs ++ (if Nat.eqb (level x) l then [x] else []).
Proof. unfold GraphSpec.onLevel. rewrite List.filter_app. cbn. by destruct (level x =? l)%nat. Qed.

Lemma groupPush_keys (l : nat) (x : A) (groups : list (nat * list A)) :
  (fst <$> groupPush l x groups) =
  (if decide (l ∈ fst <$> groups) then fst <$> groups else (fst <$> groups) ++ [l]).
Proof.
  induction groups as [|[l' ys] groups IH]; cbn [groupPush].
  { rewrite decide_False; [done | apply not_elem_of_nil]. }
  destruct (Nat.eqb_spec l' l) as [->|Hne]; cbn [fmap list_fmap fst].
  - rewrite decide_True; [done | left].
  - rewrite IH. destruct (decide (l ∈ groups.*1)) as [Hin|Hnin].
    + rewrite decide_True; [done | by right].
    + rewrite decide_False; [done|].
      intros Hin. apply elem_of_cons in Hin as [?|?]; by auto.
Qed.

Lemma groupPush_elem (l : nat) (x : A) (groups : list (nat * list A))
    (l' : nat) (ys' : list A) :
  NoDup (fst <$> groups) ->
  (l', ys') ∈ groupPush l x groups ->
  (l' <> l /\ (l', ys') ∈ groups) \/
  (l' = l /\ exists ys, (l, ys) ∈ groups /\ ys' = ys ++ [x]) \/
  (l' = l /\ (l ∉ fst <$> groups) /\ ys' = [x]).
Proof.
  induction groups as [|[k ys] groups IH]; cbn [groupPush]; intros Hnd Hin.
  { apply list_elem_of_singleton in Hin as [= -> ->].
    right. right. repeat split. apply not_elem_of_nil. }
  cbn in Hnd. apply NoDup_cons in Hnd as [Hk Hnd].
  destruct (Nat.eqb_spec k l) as [->|Hne].
  - apply elem_of_cons in Hin as [[= -> ->]|Hin].
    + right. left. split; [done|]. exists ys. split; [left | done].
    + left. split; [|by right]. intros ->. apply Hk.
      apply list_elem_of_fmap. by exists (l, ys').
  - apply elem_of_cons in Hin as [[= -> ->]|Hin].
    + left. split; [done | left].
    + destruct (IH Hnd Hin) as [[? ?]|[(? & ys0 & ? & ?)|(? & ? & ?)]].
      * left. split; [done | by right].
      * right. left. split; [done|]. exists ys0. split; [by right | done].
      * right. right. split; [done|]. split; [|done].
        intros Hin'. apply elem_of_cons in Hin' as [?|?]; by auto.
Qed.

(** The groups are the non-empty levels, each holding its elements in
    input order. *)
Lemma groupByLevel_spec (xs : list A) :
  NoDup (fst <$> groupByLevel level xs) /\
  (forall l ys, (l, ys) ∈ groupByLevel level xs -> ys = onLevel l xs) /\
  (forall x, x ∈ xs -> level x ∈ (fst <$> groupByLevel level xs)).
Proof.
  unfold groupByLevel.
  induction xs as [|x xs IH] using rev_ind.
  { cbn. split; [constructor|]. split.
    - intros l ys H. by apply elem_of_nil in H.
    - intros x H. by apply elem_of_nil in H. }
  destruct IH as (Hnd & Hgroups & Hkeys).
  rewrite foldl_snoc.
  set (groups := foldl (fun groups x => groupPush (level x) x groups) [] xs) in *.
  split; [|split].
  - rewrite groupPush_keys. case_decide; [done|].
    apply NoDup_app. split; [done|]. split; [|apply NoDup_singleton].
    intros k Hk Hk'. apply list_elem_of_singleton in Hk' as ->. done.
  - intros l ys Hin. rewrite onLevel_snoc.
    destruct (groupPush_elem _ _ _ _ _ Hnd Hin)
      as [[Hne Hold]|[(-> & ys0 & Hold & ->)|(-> & Hnew & ->)]].
    + rewrite (Hgroups l ys Hold).
      destruct (Nat.eqb_spec (level x) l); [congruence|]. by rewrite app_nil_r.
    + rewrite (Hgroups _ ys0 Hold). by rewrite Nat.eqb_refl.
    + rewrite Nat.eqb_refl.
      assert (Hnone : onLevel (level x) xs = []).
      { apply filter_none. intros y Hy.
        destruct (Nat.eqb_spec (level y) (level x)) as [Heq|]; [|done].
        exfalso. apply Hnew. rewrite <- Heq. by apply Hkeys. }
      by rewrite Hnone.
  - intros y Hy. rewrite groupPush_keys.
    apply elem_of_app in Hy as [Hy|Hy].
    + case_decide; [by apply Hkeys|]. apply elem_of_app. left. by apply Hkeys.
    + apply list_elem_of_singleton in Hy as ->.
      case_decide; [done|]. apply elem_of_app. right. left.
Qed.

(** Pushing an element adds it to the members of the groups. *)
Lemma groupPush_concat (l : nat) (x : A) (groups : list (nat * list A)) :
  concat (snd <$> groupPush l x groups) ≡ₚ x :: concat (snd <$> groups).
Proof.
  induction groups as [|[k ys] groups IH]; cbn [groupPush].
  { cbn. done. }
  destruct (Nat.eqb k l); cbn [fmap list_fmap snd concat].
  - rewrite <- app_assoc. cbn.
    symmetry. rewrite app_comm_cons. apply Permutation_middle.
  - rewrite IH. symmetry. apply Permutation_middle.
Qed.

(** Grouping loses and duplicates nothing. *)
Lemma groupByLevel_concat (xs : list A) :
  concat (snd <$> groupByLevel level xs) ≡ₚ xs.
Proof.
  unfold groupByLevel. induction xs as [|x xs IH] using rev_ind; [done|].
  rewrite foldl_snoc, groupPush_concat, IH.
  apply Permutation_cons_append.
Qed.

End Grouping.

Lemma filter_lookup_index {A : Type} (f : A -> bool) (xs : list A)
    (i : nat) (x : A) :
  xs !! i = Some x -> f x = true ->
  List.filter f xs !! length (List.filter f (take i xs)) = Some x.
Proof.
  intros Hi Hf.
  assert (Hsplit : List.filter f xs =
    List.filter f (take i xs) ++ x :: List.filter f (drop (S i) xs)).
  { transitivity (List.filter f (take i xs ++ x :: drop (S i) xs)).
    - by rewrite (take_drop_middle xs i x Hi).
    - rewrite List.filter_app. cbn [List.filter]. by rewrite Hf. }
  rewrite Hsplit. by rewrite lookup_app_r, Nat.sub_diag.
Qed.

Lemma filter_lookup_inv {A : Type} (f : A -> bool) (xs : list A)
    (k : nat) (x : A) :
  List.filter f xs !! k = Some x ->
  exists i, xs !! i = Some x /\ f x = true /\
            k = length (List.filter f (take i xs)).
Proof.
  revert k. induction xs as [|y ys IH]; intros k; cbn [List.filter]; [done|].
  destruct (f y) eqn:Hy.
  - destruct k as [|k]; cbn.
    + intros [= ->]. by exists O.
    + intros Hk. destruct (IH k Hk) as (i & Hi & Hf & ->).
      exists (S i). cbn. by rewrite Hy.
  - intros Hk. destruct (IH k Hk) as (i & Hi & Hf & ->).
    exists (S i). cbn. by rewrite Hy.
Qed.

(** Membership in the placed output. *)
Lemma elem_of_placeAll (opts : Options) (groups : list (nat * list Node))
    (m : Node) :
  m ∈ placeAll opts groups <->
  exists l ys k n, (l, ys) ∈ groups /\ ys !! k = Some n /\
    m = withPosition n (slotPosition opts l (length ys) k).
Proof.
  unfold placeAll. rewrite list_elem_of_In, in_flat_map. split.
  - intros ([l ys] & Hg & Hm). apply list_elem_of_In in Hg, Hm.
    cbn [fst snd] in Hm. unfold placeLevel in Hm.
    apply elem_of_lookup_imap in Hm as (k & n & -> & Hk).
    by exists l, ys, k, n.
  - intros (l & ys & k & n & Hg & Hk & ->). exists (l, ys).
    split; [by apply list_elem_of_In|]. apply list_elem_of_In.
    cbn [fst snd]. unfold placeLevel.
    by apply (elem_of_lookup_imap_2
      (fun index node => withPosition node (slotPosition opts l (length ys) index))).
Qed.

Lemma length_placeAll (opts : Options) (groups : list (nat * list Node)) :
  length (placeAll opts groups) = length (concat (snd <$> groups)).
Proof.
  unfold placeAll. induction groups as [|[l ys] groups IH]; [done|].
  cbn [flat_map fmap list_fmap concat fst snd].
  rewrite !length_app, IH. unfold placeLevel. by rewrite length_imap.
Qed.

(** *** The hierarchical layout in terms of its input *)

Lemma hasIncoming_incomingEdges (edges : list Edge) (n : Node) :
  node_id n ∈ incomingEdges edges <-> hasIncoming edges n.
Proof.
  unfold incomingEdges, hasIncoming.
  rewrite elem_of_list_to_set, list_elem_of_fmap. naive_solver.
Qed.

Lemma rootNodes_spec (nodes : list Node) (edges : list Edge) :
  rootsSpec nodes edges.
Proof.
  unfold rootsSpec, rootNodes.
  set (isRoot := fun node => bool_decide (node_id node ∉ incomingEdges edges)).
  assert (Hfilter : forall n, n ∈ List.filter isRoot nodes <->
                              n ∈ nodes /\ ~ hasIncoming edges n).
  { intros n. rewrite list_elem_of_In, List.filter_In, <- list_elem_of_In.
    unfold isRoot. rewrite bool_decide_eq_true, hasIncoming_incomingEdges. done. }
  destruct (List.filter isRoot nodes) as [|r roots] eqn:Hroots.
  - right.
    assert (Hall : forall n, n ∈ nodes -> hasIncoming edges n).
    { intros n Hn. destruct (decide (node_id n ∈ incomingEdges edges)) as [H|H].
      - by apply hasIncoming_incomingEdges.
      - exfalso. assert (Hin : n ∈ []); [|by apply elem_of_nil in Hin].
        apply Hfilter. split; [done|]. by rewrite <- hasIncoming_incomingEdges. }
    split; [done|]. by destruct nodes.
  - left. split; [|done].
    exists r. apply Hfilter. left.
Qed.

Lemma levelIndex_lt_count (lv : gmap string nat) (nodes : list Node)
    (i : nat) (n : Node) :
  nodes !! i = Some n ->
  (levelIndex lv nodes i n < levelCount lv nodes n)%nat.
Proof.
  intros Hi. unfold levelIndex, levelCount, onLevel.
  rewrite <- (take_drop_middle nodes i n Hi) at 2.
  rewrite List.filter_app, length_app. cbn [List.filter].
  rewrite Nat.eqb_refl. cbn [length]. lia.
Qed.

Lemma levelIndex_mono (lv : gmap string nat) (nodes : list Node)
    (i j : nat) (n m : Node) :
  (i < j)%nat -> nodes !! i = Some n -> nodes !! j = Some m ->
  nodeLevel lv n = nodeLevel lv m ->
  (levelIndex lv nodes i n < levelIndex lv nodes j m)%nat.
Proof.
  intros Hij Hi Hj Hlevel. unfold levelIndex, onLevel. rewrite <- Hlevel.
  assert (Hi' : take j nodes !! i = Some n) by by rewrite lookup_take_lt.
  rewrite <- (take_drop_middle (take j nodes) i n Hi').
  rewrite take_take, Nat.min_l by lia.
  rewrite List.filter_app, length_app. cbn [List.filter].
  rewrite Nat.eqb_refl. cbn [length]. lia.
Qed.

(** Every input node appears in the output at its slot, and nothing else
    does. *)
Lemma placeAll_groupByLevel (opts : Options) (lv : gmap string nat)
    (nodes : list Node) :
  let out := placeAll opts (groupByLevel (nodeLevel lv) nodes) in
  (forall i n, nodes !! i = Some n ->
     placedNode (o_width opts) lv nodes i n ∈ out) /\
  (forall m, m ∈ out ->
     exists i n, nodes !! i = Some n /\
       m = placedNode (o_width opts) lv nodes i n) /\
  length out = length nodes.
Proof.
  cbv zeta.
  destruct (groupByLevel_spec (nodeLevel lv) nodes) as (_ & Hgroups & Hkeys).
  split; [|split].
  - intros i n Hi. apply elem_of_placeAll.
    assert (Hn : n ∈ nodes) by (apply list_elem_of_lookup; eauto).
    specialize (Hkeys n Hn).
    apply list_elem_of_fmap in Hkeys as ([l ys] & Hl & Hin). cbn in Hl. subst l.
    pose proof (Hgroups _ _ Hin) as ->.
    exists (nodeLevel lv n), (onLevel (nodeLevel lv) (nodeLevel lv n) nodes),
      (levelIndex lv nodes i n), n.
    split; [done|]. split; [|done].
    apply filter_lookup_index; [done | apply Nat.eqb_refl].
  - intros m Hm. apply elem_of_placeAll in Hm as (l & ys & k & n & Hin & Hk & ->).
    pose proof (Hgroups _ _ Hin) as ->.
    apply filter_lookup_inv in Hk as (i & Hi & Hl & ->).
    apply Nat.eqb_eq in Hl. subst l. by exists i, n.
  - rewrite length_placeAll. apply Permutation_length, groupByLevel_concat.
Qed.

Lemma ofNat_S (k : nat) : ofNat (S k) == ofNat k + 1.
Proof.
  unfold ofNat. rewrite Nat2Z.inj_succ, <- Z.add_1_r, inject_Z_plus. reflexivity.
Qed.

Lemma ofNat_lt (a b : nat) : (a < b)%nat -> ofNat a < ofNat b.
Proof. intros H. unfold ofNat. rewrite <- Zlt_Qlt. lia. Qed.

(** Slots of one level: a shared height of 250 per level, neighbours 300
    apart, the row centred on the canvas width. *)
Lemma slotPosition_geometry (opts : Options) (l c k : nat) :
  py (slotPosition opts l c k) == ofNat l * 250 /\
  px (slotPosition opts l c k) ==
    (o_width opts - (ofNat c - 1) * 300) / 2 + ofNat k * 300 /\
  px (slotPosition opts l c (S k)) - px (slotPosition opts l c k) == 300 /\
  px (slotPosition opts l (S c) O) + px (slotPosition opts l (S c) c)
    == o_width opts.
Proof.
  unfold slotPosition, levelHeight, nodeWidth. cbn [px py].
  split; [reflexivity|]. split; [reflexivity|]. split.
  - rewrite (ofNat_S k). field.
  - rewrite (ofNat_S c). change (ofNat 0) with 0. field.
Qed.

(** Two nodes of one level never share an x position. *)
Lemma placedNode_distinct_x (w : Q) (lv : gmap string nat)
    (nodes : list Node) (i j : nat) (n m : Node) :
  (i < j)%nat -> nodes !! i = Some n -> nodes !! j = Some m ->
  nodeLevel lv n = nodeLevel lv m ->
  px (position (placedNode w lv nodes i n))
    < px (position (placedNode w lv nodes j m)) /\
  px (position (placedNode w lv nodes j m))
    - px (position (placedNode w lv nodes i n))
    == (ofNat (levelIndex lv nodes j m) - ofNat (levelIndex lv nodes i n)) * 300.
Proof.
  intros Hij Hi Hj Hlevel.
  pose proof (levelIndex_mono lv nodes i j n m Hij Hi Hj Hlevel) as Hlt.
  apply ofNat_lt in Hlt.
  unfold placedNode, levelCount. fold (ofNat (levelIndex lv nodes i n)).
  fold (ofNat (levelIndex lv nodes j m)).
  cbn [position px]. rewrite Hlevel. split; lra.
Qed.

End PlacementFacts.

Module HierarchicalFacts.
Import Layout LayoutExamples GraphSpec ExampleFacts StructureFacts LevelFacts
  PlacementFacts.

(** C7 (hierarchical layout).  The roots are the nodes without incoming
    edge, or the first node when there is none.  Level assignment
    terminates; every root has level 0, a node's level is the length of a
    shortest path from a root, and a node no root reaches has no level and
    is laid out on level 0.  The output holds every input node once, with
    all its fields but the position, at y = level * 250 and at the slot
    given by its rank among the nodes of its level: slots are 300 apart
    and centred on the canvas width (1200 unless the options give one), so
    nodes sharing a level have distinct x positions.  For the chain
    A -> B -> C the levels are 0, 1 and 2, and the three nodes come back
    at (600, 0), (600, 250) and (600, 500). *)
Theorem applyHierarchicalLayout_levels_and_slots :
  (forall nodes edges options,
     let w := match opt_width options with Some w => w | None => 1200 end in
     rootsSpec nodes edges /\
     exists lv out,
       assignLevels nodes edges = Some lv /\
       applyHierarchicalLayout nodes edges options
         = Some {| res_nodes := out; res_edges := edges |} /\
       (forall r, r ∈ rootIds nodes edges -> lv !! r = Some O) /\
       (forall v d, lv !! v = Some d <->
          (exists r, r ∈ rootIds nodes edges /\ nsteps (edgeRel edges) d r v) /\
          (forall r n, r ∈ rootIds nodes edges ->
             nsteps (edgeRel edges) n r v -> (d <= n)%nat)) /\
       (forall v, (forall r, r ∈ rootIds nodes edges ->
                     ~ rtc (edgeRel edges) r v) ->
                  lv !! v = None) /\
       (forall i n, nodes !! i = Some n -> placedNode w lv nodes i n ∈ out) /\
       (forall m, m ∈ out ->
          exists i n, nodes !! i = Some n /\ m = placedNode w lv nodes i n) /\
       length out = length nodes /\
       (forall i n d, nodes !! i = Some n -> lv !! node_id n = Some d ->
          py (position (placedNode w lv nodes i n))
            == inject_Z (Z.of_nat d) * 250) /\
       (forall i n, nodes !! i = Some n -> lv !! node_id n = None ->
          py (position (placedNode w lv nodes i n)) == 0) /\
       (forall i j n m, (i < j)%nat ->
          nodes !! i = Some n -> nodes !! j = Some m ->
          nodeLevel lv n = nodeLevel lv m ->
          px (position (placedNode w lv nodes i n))
            < px (position (placedNode w lv nodes j m)) /\
          px (position (placedNode w lv nodes j m))
            - px (position (placedNode w lv nodes i n))
            == (inject_Z (Z.of_nat (levelIndex lv nodes j m))
                - inject_Z (Z.of_nat (levelIndex lv nodes i n))) * 300) /\
       (forall i j n m, nodes !! i = Some n -> nodes !! j = Some m ->
          nodeLevel lv n = nodeLevel lv m ->
          levelIndex lv nodes i n = O ->
          S (levelIndex lv nodes j m) = levelCount lv nodes m ->
          px (position (placedNode w lv nodes i n))
            + px (position (placedNode w lv nodes j m)) == w))
  /\
  (fun lv => (lv !! "A"%string, lv !! "B"%string, lv !! "C"%string)) <$>
    assignLevels [mkNode "A"; mkNode "B"; mkNode "C"] chain
  = Some (Some 0%nat, Some 1%nat, Some 2%nat)
  /\
  (fun r => (fun n => (node_id n, Qred (px (position n)),
                       Qred (py (position n)))) <$> res_nodes r) <$>
    applyHierarchicalLayout [mkNode "A"; mkNode "B"; mkNode "C"] chain
      noOptions
  = Some [("A"%string, 600, 0); ("B"%string, 600, 250);
          ("C"%string, 600, 500)].
Proof.
  split; [|split].
  - intros nodes edges options w. split; [apply rootNodes_spec|].
    destruct (assignLevels_distance nodes edges)
      as (lv & Hlv & Hroots & Hdist & Hnone).
    exists lv, (placeAll (withDefaults options)
                  (groupByLevel (fun node => levelOf lv (node_id node)) nodes)).
    split; [done|]. split; [unfold applyHierarchicalLayout; by rewrite Hlv|].
    split; [done|]. split; [done|].
    split; [intros v Hv; by apply Hnone|].
    destruct (placeAll_groupByLevel (withDefaults options) lv nodes)
      as (Hin & Hout & Hlen).
    change (o_width (withDefaults options)) with w in Hin, Hout.
    split; [exact Hin|]. split; [exact Hout|]. split; [exact Hlen|].
    split; [|split; [|split]].
    + intros i n d _ Hd. unfold placedNode, nodeLevel. cbn [position py].
      by rewrite Hd.
    + intros i n _ Hd. unfold placedNode, nodeLevel. cbn [position py].
      rewrite Hd. reflexivity.
    + intros i j n m Hij Hi Hj Hlevel.
      by apply placedNode_distinct_x.
    + intros i j n m Hi Hj Hlevel Hfirst Hlast.
      unfold placedNode. cbn [position px].
      assert (Hc : levelCount lv nodes n = levelCount lv nodes m)
        by (unfold levelCount; by rewrite Hlevel).
      rewrite Hc, Hfirst, <- Hlast.
      fold (ofNat (S (levelIndex lv nodes j m))).
      fold (ofNat (levelIndex lv nodes j m)).
      rewrite ofNat_S. change (inject_Z (Z.of_nat 0)) with 0. field.
  - apply chain_levels.
  - vm_compute. reflexivity.
Qed.

End HierarchicalFacts.

(** ** Theorems: structure test and automatic layout *)

Module DispatchFacts.
Import Layout LayoutExamples GraphSpec ExampleFacts StructureFacts.

(** C6 (hierarchy test).  [isHierarchicalGraph] always returns; it answers
    false for an empty edge list, and otherwise true exactly when no node
    reaches a directed cycle.  The triangle A -> B -> C -> A is reported
    cyclic, the tree A -> B, A -> C, B -> D acyclic. *)
Theorem isHierarchicalGraph_iff_no_reachable_cycle :
  (forall nodes edges,
     exists b,
       isHierarchicalGraph nodes edges = Some b /\
       (b = true <-> edges <> [] /\ ~ reachableCycle nodes edges))
  /\
  isHierarchicalGraph [mkNode "A"; mkNode "B"; mkNode "C"] triangle = Some false
  /\
  isHierarchicalGraph [mkNode "A"; mkNode "B"; mkNode "C"; mkNode "D"] tree
    = Some true.
Proof.
  split; [apply isHierarchicalGraph_correct|].
  split; [apply triangle_is_cyclic | apply tree_is_acyclic].
Qed.

(** With every edge between existing nodes, "no node reaches a cycle" is
    "the graph has no cycle". *)
Corollary isHierarchicalGraph_closed_graph (nodes : list Node) (edges : list Edge) :
  edgesReferenceNodes nodes edges ->
  exists b,
    isHierarchicalGraph nodes edges = Some b /\
    (b = true <-> edges <> [] /\ ~ exists c, tc (edgeRel edges) c c).
Proof.
  intros Href. destruct (isHierarchicalGraph_correct nodes edges) as (b & Hb & Hiff).
  exists b. split; [done|]. by rewrite <- (reachableCycle_any nodes edges Href).
Qed.

(** C5 (automatic layout).  No node: nodes and edges come back unchanged.
    One node: it comes back with all its fields but the position, which is
    (width/2, height/2) of the options, 1200 and 800 where they give none.
    Two or more nodes: the hierarchy test returns, and the result is that
    of the hierarchical layout when the test holds and that of the
    force-directed layout otherwise. *)
Theorem applyAutoLayout_dispatch (d3 : D3Force) (edges : list Edge)
    (options : LayoutOptions) :
  applyAutoLayout d3 [] edges options
    = Some {| res_nodes := []; res_edges := edges |}
  /\
  (forall node,
     applyAutoLayout d3 [node] edges options
     = Some {| res_nodes :=
                 [{| node_id := node_id node; node_label := node_label node;
                     node_markup := node_markup node;
                     position :=
                       {| px := match opt_width options with
                                | Some w => w
                                | None => 1200
                                end / 2;
                          py := match opt_height options with
                                | Some h => h
                                | None => 800
                                end / 2 |};
                     node_size := node_size node |}];
               res_edges := edges |})
  /\
  (forall n1 n2 rest,
     exists hierarchical,
       isHierarchicalGraph (n1 :: n2 :: rest) edges = Some hierarchical /\
       (hierarchical = true <->
          edges <> [] /\ ~ reachableCycle (n1 :: n2 :: rest) edges) /\
       applyAutoLayout d3 (n1 :: n2 :: rest) edges options
       = if hierarchical
         then applyHierarchicalLayout (n1 :: n2 :: rest) edges options
         else applyForceDirectedLayout d3 (n1 :: n2 :: rest) edges options)
  /\
  (fun r => (fun n => (node_id n, Qred (px (position n)),
                       Qred (py (position n)))) <$> res_nodes r) <$>
    applyAutoLayout d3 [mkNode "A"] edges noOptions
  = Some [("A"%string, 600, 400)].
Proof.
  split; [reflexivity|]. split.
  { intros node. unfold applyAutoLayout, withPosition, withDefaults.
    cbn [o_width o_height DEFAULT_OPTIONS].
    by destruct (opt_width options), (opt_height options). }
  split; [|by vm_compute].
  intros n1 n2 rest.
  destruct (isHierarchicalGraph_correct (n1 :: n2 :: rest) edges)
    as (b & Hb & Hiff).
  exists b. split; [done|]. split; [done|].
  unfold applyAutoLayout. by rewrite Hb.
Qed.

End DispatchFacts.

(** ** Theorems: the caller's node records *)

Module FrameFacts.
Import Layout LayoutExamples GraphSpec StructureFacts LevelFacts PlacementFacts.

Lemma sameExceptPosition_withPosition (n : Node) (p : Point) :
  sameExceptPosition (withPosition n p) n.
Proof. by repeat split. Qed.

Lemma readNode_app (h h2 : Heap) (r : Ref) :
  (r < length h)%nat -> readNode (h ++ h2) r = readNode h r.
Proof. intros Hr. unfold readNode. by apply app_nth1. Qed.


Lemma heapExtends_readNode (h h' : Heap) (r : Ref) :
  heapExtends h h' -> (r < length h)%nat -> readNode h' r = readNode h r.
Proof. intros [new ->]. apply readNode_app. Qed.








(** *** What the layouts keep of a node *)

Lemma Forall2_imap_same {A : Type} (R : A -> A -> Prop) (f : nat -> A -> A)
    (l : list A) :
  (forall i x, R (f i x) x) -> Forall2 R (imap f l) l.
Proof.
  revert f. induction l as [|x l IH]; intros f Hf; [constructor|].
  rewrite imap_cons. constructor; [apply Hf|]. apply IH. intros i y. apply Hf.
Qed.

Lemma placeAll_same (opts : Options) (groups : list (nat * list Node)) :
  Forall2 sameExceptPosition (placeAll opts groups) (concat (snd <$> groups)).
Proof.
  unfold placeAll. induction groups as [|[l ys] groups IH]; [constructor|].
  cbn [flat_map fmap list_fmap concat fst snd].
  apply Forall2_app; [|done]. unfold placeLevel.
  apply Forall2_imap_same. intros i x. apply sameExceptPosition_withPosition.
Qed.

(** The force-directed layout keeps the order of the nodes. *)
Lemma applyForceDirectedLayout_same (d3 : D3Force) (nodes : list Node)
    (edges : list Edge) (options : LayoutOptions) (r : LayoutResult) :
  applyForceDirectedLayout d3 nodes edges options = Some r ->
  Forall2 sameExceptPosition (res_nodes r) nodes /\ res_edges r = edges.
Proof.
  unfold applyForceDirectedLayout.
  destruct (runSimulation d3 _ _ _) as [sim|]; [|done].
  intros [= <-]. cbn [res_nodes res_edges]. split; [|done].
  rewrite imap_fmap. apply Forall2_imap_same.
  intros i x. apply sameExceptPosition_withPosition.
Qed.

(** The hierarchical layout always returns; it lists the nodes level by
    level, which permutes them. *)
Lemma applyHierarchicalLayout_same (nodes : list Node) (edges : list Edge)
    (options : LayoutOptions) :
  exists r perm,
    applyHierarchicalLayout nodes edges options = Some r /\
    perm ≡ₚ nodes /\
    Forall2 sameExceptPosition (res_nodes r) perm /\ res_edges r = edges.
Proof.
  unfold applyHierarchicalLayout.
  destruct (assignLevels_final nodes edges) as (lv & -> & _).
  eexists _, _. split; [reflexivity|]. cbn [res_nodes res_edges].
  split; [apply (groupByLevel_concat
                   (fun node => levelOf lv (node_id node)) nodes)|].
  split; [apply placeAll_same | done].
Qed.





End FrameFacts.

(** ** Theorems: geometry *)

Module GeometryFacts.
Import Geometry.

Lemma Qabs_cases (x : Q) :
  (0 <= x /\ Qabs x == x) \/ (x <= 0 /\ Qabs x == - x).
Proof.
  destruct (Qlt_le_dec x 0) as [H|H].
  - right. split; [lra|]. apply Qabs_neg. lra.
  - left. split; [lra|]. apply Qabs_pos. lra.
Qed.

Lemma Qsq_nonneg (a : Q) : 0 <= a * a.
Proof. nra. Qed.

Lemma Qsq_le (a b : Q) : 0 <= a -> a <= b -> a * a <= b * b.
Proof. nra. Qed.

Lemma min4_le (a b c d : Q) :
  min4 a b c d <= a /\ min4 a b c d <= b /\
  min4 a b c d <= c /\ min4 a b c d <= d.
Proof.
  unfold min4.
  pose proof (Q.le_min_l (Qmin (Qmin a b) c) d).
  pose proof (Q.le_min_r (Qmin (Qmin a b) c) d).
  pose proof (Q.le_min_l (Qmin a b) c).
  pose proof (Q.le_min_r (Qmin a b) c).
  pose proof (Q.le_min_l a b).
  pose proof (Q.le_min_r a b).
  repeat split; lra.
Qed.

Lemma min4_attained (a b c d : Q) :
  min4 a b c d == a \/ min4 a b c d == b \/
  min4 a b c d == c \/ min4 a b c d == d.
Proof.
  unfold min4.
  destruct (Q.min_spec (Qmin (Qmin a b) c) d) as [[_ H1]|[_ H1]];
    rewrite H1; [|do 3 right; reflexivity].
  destruct (Q.min_spec (Qmin a b) c) as [[_ H2]|[_ H2]];
    rewrite H2; [|do 2 right; left; reflexivity].
  destruct (Q.min_spec a b) as [[_ H3]|[_ H3]]; rewrite H3;
    [left | right; left]; reflexivity.
Qed.

Lemma clamp_bounds (lo hi v : Q) :
  lo <= hi -> lo <= Qmax lo (Qmin hi v) <= hi.
Proof.
  intros Hle. split; [apply Q.le_max_l|].
  apply Q.max_lub; [exact Hle | apply Q.le_min_l].
Qed.

Lemma clamp_id (lo hi v : Q) :
  lo <= v <= hi -> Qmax lo (Qmin hi v) == v.
Proof.
  intros [H1 H2].
  rewrite (Q.min_r hi v) by exact H2.
  apply Q.max_r. exact H1.
Qed.

(** For a box of non-negative extent the projection always lands on the
    boundary of the box. *)
Lemma getClosestPointOnNode_onBoundary (pos : Point) (sz : Size) (p : Point) :
  0 <= width sz -> 0 <= height sz ->
  onBoundary pos sz (getClosestPointOnNode pos sz p).
Proof.
  intros Hw Hh. unfold getClosestPointOnNode, onBoundary.
  assert (Hx : px pos <= px pos + width sz) by lra.
  assert (Hy : py pos <= py pos + height sz) by lra.
  repeat match goal with
  | |- context [if Qeq_bool ?a ?b then _ else _] => destruct (Qeq_bool a b)
  end; cbn [px py].
  - left. split; [left; reflexivity | by apply clamp_bounds].
  - left. split; [right; reflexivity | by apply clamp_bounds].
  - right. split; [left; reflexivity | by apply clamp_bounds].
  - right. split; [right; reflexivity | by apply clamp_bounds].
Qed.

(** For a target point inside the box (the case the edge-distance
    comparison is exact for) the projection is a nearest boundary point. *)
Lemma getClosestPointOnNode_inside_nearest (pos : Point) (sz : Size) (p q : Point) :
  insideBox pos sz p -> onBoundary pos sz q ->
  dist2 (getClosestPointOnNode pos sz p) p <= dist2 q p.
Proof.
  intros [[HxL HxR] [HyT HyB]] Hq.
  unfold getClosestPointOnNode. unfold onBoundary in Hq.
  set (R := px pos + width sz) in *. set (L := px pos) in *.
  set (B := py pos + height sz) in *. set (T := py pos) in *.
  set (dl := Qabs (px p - L)). set (dr := Qabs (px p - R)).
  set (dt := Qabs (py p - T)). set (db := Qabs (py p - B)).
  set (m := min4 dl dr dt db).
  assert (Hdl : dl == px p - L)
    by (destruct (Qabs_cases (px p - L)) as [[? E]|[? E]]; fold dl in E; lra).
  assert (Hdr : dr == R - px p)
    by (destruct (Qabs_cases (px p - R)) as [[? E]|[? E]]; fold dr in E; lra).
  assert (Hdt : dt == py p - T)
    by (destruct (Qabs_cases (py p - T)) as [[? E]|[? E]]; fold dt in E; lra).
  assert (Hdb : db == B - py p)
    by (destruct (Qabs_cases (py p - B)) as [[? E]|[? E]]; fold db in E; lra).
  destruct (min4_le dl dr dt db) as (Ml & Mr & Mt & Mb). fold m in Ml, Mr, Mt, Mb.
  assert (Hm0 : 0 <= m).
  { destruct (min4_attained dl dr dt db) as [E|[E|[E|E]]]; fold m in E; lra. }
  pose proof (clamp_id T B (py p) (conj HyT HyB)) as Cy.
  pose proof (clamp_id L R (px p) (conj HxL HxR)) as Cx.
  assert (Hlow : m * m <= dist2 q p).
  { unfold dist2.
    pose proof (Qsq_nonneg (px q - px p)) as Sx.
    pose proof (Qsq_nonneg (py q - py p)) as Sy.
    pose proof (Qsq_le m (px p - L)) as Q1.
    pose proof (Qsq_le m (R - px p)) as Q2.
    pose proof (Qsq_le m (py p - T)) as Q3.
    pose proof (Qsq_le m (B - py p)) as Q4.
    destruct Hq as [[[E|E] _]|[[E|E] _]]; rewrite E; lra. }
  assert (Hr : dist2 (if Qeq_bool m dl
      then {| px := L; py := Qmax T (Qmin B (py p)) |}
      else if Qeq_bool m dr
      then {| px := R; py := Qmax T (Qmin B (py p)) |}
      else if Qeq_bool m dt
      then {| px := Qmax L (Qmin R (px p)); py := T |}
      else {| px := Qmax L (Qmin R (px p)); py := B |}) p == m * m).
  { destruct (Qeq_bool m dl) eqn:E1;
      [apply Qeq_bool_iff in E1; unfold dist2; cbn [px py]; rewrite Cy; nra|].
    destruct (Qeq_bool m dr) eqn:E2;
      [apply Qeq_bool_iff in E2; unfold dist2; cbn [px py]; rewrite Cy; nra|].
    destruct (Qeq_bool m dt) eqn:E3;
      [apply Qeq_bool_iff in E3; unfold dist2; cbn [px py]; rewrite Cx; nra|].
    apply Qeq_bool_neq in E1, E2, E3.
    destruct (min4_attained dl dr dt db) as [E|[E|[E|E]]]; fold m in E;
      try contradiction.
    unfold dist2; cbn [px py]; rewrite Cx; nra. }
  rewrite Hr. exact Hlow.
Qed.

(** C1 (boundary projection).  The projection compares distances to the
    four edge _lines_; outside the box this can select an edge whose line
    is near while the edge itself is far.  On the box at (0,0) of size
    (100,50) and the target (500,25) the function returns the corner
    (100,0), although the right-edge midpoint (100,25) lies on the boundary
    and is strictly nearer.  The same happens for a cursor inside the
    20-unit hover margin of a default-sized node: box (0,0) size (192,96),
    target (5,111) yields (0,96) while (5,96) is nearer. *)
Theorem getClosestPointOnNode_misses_nearest :
  let box := {| px := 0; py := 0 |} in
  let sz := {| width := 100; height := 50 |} in
  let p := {| px := 500; py := 25 |} in
  let sz' := {| width := 192; height := 96 |} in
  let p' := {| px := 5; py := 111 |} in
  (getClosestPointOnNode box sz p = {| px := 100; py := 0 |} /\
   onBoundary box sz {| px := 100; py := 25 |} /\
   dist2 {| px := 100; py := 25 |} p < dist2 (getClosestPointOnNode box sz p) p)
  /\
  (getClosestPointOnNode box sz' p' = {| px := 0; py := 96 |} /\
   onBoundary box sz' {| px := 5; py := 96 |} /\
   dist2 {| px := 5; py := 96 |} p' < dist2 (getClosestPointOnNode box sz' p') p').
Proof.
  cbv zeta. repeat split; try reflexivity.
  - left. cbn. split; [right; reflexivity|]. split; discriminate.
  - right. cbn. split; [right; reflexivity|]. split; discriminate.
Qed.

End GeometryFacts.

(** ** Theorems: connection session *)

Module SessionFacts.
Import Geometry Session SessionSpec.

Lemma hitsPadded_boxContains (n : RFNode) (p : Point) :
  hitsPadded n p = boxContains (padBox 20 (boxOf n)) p.
Proof. reflexivity. Qed.

Lemma findHovered_spec (S : string) (p : Point) (l : list RFNode) :
  findHovered (Some S) p l =
  match spec_firstCandidate S p l with
  | Some n => (Some (rf_id n),
               Some (getClosestPointOnNode (rf_position n) (nodeSizeOf n) p))
  | None => (None, None)
  end.
Proof.
  unfold spec_firstCandidate.
  induction l as [|n l IH]; [reflexivity|].
  cbn [findHovered List.filter].
  destruct (String.eqb_spec (rf_id n) S) as [E|E].
  - rewrite bool_decide_eq_true_2 by congruence. exact IH.
  - rewrite bool_decide_eq_false_2 by congruence.
    cbn [negb List.filter]. rewrite <- hitsPadded_boxContains.
    destruct (hitsPadded n p); [reflexivity | exact IH].
Qed.

(** The cursor update in terms of the first candidate and the projection
    the code computes. *)
Lemma handleMouseMove_first_candidate
    (S : string) (p : Point) (candidates : list RFNode) :
  let st := handleMouseMove (Some S) candidates p in
  cursorPosition st = Some p /\
  hoveredNodeId st = rf_id <$> spec_firstCandidate S p candidates /\
  snapPosition st =
    (fun n => getClosestPointOnNode (rf_position n) (nodeSizeOf n) p)
      <$> spec_firstCandidate S p candidates.
Proof.
  cbv zeta. unfold handleMouseMove. rewrite findHovered_spec.
  destruct (spec_firstCandidate S p candidates); repeat split.
Qed.

(** C4 (cursor update).  After a cursor update in a session with source
    [S], the hovered node is the first candidate other than [S] whose box
    padded by 20 contains the cursor, and hovered node and snap point are
    both absent when there is no such candidate.  The snap point lies on
    the boundary of that node's unpadded box, and is a closest boundary
    point when the cursor is inside the box; in the 20-unit margin around
    the box it need not be.  With source A and one candidate B at (0,0):
    for B of explicit size 100 x 50 the cursor (5,60) snaps to (0,50)
    though (5,50) is nearer; for B of measured size 120 x 40 the cursor
    (5,50) snaps to (0,40) though (5,40) is nearer; for B of the default
    size 192 x 96 the cursor (5,111) snaps to (0,96) though (5,96) is
    nearer. *)
Theorem handleMouseMove_snap_misses_nearest :
  (forall (S : string) (p : Point) (candidates : list RFNode),
     let st := handleMouseMove (Some S) candidates p in
     cursorPosition st = Some p /\
     match spec_firstCandidate S p candidates with
     | Some n =>
         hoveredNodeId st = Some (rf_id n) /\
         exists s,
           snapPosition st = Some s /\
           (0 <= width (nodeSizeOf n) -> 0 <= height (nodeSizeOf n) ->
            onBoundary (rf_position n) (nodeSizeOf n) s) /\
           (insideBox (rf_position n) (nodeSizeOf n) p ->
            forall q, onBoundary (rf_position n) (nodeSizeOf n) q ->
              dist2 s p <= dist2 q p)
     | None => hoveredNodeId st = None /\ snapPosition st = None
     end)
  /\
  (let origin := {| px := 0; py := 0 |} in
   let sized := {| rf_id := "B"; rf_position := origin;
                   rf_data_node :=
                     Some {| node_id := "B"; node_label := "B";
                             node_markup := None; position := origin;
                             node_size :=
                               Some {| width := 100; height := 50 |} |};
                   rf_width := Some 120; rf_height := Some 40 |} in
   let measured := {| rf_id := "B"; rf_position := origin;
                      rf_data_node := None;
                      rf_width := Some 120; rf_height := Some 40 |} in
   let plain := rfNodeAt "B" 0 0 in
   let fails (b : RFNode) (sz : Size) (p s q : Point) :=
     let st := handleMouseMove (Some "A"%string) [rfNodeAt "A" 300 0; b] p in
     hoveredNodeId st = Some "B"%string /\
     snapPosition st = Some s /\
     onBoundary origin sz q /\ dist2 q p < dist2 s p in
   fails sized {| width := 100; height := 50 |}
     {| px := 5; py := 60 |} {| px := 0; py := 50 |} {| px := 5; py := 50 |}
   /\
   fails measured {| width := 120; height := 40 |}
     {| px := 5; py := 50 |} {| px := 0; py := 40 |} {| px := 5; py := 40 |}
   /\
   fails plain {| width := 192; height := 96 |}
     {| px := 5; py := 111 |} {| px := 0; py := 96 |} {| px := 5; py := 96 |}).
Proof.
  split.
  - intros S p candidates. cbv zeta. unfold handleMouseMove.
    rewrite findHovered_spec. cbn [cursorPosition hoveredNodeId snapPosition].
    destruct (spec_firstCandidate S p candidates) as [n|]; [|done].
    split; [done|]. split; [done|]. eexists. split; [reflexivity|]. split.
    + intros Hw Hh. by apply GeometryFacts.getClosestPointOnNode_onBoundary.
    + intros Hin q Hq.
      by apply GeometryFacts.getClosestPointOnNode_inside_nearest.
  - cbv zeta. repeat split; try reflexivity;
      right; cbn; (split; [right; reflexivity|]); split; discriminate.
Qed.

(** The first candidate in terms of positions in the list. *)
Lemma spec_firstCandidate_Some (S : string) (p : Point) (l : list RFNode) (n : RFNode) :
  spec_firstCandidate S p l = Some n <->
  exists i, l !! i = Some n /\ rf_id n <> S /\ hitsPadded n p = true /\
    forall j m, (j < i)%nat -> l !! j = Some m ->
      rf_id m = S \/ hitsPadded m p = false.
Proof.
  unfold spec_firstCandidate. induction l as [|a l IH].
  - cbn. split; [discriminate|]. intros (i & Hi & _). by destruct i.
  - cbn [List.filter]. destruct (String.eqb_spec (rf_id a) S) as [E|E]; cbn [negb].
    + rewrite IH. split.
      * intros (i & Hi & H1 & H2 & H3). exists (Datatypes.S i). repeat split; try done.
        intros [|j] m Hj Hm; [left; cbn in Hm; congruence|].
        apply (H3 j m); [lia | exact Hm].
      * intros ([|i] & Hi & H1 & H2 & H3); [cbn in Hi; congruence|].
        exists i. repeat split; try done.
        intros j m Hj Hm. apply (H3 (Datatypes.S j) m); [lia | exact Hm].
    + cbn [List.filter]. rewrite <- hitsPadded_boxContains.
      destruct (hitsPadded a p) eqn:Hh.
      * cbn [head]. split.
        -- intros [= <-]. exists 0%nat. repeat split; try done. intros; lia.
        -- intros ([|i] & Hi & H1 & H2 & H3); [cbn in Hi; congruence|].
           destruct (H3 0%nat a) as [?|?]; [lia | done | done | congruence].
      * rewrite IH. split.
        -- intros (i & Hi & H1 & H2 & H3). exists (Datatypes.S i). repeat split; try done.
           intros [|j] m Hj Hm; [right; cbn in Hm; congruence|].
           apply (H3 j m); [lia | exact Hm].
        -- intros ([|i] & Hi & H1 & H2 & H3); [cbn in Hi; congruence|].
           exists i. repeat split; try done.
           intros j m Hj Hm. apply (H3 (Datatypes.S j) m); [lia | exact Hm].
Qed.

(** Dragging from A's right handle to just left of B and releasing there
    requests exactly one edge, from A to B, attached where the cursor
    snapped; the session is idle afterwards. *)
Example drag_from_A_to_B :
  let '(st, out) :=
    run (initialCanvas {| nodes := []; edges := [] |})
      [StartConnectionFromHandle "A" right;
       MouseMove {| px := 390; py := 50 |} twoNodes;
       MouseUp 1700000000000] in
  isActive (connectionMode st) = false /\
  (fun e => (source <$> requestedEdge e, target <$> requestedEdge e,
             (requestedEdge e ≫= metadata))) <$> out
  = [(Some "A"%string, Some "B"%string,
      Some {| sourceHandle := right;
              targetPosition := {| px := 400; py := 50 |} |})].
Proof. vm_compute. split; reflexivity. Qed.

(** Hovering the source itself and releasing requests nothing; the drag
    goes on. *)
Example release_over_source :
  let '(st, out) :=
    run (initialCanvas {| nodes := []; edges := [] |})
      [StartConnectionFromHandle "A" right;
       MouseMove {| px := 10; py := 50 |} twoNodes;
       MouseUp 1700000000000] in
  isActive (connectionMode st) = true /\
  hoveredNodeId (system st) = None /\ out = [].
Proof. vm_compute. repeat split. Qed.

(** *** Completing a connection *)

Lemma truthyId_Some (o : option string) (s : string) :
  truthyId o = Some s <-> o = Some s /\ s <> EmptyString.
Proof.
  unfold truthyId. destruct o as [x|]; [|by split; [|intros [? _]]].
  case_bool_decide as E; split.
  - discriminate.
  - intros [[= ->] Hne]. contradiction.
  - intros [= ->]. by split.
  - by intros [-> _].
Qed.

(** What [completeConnection] does in each of its four situations. *)
Lemma completeConnection_cases (now : Z) (st : Canvas) (t : string)
    (tp : option Point) :
  let cm := connectionMode st in
  (isActive cm = false \/ truthyId (sourceNodeId cm) = None) /\
    completeConnection now st t tp = (st, [])
  \/
  (isActive cm = true /\ truthyId (sourceNodeId cm) = Some t /\
    completeConnection now st t tp = (cancelConnectionMode st, []))
  \/
  (exists src e,
    isActive cm = true /\ truthyId (sourceNodeId cm) = Some src /\ src <> t /\
    source e = src /\ target e = t /\
    completeConnection now st t tp =
      (cancelConnectionMode
         {| connectionMode := cm;
            graph := {| nodes := nodes (graph st);
                        edges := edges (graph st) ++ [e] |};
            system := system st |},
       [OnGraphChange {| nodes := nodes (graph st);
                         edges := edges (graph st) ++ [e] |}])).
Proof.
  cbv zeta. unfold completeConnection.
  destruct (isActive (connectionMode st)); cbn [negb]; [|left; auto].
  destruct (truthyId (sourceNodeId (connectionMode st))) as [src|]; [|left; auto].
  case_bool_decide as E.
  - subst. right. left. auto.
  - right. right. eexists src, _. repeat split; [exact E | | ].
    + by destruct tp, (sourceHandlePosition (connectionMode st)).
    + by destruct tp, (sourceHandlePosition (connectionMode st)).
Qed.

Lemma completeConnection_noSelfLoop (now : Z) (st : Canvas) (t : string)
    (tp : option Point) :
  Forall noSelfLoop (snd (completeConnection now st t tp)).
Proof.
  destruct (completeConnection_cases now st t tp)
    as [[_ ->]|[(_ & _ & ->)|(src & e & _ & _ & Hne & Hs & Ht & ->)]];
    cbn [snd]; try by constructor.
  constructor; [|constructor].
  exists e. split; [|congruence].
  cbn. apply last_snoc.
Qed.

Lemma handleMouseUp_noSelfLoop (now : Z) (st : Canvas) :
  Forall noSelfLoop (snd (handleMouseUp now st)).
Proof.
  unfold handleMouseUp.
  destruct (truthyId (hoveredNodeId (system st))) as [h|];
    [|by constructor].
  destruct (snapPosition (system st)) as [sp|]; [|by constructor].
  apply completeConnection_noSelfLoop.
Qed.

Lemma onNodeClick_noSelfLoop (now : Z) (st : Canvas) (nodeId : string) :
  Forall noSelfLoop (snd (onNodeClick now st nodeId)).
Proof.
  unfold onNodeClick.
  destruct (isActive (connectionMode st)); [|by constructor].
  apply completeConnection_noSelfLoop.
Qed.

Lemma step_emitted (st : Canvas) (ev : Step) :
  snd (step st ev) =
  match ev with
  | MouseUp now =>
      if isActive (connectionMode st) then snd (handleMouseUp now st) else []
  | NodeClick now nodeId => snd (onNodeClick now st nodeId)
  | _ => []
  end.
Proof.
  unfold step. destruct ev; try reflexivity;
    try (by destruct (isActive (connectionMode st))).
  - destruct (isActive (connectionMode st)); [|reflexivity].
    by destruct (handleMouseUp now st).
  - by destruct (onNodeClick now st nodeId).
Qed.

Lemma step_noSelfLoop (st : Canvas) (ev : Step) :
  Forall noSelfLoop (snd (step st ev)).
Proof.
  rewrite step_emitted. destruct ev; try by constructor.
  - destruct (isActive (connectionMode st)); [|by constructor].
    apply handleMouseUp_noSelfLoop.
  - apply onNodeClick_noSelfLoop.
Qed.

(** C2 (no self-loops).  Whatever the sequence of session events and from
    whatever canvas state, every graph change emitted on the way requests
    an edge whose target differs from its source. *)
Theorem run_never_emits_self_loop (st : Canvas) (evs : list Step) :
  Forall noSelfLoop (snd (run st evs)).
Proof.
  revert st. induction evs as [|ev evs IH]; intros st; cbn [run].
  - constructor.
  - pose proof (step_noSelfLoop st ev) as Hstep.
    destruct (step st ev) as [st1 out1].
    specialize (IH st1). destruct (run st1 evs) as [st2 out2].
    cbn [snd] in *. apply Forall_app. by split.
Qed.

(** C3, as stated, fails: a click on the source node while the session is
    active emits nothing but ends the session. *)
Lemma commit_on_source_ends_session :
  isActive (connectionMode draggingFromA) = true /\
  sourceNodeId (connectionMode draggingFromA) = Some "A"%string /\
  snd (step draggingFromA (NodeClick 0 "A")) = [] /\
  isActive (connectionMode (fst (step draggingFromA (NodeClick 0 "A")))) = false.
Proof. repeat split. Qed.

(** C3, amended.  In an active session with source [src]:
    a release with no hovered target (or no snap point) emits nothing and
    leaves the whole canvas state as it was; a commit on the source itself
    emits nothing and cancels the session; a commit on any other node emits
    one graph change appending an edge from [src] to the target and returns
    the session to idle. *)
Theorem commit_outcomes (now : Z) (st : Canvas) (src : string)
    (Hactive : isActive (connectionMode st) = true)
    (Hsrc : truthyId (sourceNodeId (connectionMode st)) = Some src) :
  ((truthyId (hoveredNodeId (system st)) = None \/
    snapPosition (system st) = None) ->
     step st (MouseUp now) = (st, [])) /\
  (forall tp,
     completeConnection now st src tp = (cancelConnectionMode st, []) /\
     isActive (connectionMode (cancelConnectionMode st)) = false) /\
  (forall t tp, t <> src ->
     exists e st',
       completeConnection now st t tp = (st', [OnGraphChange (graph st')]) /\
       edges (graph st') = edges (graph st) ++ [e] /\
       nodes (graph st') = nodes (graph st) /\
       source e = src /\ target e = t /\
       connectionMode st' = idleMode).
Proof.
  split; [|split].
  - intros Habsent.
    assert (Hup : handleMouseUp now st = (st, [])).
    { unfold handleMouseUp. destruct Habsent as [-> | ->]; [reflexivity|].
      by destruct (truthyId (hoveredNodeId (system st))). }
    unfold step. rewrite Hactive, Hup. unfold syncSystem. by rewrite Hactive.
  - intros tp. split; [|reflexivity].
    destruct (completeConnection_cases now st src tp)
      as [[[?|?] _]|[(_ & _ & ->)|(s' & e & _ & Hs' & Hne & _)]]; try congruence.
  - intros t tp Hne.
    destruct (completeConnection_cases now st t tp)
      as [[[?|?] _]|[(_ & ? & _)|(s' & e & _ & Hs' & _ & Hs & Ht & ->)]];
      try congruence.
    exists e,
      (cancelConnectionMode
         {| connectionMode := connectionMode st;
            graph := {| nodes := nodes (graph st);
                        edges := edges (graph st) ++ [e] |};
            system := system st |}).
    cbn. repeat split; congruence.
Qed.

Lemma commit_outcomes_witness :
  truthyId (hoveredNodeId (system draggingFromA)) = None /\
  step draggingFromA (MouseUp 0) = (draggingFromA, []).
Proof.
  split; [reflexivity|].
  apply (commit_outcomes 0 draggingFromA "A"); [reflexivity | reflexivity |].
  left. reflexivity.
Defined.

(** C10 (commit without a session).  When connection mode is inactive or
    has no source node, [completeConnection] emits nothing and returns the
    canvas (connection mode, graph and hover state) as it was. *)
Theorem completeConnection_inactive_noop (now : Z) (st : Canvas)
    (t : string) (tp : option Point) :
  isActive (connectionMode st) = false \/
  sourceNodeId (connectionMode st) = None ->
  completeConnection now st t tp = (st, []).
Proof.
  intros [H|H]; unfold completeConnection; rewrite H; [reflexivity|].
  by destruct (isActive _).
Qed.

Lemma completeConnection_inactive_noop_witness :
  completeConnection 1700000000000 (initialCanvas {| nodes := []; edges := [] |})
    "B" (Some {| px := 1; py := 2 |})
  = (initialCanvas {| nodes := []; edges := [] |}, []).
Proof.
  apply completeConnection_inactive_noop. left. reflexivity.
Defined.

End SessionFacts.

(** ** Theorems: projection and handles *)

Module HandleFacts.
Import Geometry Session SessionSpec Handles GeometryFacts.

Lemma onBoundary_insideBox (pos : Point) (sz : Size) (q : Point) :
  0 <= width sz -> 0 <= height sz ->
  onBoundary pos sz q -> insideBox pos sz q.
Proof.
  intros Hw Hh [[[E|E] Hy]|[[E|E] Hx]]; unfold insideBox; lra.
Qed.

Lemma Qabs_zero (x : Q) : Qabs x == 0 -> x == 0.
Proof. intros H. destruct (Qabs_cases x) as [[? E]|[? E]]; lra. Qed.

Lemma min4_nonneg (a b c d : Q) :
  0 <= a -> 0 <= b -> 0 <= c -> 0 <= d -> 0 <= min4 a b c d.
Proof.
  intros. destruct (min4_attained a b c d) as [E|[E|[E|E]]]; lra.
Qed.

(** The case analysis of [getClosestPointOnNode]: the edge it snaps to is
    one whose line is at the least distance. *)
Lemma getClosestPointOnNode_cases (pos : Point) (sz : Size) (p : Point) :
  let L := px pos in
  let R := px pos + width sz in
  let T := py pos in
  let B := py pos + height sz in
  let m := min4 (Qabs (px p - L)) (Qabs (px p - R))
             (Qabs (py p - T)) (Qabs (py p - B)) in
  (m == Qabs (px p - L) /\
   getClosestPointOnNode pos sz p =
     {| px := L; py := Qmax T (Qmin B (py p)) |}) \/
  (m == Qabs (px p - R) /\
   getClosestPointOnNode pos sz p =
     {| px := R; py := Qmax T (Qmin B (py p)) |}) \/
  (m == Qabs (py p - T) /\
   getClosestPointOnNode pos sz p =
     {| px := Qmax L (Qmin R (px p)); py := T |}) \/
  (m == Qabs (py p - B) /\
   getClosestPointOnNode pos sz p =
     {| px := Qmax L (Qmin R (px p)); py := B |}).
Proof.
  cbv zeta. unfold getClosestPointOnNode.
  set (dl := Qabs (px p - px pos)).
  set (dr := Qabs (px p - (px pos + width sz))).
  set (dt := Qabs (py p - py pos)).
  set (db := Qabs (py p - (py pos + height sz))).
  destruct (Qeq_bool (min4 dl dr dt db) dl) eqn:E1;
    [left; split; [by apply Qeq_bool_iff | done]|].
  destruct (Qeq_bool (min4 dl dr dt db) dr) eqn:E2;
    [right; left; split; [by apply Qeq_bool_iff | done]|].
  destruct (Qeq_bool (min4 dl dr dt db) dt) eqn:E3;
    [right; right; left; split; [by apply Qeq_bool_iff | done]|].
  right; right; right. split; [|done].
  apply Qeq_bool_neq in E1, E2, E3.
  destruct (min4_attained dl dr dt db) as [E|[E|[E|E]]]; done.
Qed.

Lemma boundary_fixed (pos : Point) (sz : Size)
    (q : Point) :
  0 <= width sz -> 0 <= height sz ->
  onBoundary pos sz q ->
  pointEq (getClosestPointOnNode pos sz q) q.
Proof.
  intros Hw Hh Hq.
  pose proof (onBoundary_insideBox pos sz q Hw Hh Hq) as [[HxL HxR] [HyT HyB]].
  pose proof (clamp_id _ _ _ (conj HyT HyB)) as Cy.
  pose proof (clamp_id _ _ _ (conj HxL HxR)) as Cx.
  set (dl := Qabs (px q - px pos)).
  set (dr := Qabs (px q - (px pos + width sz))).
  set (dt := Qabs (py q - py pos)).
  set (db := Qabs (py q - (py pos + height sz))).
  assert (Hm : min4 dl dr dt db == 0).
  { destruct (min4_le dl dr dt db) as (Ml & Mr & Mt & Mb).
    assert (0 <= min4 dl dr dt db)
      by (apply min4_nonneg; apply Qabs_nonneg).
    assert (dl == 0 \/ dr == 0 \/ dt == 0 \/ db == 0) as [Z|[Z|[Z|Z]]]; [|lra..].
    destruct Hq as [[[E|E] _]|[[E|E] _]].
    - left. unfold dl. rewrite E. by ring_simplify (px pos - px pos).
    - right; left. unfold dr. rewrite E.
      by ring_simplify (px pos + width sz - (px pos + width sz)).
    - right; right; left. unfold dt. rewrite E.
      by ring_simplify (py pos - py pos).
    - right; right; right. unfold db. rewrite E.
      by ring_simplify (py pos + height sz - (py pos + height sz)). }
  destruct (getClosestPointOnNode_cases pos sz q)
    as [[E ->]|[[E ->]|[[E ->]|[E ->]]]];
    fold dl dr dt db in E; rewrite Hm in E; symmetry in E;
    apply Qabs_zero in E; split; cbn [px py]; lra.
Qed.

(** X1.  For a box of non-negative extent a point of the boundary is its own
    projection. *)
Theorem getClosestPointOnNode_fixes_boundary (pos : Point) (sz : Size)
    (q : Point) :
  0 <= width sz -> 0 <= height sz ->
  onBoundary pos sz q ->
  pointEq (getClosestPointOnNode pos sz q) q.
Proof. apply boundary_fixed. Qed.

Lemma getClosestPointOnNode_fixes_boundary_witness :
  pointEq
    (getClosestPointOnNode {| px := 0; py := 0 |}
       {| width := 100; height := 50 |} {| px := 100; py := 25 |})
    {| px := 100; py := 25 |}.
Proof.
  apply getClosestPointOnNode_fixes_boundary; [done | done |].
  left. cbn. split; [right; reflexivity|]. split; discriminate.
Defined.

(** X2.  For a box of non-negative extent the projection lands on the boundary
    of the box wherever the target point is, and projecting the result once
    more changes nothing. *)
Theorem getClosestPointOnNode_idempotent (pos : Point) (sz : Size) (p : Point) :
  0 <= width sz -> 0 <= height sz ->
  onBoundary pos sz (getClosestPointOnNode pos sz p) /\
  pointEq
    (getClosestPointOnNode pos sz (getClosestPointOnNode pos sz p))
    (getClosestPointOnNode pos sz p).
Proof.
  intros Hw Hh.
  pose proof (getClosestPointOnNode_onBoundary pos sz p Hw Hh) as Hon.
  split; [done|]. by apply boundary_fixed.
Qed.

Lemma getClosestPointOnNode_idempotent_witness :
  let pos := {| px := 0; py := 0 |} in
  let sz := {| width := 100; height := 50 |} in
  let p := {| px := 500; py := 25 |} in
  onBoundary pos sz (getClosestPointOnNode pos sz p) /\
  pointEq
    (getClosestPointOnNode pos sz (getClosestPointOnNode pos sz p))
    (getClosestPointOnNode pos sz p).
Proof.
  apply (getClosestPointOnNode_idempotent {| px := 0; py := 0 |}
           {| width := 100; height := 50 |} {| px := 500; py := 25 |});
    done.
Defined.

(** X3.  For a target point inside the box the result is a nearest point of
    the boundary: it lies on the boundary and no boundary point is closer to
    the target. *)
Theorem getClosestPointOnNode_nearest_when_inside (pos : Point) (sz : Size)
    (p : Point) :
  insideBox pos sz p ->
  onBoundary pos sz (getClosestPointOnNode pos sz p) /\
  forall q, onBoundary pos sz q ->
    dist2 (getClosestPointOnNode pos sz p) p <= dist2 q p.
Proof.
  intros Hin. split.
  - destruct Hin as [[? ?] [? ?]].
    apply getClosestPointOnNode_onBoundary; lra.
  - intros q Hq. by apply getClosestPointOnNode_inside_nearest.
Qed.

Lemma getClosestPointOnNode_nearest_when_inside_witness :
  let pos := {| px := 0; py := 0 |} in
  let sz := {| width := 100; height := 50 |} in
  let p := {| px := 90; py := 25 |} in
  onBoundary pos sz (getClosestPointOnNode pos sz p) /\
  forall q, onBoundary pos sz q ->
    dist2 (getClosestPointOnNode pos sz p) p <= dist2 q p.
Proof.
  apply (getClosestPointOnNode_nearest_when_inside {| px := 0; py := 0 |}
           {| width := 100; height := 50 |} {| px := 90; py := 25 |}).
  unfold insideBox. cbn. lra.
Defined.

Lemma Qabs_of_nonneg (x v : Q) : 0 <= v -> x == v -> Qabs x == v.
Proof. intros Hv E. rewrite E. by apply Qabs_pos. Qed.

Lemma Qabs_of_nonpos (x v : Q) : 0 <= v -> x == - v -> Qabs x == v.
Proof.
  intros Hv E. rewrite E, Qabs_opp. by apply Qabs_pos.
Qed.

(** X4.  A handle sits 16 units outside the middle of its side.  For a node
    wider and higher than 32 the projection of the handle onto the node is
    that middle: the point the edge connection editor offers for the side. *)
Theorem handle_projects_to_side_middle (n : RFNode) (h : HandleSide) :
  32 < width (nodeSizeOf n) -> 32 < height (nodeSizeOf n) ->
  exists middle,
    targetSidePosition n (sideName h) = Some middle /\
    pointEq
      (getClosestPointOnNode (rf_position n) (nodeSizeOf n)
         (getHandlePosition (rf_position n) (nodeSizeOf n) h))
      middle /\
    dist2 (getHandlePosition (rf_position n) (nodeSizeOf n) h) middle
      == 16 * 16.
Proof.
  intros Hw Hh.
  assert (Hhalfw : width (nodeSizeOf n) / 2 * 2 == width (nodeSizeOf n))
    by field.
  assert (Hhalfh : height (nodeSizeOf n) / 2 * 2 == height (nodeSizeOf n))
    by field.
  assert (Hoff : 8 + 16 / 2 == 16) by reflexivity.
  destruct h; eexists; (split; [reflexivity|]);
    unfold getHandlePosition;
    set (hw := width (nodeSizeOf n) / 2) in *;
    set (hh := height (nodeSizeOf n) / 2) in *;
    set (off := 8 + 16 / 2) in *;
    set (w := width (nodeSizeOf n)) in *;
    set (ht := height (nodeSizeOf n)) in *;
    set (x := px (rf_position n)) in *;
    set (y := py (rf_position n)) in *;
    match goal with
    | |- pointEq (getClosestPointOnNode _ _ ?p) _ /\ _ =>
        pose proof (getClosestPointOnNode_cases (rf_position n)
                      (nodeSizeOf n) p) as Hcases;
        cbv zeta in Hcases; cbn [px py] in Hcases;
        destruct (min4_le (Qabs (px p - x)) (Qabs (px p - (x + w)))
                    (Qabs (py p - y)) (Qabs (py p - (y + ht))))
          as (Ml & Mr & Mt & Mb);
        cbn [px py] in Ml, Mr, Mt, Mb
    end; fold x y w ht in Hcases.
  - (* top *)
    assert (Hdl : Qabs (x + hw - x) == hw) by (apply Qabs_of_nonneg; lra).
    assert (Hdr : Qabs (x + hw - (x + w)) == hw)
      by (apply Qabs_of_nonpos; lra).
    assert (Hdt : Qabs (y - off - y) == 16) by (apply Qabs_of_nonpos; lra).
    assert (Hdb : Qabs (y - off - (y + ht)) == ht + 16)
      by (apply Qabs_of_nonpos; lra).
    assert (Cx : Qmax x (Qmin (x + w) (x + hw)) == x + hw)
      by (apply clamp_id; lra).
    split.
    + destruct Hcases as [[E ->]|[[E ->]|[[E ->]|[E ->]]]];
        split; cbn [px py]; lra.
    + unfold dist2; cbn [px py]. rewrite Hoff. ring.
  - (* right *)
    assert (Hdl : Qabs (x + w + off - x) == w + 16)
      by (apply Qabs_of_nonneg; lra).
    assert (Hdr : Qabs (x + w + off - (x + w)) == 16)
      by (apply Qabs_of_nonneg; lra).
    assert (Hdt : Qabs (y + hh - y) == hh) by (apply Qabs_of_nonneg; lra).
    assert (Hdb : Qabs (y + hh - (y + ht)) == hh)
      by (apply Qabs_of_nonpos; lra).
    assert (Cy : Qmax y (Qmin (y + ht) (y + hh)) == y + hh)
      by (apply clamp_id; lra).
    split.
    + destruct Hcases as [[E ->]|[[E ->]|[[E ->]|[E ->]]]];
        split; cbn [px py]; lra.
    + unfold dist2; cbn [px py]. rewrite Hoff. ring.
  - (* bottom *)
    assert (Hdl : Qabs (x + hw - x) == hw) by (apply Qabs_of_nonneg; lra).
    assert (Hdr : Qabs (x + hw - (x + w)) == hw)
      by (apply Qabs_of_nonpos; lra).
    assert (Hdt : Qabs (y + ht + off - y) == ht + 16)
      by (apply Qabs_of_nonneg; lra).
    assert (Hdb : Qabs (y + ht + off - (y + ht)) == 16)
      by (apply Qabs_of_nonneg; lra).
    assert (Cx : Qmax x (Qmin (x + w) (x + hw)) == x + hw)
      by (apply clamp_id; lra).
    split.
    + destruct Hcases as [[E ->]|[[E ->]|[[E ->]|[E ->]]]];
        split; cbn [px py]; lra.
    + unfold dist2; cbn [px py]. rewrite Hoff. ring.
  - (* left *)
    assert (Hdl : Qabs (x - off - x) == 16) by (apply Qabs_of_nonpos; lra).
    assert (Hdr : Qabs (x - off - (x + w)) == w + 16)
      by (apply Qabs_of_nonpos; lra).
    assert (Hdt : Qabs (y + hh - y) == hh) by (apply Qabs_of_nonneg; lra).
    assert (Hdb : Qabs (y + hh - (y + ht)) == hh)
      by (apply Qabs_of_nonpos; lra).
    assert (Cy : Qmax y (Qmin (y + ht) (y + hh)) == y + hh)
      by (apply clamp_id; lra).
    split.
    + destruct Hcases as [[E ->]|[[E ->]|[[E ->]|[E ->]]]];
        split; cbn [px py]; lra.
    + unfold dist2; cbn [px py]. rewrite Hoff. ring.
Qed.

Lemma handle_projects_to_side_middle_witness :
  exists middle,
    targetSidePosition (rfNodeAt "B" 400 0) "right" = Some middle /\
    pointEq
      (getClosestPointOnNode (rf_position (rfNodeAt "B" 400 0))
         (nodeSizeOf (rfNodeAt "B" 400 0))
         (getHandlePosition (rf_position (rfNodeAt "B" 400 0))
            (nodeSizeOf (rfNodeAt "B" 400 0)) right))
      middle /\
    dist2 (getHandlePosition (rf_position (rfNodeAt "B" 400 0))
             (nodeSizeOf (rfNodeAt "B" 400 0)) right) middle
      == 16 * 16.
Proof.
  apply (handle_projects_to_side_middle (rfNodeAt "B" 400 0) right);
    reflexivity.
Defined.

End HandleFacts.

(** ** Theorems: the clutter test *)

Module ClutterFacts.
Import Geometry Layout GraphSpec Clutter CanvasOps PlacementFacts LevelFacts
  StructureFacts GeometryFacts.

Lemma tooClose_iff (a b : Node) :
  tooClose a b = true <-> dist2 (position a) (position b) < 150 * 150.
Proof.
  unfold tooClose, dist2, minDistance. rewrite negb_true_iff.
  split.
  - intros H. apply Qnot_le_lt. intros Hle. apply Qle_bool_iff in Hle. congruence.
  - intros H. destruct (Qle_bool _ _) eqn:E; [|done].
    apply Qle_bool_iff in E. lra.
Qed.

Lemma dist2_sym (p q : Point) : dist2 p q == dist2 q p.
Proof. unfold dist2. ring. Qed.

Lemma scanPairs_iff (nodes : list Node) :
  scanPairs nodes = true <->
  exists i j a b, (i < j)%nat /\ nodes !! i = Some a /\ nodes !! j = Some b /\
    tooClose a b = true.
Proof.
  induction nodes as [|x nodes IH]; cbn [scanPairs].
  { split; [done|]. by intros (i & j & a & b & _ & Hi & _). }
  rewrite orb_true_iff, IH, existsb_exists. split.
  - intros [(b & Hb & Hclose)|(i & j & a & b & Hij & Hi & Hj & Hclose)].
    + apply list_elem_of_In, list_elem_of_lookup in Hb as [j Hj].
      exists O, (S j), x, b. repeat split; [lia | done..].
    + exists (S i), (S j), a, b. repeat split; [lia | done..].
  - intros (i & j & a & b & Hij & Hi & Hj & Hclose).
    destruct j as [|j]; [lia|]. cbn in Hj. destruct i as [|i].
    + cbn in Hi. injection Hi as ->. left. exists b.
      split; [|done]. apply list_elem_of_In, list_elem_of_lookup. eauto.
    + right. exists i, j, a, b. repeat split; [lia | done..].
Qed.

Lemma isLayoutCluttered_pairs (nodes : list Node) :
  isLayoutCluttered nodes = true <->
  exists i j a b, i <> j /\ nodes !! i = Some a /\ nodes !! j = Some b /\
    dist2 (position a) (position b) < 150 * 150.
Proof.
  unfold isLayoutCluttered. split.
  - destruct (length nodes <? 2)%nat; [done|]. intros H.
    apply scanPairs_iff in H as (i & j & a & b & Hij & Hi & Hj & Hclose).
    exists i, j, a, b. repeat split; [lia | done.. |]. by apply tooClose_iff.
  - intros (i & j & a & b & Hij & Hi & Hj & Hclose).
    assert (Hlen : (length nodes <? 2)%nat = false).
    { apply Nat.ltb_ge. apply lookup_lt_Some in Hi, Hj. lia. }
    rewrite Hlen. apply scanPairs_iff.
    destruct (Nat.lt_ge_cases i j) as [Hlt|Hge].
    + exists i, j, a, b. repeat split; try done. by apply tooClose_iff.
    + exists j, i, b, a. repeat split; [lia | done.. |].
      apply tooClose_iff. by rewrite dist2_sym.
Qed.

(** X5.  The layout is cluttered exactly when two different nodes have their
    positions less than 150 apart; the scan of the pairs [i < j] misses none,
    whatever the order of the nodes. *)
Theorem isLayoutCluttered_iff (nodes : list Node) :
  isLayoutCluttered nodes = true <->
  exists i j a b, i <> j /\ nodes !! i = Some a /\ nodes !! j = Some b /\
    dist2 (position a) (position b) < 150 * 150.
Proof. apply isLayoutCluttered_pairs. Qed.

(** X6.  The verdict does not depend on the order of the nodes. *)
Theorem isLayoutCluttered_permutation (nodes nodes' : list Node) :
  nodes ≡ₚ nodes' -> isLayoutCluttered nodes = isLayoutCluttered nodes'.
Proof.
  assert (Himp : forall l l', l ≡ₚ l' ->
            isLayoutCluttered l = true -> isLayoutCluttered l' = true).
  { intros l l' Hperm H.
    apply Permutation_inj in Hperm as (_ & f & Hinj & Hf).
    apply isLayoutCluttered_pairs in H as (i & j & a & b & Hij & Hi & Hj & Hc).
    apply isLayoutCluttered_pairs. exists (f i), (f j), a, b.
    rewrite <- !Hf. repeat split; try done. intros E. by apply Hij, Hinj. }
  intros Hperm.
  destruct (isLayoutCluttered nodes) eqn:E1.
  - symmetry. by apply (Himp nodes nodes').
  - destruct (isLayoutCluttered nodes') eqn:E2; [|done].
    rewrite (Himp nodes' nodes) in E1; done.
Qed.

Lemma isLayoutCluttered_permutation_witness :
  isLayoutCluttered [LayoutExamples.mkNode "A"; LayoutExamples.mkNode "B"]
  = isLayoutCluttered [LayoutExamples.mkNode "B"; LayoutExamples.mkNode "A"].
Proof.
  apply isLayoutCluttered_permutation. apply perm_swap.
Defined.

(** *** The hierarchical layout is never cluttered *)

Lemma ofNat_succ_le (a b : nat) : (a < b)%nat -> ofNat a + 1 <= ofNat b.
Proof.
  intros H. unfold ofNat. change 1 with (inject_Z 1).
  rewrite <- inject_Z_plus, <- Zle_Qle. lia.
Qed.

Lemma ofNat_apart (a b : nat) :
  a <> b -> ofNat a + 1 <= ofNat b \/ ofNat b + 1 <= ofNat a.
Proof.
  intros H. destruct (Nat.lt_ge_cases a b).
  - left. by apply ofNat_succ_le.
  - right. apply ofNat_succ_le. lia.
Qed.

Lemma tooClose_false (a b : Node) :
  150 * 150 <= dist2 (position a) (position b) -> tooClose a b = false.
Proof.
  intros H. destruct (tooClose a b) eqn:E; [|done].
  apply tooClose_iff in E. lra.
Qed.

(** Nodes on different rows are at least 250 apart. *)
Lemma tooClose_rows (a b : Node) (l l' : nat) :
  py (position a) == ofNat l * 250 -> py (position b) == ofNat l' * 250 ->
  l <> l' -> tooClose a b = false.
Proof.
  intros Ha Hb Hne. apply tooClose_false. unfold dist2.
  pose proof (Qsq_nonneg (px (position a) - px (position b))).
  assert (250 * 250 <= (py (position a) - py (position b))
                       * (py (position a) - py (position b))).
  { rewrite Ha, Hb. destruct (ofNat_apart l l' Hne); nra. }
  lra.
Qed.

(** Nodes in different slots of a row are at least 300 apart. *)
Lemma tooClose_slots (a b : Node) (start : Q) (k k' : nat) :
  px (position a) == start + ofNat k * 300 ->
  px (position b) == start + ofNat k' * 300 ->
  k <> k' -> tooClose a b = false.
Proof.
  intros Ha Hb Hne. apply tooClose_false. unfold dist2.
  pose proof (Qsq_nonneg (py (position a) - py (position b))).
  assert (300 * 300 <= (px (position a) - px (position b))
                       * (px (position a) - px (position b))).
  { rewrite Ha, Hb. destruct (ofNat_apart k k' Hne); nra. }
  lra.
Qed.

Lemma existsb_none {A : Type} (f : A -> bool) (l : list A) :
  (forall x, x ∈ l -> f x = false) -> existsb f l = false.
Proof.
  induction l as [|x l IH]; intros H; cbn; [done|].
  rewrite (H x) by left. apply IH. intros y Hy. apply H. by right.
Qed.

Lemma scanPairs_app (l1 l2 : list Node) :
  scanPairs (l1 ++ l2) =
  scanPairs l1 || existsb (fun a => existsb (tooClose a) l2) l1 || scanPairs l2.
Proof.
  induction l1 as [|a l1 IH]; cbn [app scanPairs existsb]; [done|].
  rewrite IH, existsb_app.
  destruct (existsb (tooClose a) l1), (existsb (tooClose a) l2),
    (scanPairs l1), (existsb (fun a => existsb (tooClose a) l2) l1); done.
Qed.

Lemma scanPairs_row (opts : Options) (l c : nat) (ys : list Node) (base : nat) :
  scanPairs
    (imap (fun i n => withPosition n (slotPosition opts l c (base + i))) ys)
  = false.
Proof.
  revert base. induction ys as [|y ys IH]; intros base; [done|].
  rewrite imap_cons. cbn [scanPairs]. apply orb_false_iff. split.
  - apply existsb_none. intros b Hb.
    apply elem_of_lookup_imap in Hb as (i & n & -> & Hi).
    eapply (tooClose_slots _ _ _ (base + 0) (base + S i)); [| |lia];
      cbn; reflexivity.
  - rewrite <- (IH (S base)). f_equal. apply imap_ext.
    intros i n Hi. cbn. by rewrite Nat.add_succ_r.
Qed.

Lemma placeAll_row (opts : Options) (groups : list (nat * list Node))
    (m : Node) :
  m ∈ placeAll opts groups ->
  exists l, l ∈ fst <$> groups /\ py (position m) == ofNat l * 250.
Proof.
  intros Hm. apply elem_of_placeAll in Hm as (l & ys & k & n & Hg & _ & ->).
  exists l. split; [|reflexivity].
  apply list_elem_of_fmap. by exists (l, ys).
Qed.

Lemma scanPairs_placeAll (opts : Options) (groups : list (nat * list Node)) :
  NoDup (fst <$> groups) -> scanPairs (placeAll opts groups) = false.
Proof.
  induction groups as [|[l ys] groups IH]; intros Hnd; [done|].
  cbn in Hnd. apply NoDup_cons in Hnd as [Hl Hnd].
  unfold placeAll. cbn [flat_map fst snd]. fold (placeAll opts groups).
  assert (Hrow : scanPairs (placeLevel opts l ys) = false)
    by apply (scanPairs_row opts l (length ys) ys 0).
  rewrite scanPairs_app, (IH Hnd), Hrow. cbn [orb].
  rewrite orb_false_r. apply existsb_none. intros a Ha. apply existsb_none.
  intros b Hb. unfold placeLevel in Ha.
  apply elem_of_lookup_imap in Ha as (i & n & -> & Hi).
  destruct (placeAll_row opts groups b Hb) as (l' & Hl' & Hb').
  apply (tooClose_rows _ _ l l'); [reflexivity | done |].
  intros ->. done.
Qed.

(** X7.  Whatever the graph, the hierarchical layout returns an arrangement
    the clutter test accepts: rows are 250 apart and slots 300, so the
    suggestion to tidy up never shows for a graph just laid out this way. *)
Theorem applyHierarchicalLayout_not_cluttered (nodes : list Node)
    (edges : list Edge) (options : LayoutOptions) :
  exists r,
    applyHierarchicalLayout nodes edges options = Some r /\
    isLayoutCluttered (res_nodes r) = false /\
    shouldSuggestLayout (Build_Graph (res_nodes r) (res_edges r)) = false.
Proof.
  unfold applyHierarchicalLayout.
  destruct (assignLevels_final nodes edges) as (lv & -> & _).
  eexists. split; [reflexivity|]. cbn [res_nodes res_edges].
  assert (H : isLayoutCluttered
                (placeAll (withDefaults options)
                   (groupByLevel (fun node => levelOf lv (node_id node)) nodes))
              = false).
  { unfold isLayoutCluttered. destruct (_ <? 2)%nat; [done|].
    apply scanPairs_placeAll.
    apply (groupByLevel_spec (fun node => levelOf lv (node_id node)) nodes). }
  split; [done|]. unfold shouldSuggestLayout. cbn. by rewrite H.
Qed.

End ClutterFacts.

(** ** Theorems: sessions as a whole *)

Module SessionTraceFacts.
Import Geometry Session SessionSpec SessionInvariants Handles GeometryFacts
  SessionFacts.

Lemma completeConnection_edge (now : Z) (st : Canvas) (t : string)
    (tp : option Point) :
  completeConnection now st t tp = (st, []) \/
  completeConnection now st t tp = (cancelConnectionMode st, []) \/
  exists src,
    isActive (connectionMode st) = true /\
    truthyId (sourceNodeId (connectionMode st)) = Some src /\ src <> t /\
    completeConnection now st t tp =
      (cancelConnectionMode
         {| connectionMode := connectionMode st;
            graph := {| nodes := nodes (graph st);
                        edges := edges (graph st)
                                 ++ [connectionEdge now (connectionMode st) src t tp] |};
            system := system st |},
       [OnGraphChange
          {| nodes := nodes (graph st);
             edges := edges (graph st)
                      ++ [connectionEdge now (connectionMode st) src t tp] |}]).
Proof.
  unfold completeConnection.
  destruct (isActive (connectionMode st)) eqn:Ha; cbn [negb]; [|by left].
  destruct (truthyId (sourceNodeId (connectionMode st))) as [src|] eqn:Hs;
    [|by left].
  case_bool_decide as E; [by right; left|].
  right; right. exists src. repeat split; [done|].
  unfold connectionEdge, createEdge.
  by destruct tp, (sourceHandlePosition (connectionMode st)).
Qed.

Lemma findHovered_both (src : option string) (p : Point) (l : list RFNode) :
  is_Some (fst (findHovered src p l)) <-> is_Some (snd (findHovered src p l)).
Proof.
  induction l as [|n l IH]; cbn [findHovered].
  - cbn. split; intros [? ?]; done.
  - case_bool_decide; [done|]. destruct (hitsPadded n p); [|done].
    cbn. split; intros _; by eexists.
Qed.

(** The shapes a state can have after one event. *)
Lemma step_shapes (st : Canvas) (ev : Step) :
  let st' := fst (step st ev) in
  (* the session ended or stayed closed *)
  (isActive (connectionMode st) = false /\ isStart ev = false /\
   connectionMode st' = connectionMode st /\ graph st' = graph st /\
   system st' = systemReset /\ snd (step st ev) = [])
  \/
  (isActive (connectionMode st) = true /\ isStart ev = false /\
   connectionMode st' = idleMode /\ system st' = systemReset /\
   ((graph st' = graph st /\ snd (step st ev) = []) \/
    exists e, graph st' = {| nodes := nodes (graph st);
                             edges := edges (graph st) ++ [e] |} /\
              snd (step st ev) = [OnGraphChange (graph st')]))
  \/
  (* the session goes on *)
  (isActive (connectionMode st) = true /\ isStart ev = false /\
   connectionMode st' = connectionMode st /\ graph st' = graph st /\
   snd (step st ev) = [] /\
   (system st' = system st \/
    exists p rfNodes, ev = MouseMove p rfNodes /\
      system st' = handleMouseMove (sourceNodeId (connectionMode st)) rfNodes p))
  \/
  (* a session starts *)
  (isStart ev = true /\ isActive (connectionMode st') = true /\
   (exists src, sourceNodeId (connectionMode st') = Some src) /\
   graph st' = graph st /\ system st' = system st /\
   snd (step st ev) = []).
Proof.
  cbv zeta. destruct ev as [src h|src d|p rfNodes|now|now nodeId| |].
  - do 3 right. cbn. repeat split; by eauto.
  - do 3 right. cbn. repeat split; by eauto.
  - unfold step. destruct (isActive (connectionMode st)) eqn:Ha.
    + right; right; left. unfold syncSystem. cbn [connectionMode fst snd].
      rewrite Ha. cbn. repeat split; try done. right. by eexists _, _.
    + left. unfold syncSystem. rewrite Ha. cbn. by repeat split.
  - unfold step. destruct (isActive (connectionMode st)) eqn:Ha.
    + unfold handleMouseUp.
      destruct (truthyId (hoveredNodeId (system st))) as [hov|];
        [destruct (snapPosition (system st)) as [sp|]|].
      * destruct (completeConnection_edge now st hov (Some sp))
          as [->|[->|(src & _ & _ & _ & ->)]].
        -- right; right; left. unfold syncSystem. rewrite Ha. cbn.
           repeat split; try done. by left.
        -- right; left. cbn. repeat split; try done. by left.
        -- right; left. cbn. repeat split; try done. right. by eexists.
      * right; right; left. unfold syncSystem. rewrite Ha. cbn.
        repeat split; try done. by left.
      * right; right; left. unfold syncSystem. rewrite Ha. cbn.
        repeat split; try done. by left.
    + left. unfold syncSystem. rewrite Ha. cbn. by repeat split.
  - unfold step, onNodeClick. destruct (isActive (connectionMode st)) eqn:Ha.
    + destruct (completeConnection_edge now st nodeId None)
        as [->|[->|(src & _ & _ & _ & ->)]].
      * right; right; left. unfold syncSystem. rewrite Ha. cbn.
        repeat split; try done. by left.
      * right; left. cbn. repeat split; try done. by left.
      * right; left. cbn. repeat split; try done. right. by eexists.
    + left. unfold syncSystem. rewrite Ha. cbn. by repeat split.
  - unfold step. destruct (isActive (connectionMode st)) eqn:Ha.
    + right; left. cbn. repeat split; try done. by left.
    + left. unfold syncSystem. rewrite Ha. cbn. by repeat split.
  - unfold step. destruct (isActive (connectionMode st)) eqn:Ha.
    + right; left. cbn. repeat split; try done. by left.
    + left. unfold syncSystem. rewrite Ha. cbn. by repeat split.
Qed.

Lemma sessionInv_step (st : Canvas) (ev : Step) :
  sessionInv st -> sessionInv (fst (step st ev)).
Proof.
  intros (Hidle & Hsrc & Hboth & Hcur).
  destruct (step_shapes st ev)
    as [(Ha & _ & Hcm & _ & Hsys & _)
       |[(Ha & _ & Hcm & Hsys & _)
        |[(Ha & _ & Hcm & _ & _ & Hsys)
         |(_ & Ha & Hs & _ & Hsys & _)]]];
    unfold sessionInv.
  - rewrite Hcm, Hsys. destruct (Hidle Ha) as [-> _]. cbn.
    repeat split; try done; intros [? ?]; done.
  - rewrite Hcm, Hsys. cbn. repeat split; try done; intros [? ?]; done.
  - rewrite Hcm. destruct Hsys as [->|(p & rfNodes & -> & ->)].
    + repeat split; try done; apply Hboth || (intros; congruence).
    + unfold handleMouseMove. cbn [hoveredNodeId snapPosition cursorPosition].
      repeat split; try congruence; try apply findHovered_both; try done.
  - rewrite Hsys. repeat split; try done; try congruence; apply Hboth.
Qed.

(** X8.  Whatever the user does, the canvas stays in a coherent state: an idle
    session holds no source, handle, cursor, hover or snap; an active one has
    a source; a hovered node and a snap point come and go together. *)
Theorem sessionInv_reachable (g : Graph) (evs : list Step) :
  sessionInv (fst (run (initialCanvas g) evs)).
Proof.
  assert (Hgen : forall st, sessionInv st -> sessionInv (fst (run st evs))).
  { induction evs as [|ev evs IH]; intros st Hst; cbn [run]; [done|].
    pose proof (sessionInv_step st ev Hst) as Hstep.
    destruct (step st ev) as [st1 out1]. cbn [fst] in Hstep.
    specialize (IH st1 Hstep). by destruct (run st1 evs). }
  apply Hgen. unfold sessionInv, initialCanvas. cbn.
  repeat split; try done; intros [? ?]; done.
Qed.

Lemma run_cons (st : Canvas) (ev : Step) (evs : list Step) :
  run st (ev :: evs) =
  (fst (run (fst (step st ev)) evs),
   snd (step st ev) ++ snd (run (fst (step st ev)) evs)).
Proof.
  cbn [run]. destruct (step st ev) as [st1 out1]. cbn [fst snd].
  by destruct (run st1 evs).
Qed.

Lemma idle_stays_silent (st : Canvas) (evs : list Step) :
  isActive (connectionMode st) = false ->
  forallb (fun ev => negb (isStart ev)) evs = true ->
  snd (run st evs) = [].
Proof.
  revert st. induction evs as [|ev evs IH]; intros st Ha Hns; [done|].
  cbn [forallb] in Hns. apply andb_true_iff in Hns as [Hev Hns].
  apply negb_true_iff in Hev. rewrite run_cons. cbn [snd].
  destruct (step_shapes st ev)
    as [(_ & _ & Hcm & _ & _ & ->)|[(? & _)|[(? & _)|(? & _)]]];
    try congruence.
  cbn [app]. apply IH; [congruence | done].
Qed.

(** X9.  A session makes at most one request: without a new start, a stream of
    events gives at most one graph change, however long it is. *)
Theorem one_request_per_session (st : Canvas) (evs : list Step) :
  forallb (fun ev => negb (isStart ev)) evs = true ->
  (length (snd (run st evs)) <= 1)%nat.
Proof.
  revert st. induction evs as [|ev evs IH]; intros st Hns; [cbn; lia|].
  pose proof Hns as Hns'. cbn [forallb] in Hns'.
  apply andb_true_iff in Hns' as [Hev Hrest]. apply negb_true_iff in Hev.
  rewrite run_cons. cbn [snd]. rewrite length_app.
  destruct (step_shapes st ev)
    as [(_ & _ & _ & _ & _ & ->)
       |[(_ & _ & Hcm & _ & [[_ ->]|(e & _ & ->)])
        |[(_ & _ & _ & _ & -> & _)|(? & _)]]]; try congruence.
  - cbn [length]. specialize (IH (fst (step st ev)) Hrest). lia.
  - cbn [length]. specialize (IH (fst (step st ev)) Hrest). lia.
  - rewrite idle_stays_silent; [cbn; lia | by rewrite Hcm | done].
  - cbn [length]. specialize (IH (fst (step st ev)) Hrest). lia.
Qed.

Lemma one_request_per_session_witness :
  (length (snd (run draggingFromA
                  [MouseMove {| px := 390; py := 50 |} twoNodes;
                   MouseUp 1; NodeClick 2 "B"; MouseUp 3])) <= 1)%nat.
Proof. apply one_request_per_session. reflexivity. Defined.

(** X10.  Session events never touch the nodes and never drop or change an
    edge: the graph only grows by the requested edges, in the order they were
    requested. *)
Theorem run_only_appends (st : Canvas) (evs : list Step) :
  nodes (graph (fst (run st evs))) = nodes (graph st) /\
  exists added,
    edges (graph (fst (run st evs))) = edges (graph st) ++ added /\
    requestedEdge <$> snd (run st evs) = Some <$> added.
Proof.
  revert st. induction evs as [|ev evs IH]; intros st.
  { cbn. split; [done|]. exists []. by rewrite app_nil_r. }
  rewrite run_cons. cbn [fst snd].
  destruct (IH (fst (step st ev))) as (Hn & added & He & Hout).
  rewrite Hn, He, fmap_app, Hout.
  destruct (step_shapes st ev)
    as [(_ & _ & _ & -> & _ & ->)
       |[(_ & _ & _ & _ & [[-> ->]|(e & Hg & ->)])
        |[(_ & _ & _ & -> & -> & _)|(_ & _ & _ & -> & _ & ->)]]];
    try (split; [done|]; by exists added).
  rewrite Hg. cbn [nodes edges]. split; [done|].
  exists (e :: added). split; [by rewrite <- app_assoc|].
  cbn. by rewrite last_snoc.
Qed.

(** X11.  Releasing over a hovered node other than the source requests exactly
    the edge from the source to that node, directed as the session says, with
    the handle and the snap point as its connection points when the session
    started from a handle; a click on such a node requests the same edge
    without connection points. *)
Theorem commit_requests_edge (now : Z) (st : Canvas) (src t : string)
    (sp : Point) :
  isActive (connectionMode st) = true ->
  truthyId (sourceNodeId (connectionMode st)) = Some src ->
  t <> src -> t <> EmptyString ->
  (hoveredNodeId (system st) = Some t -> snapPosition (system st) = Some sp ->
   snd (step st (MouseUp now)) =
     [OnGraphChange
        {| nodes := nodes (graph st);
           edges := edges (graph st)
                    ++ [connectionEdge now (connectionMode st) src t (Some sp)] |}])
  /\
  snd (step st (NodeClick now t)) =
    [OnGraphChange
       {| nodes := nodes (graph st);
          edges := edges (graph st)
                   ++ [connectionEdge now (connectionMode st) src t None] |}].
Proof.
  intros Ha Hs Hne Ht.
  assert (Hcc : forall tp,
    snd (completeConnection now st t tp) =
    [OnGraphChange
       {| nodes := nodes (graph st);
          edges := edges (graph st)
                   ++ [connectionEdge now (connectionMode st) src t tp] |}]).
  { intros tp. unfold completeConnection. rewrite Ha, Hs. cbn [negb].
    rewrite bool_decide_eq_false_2 by congruence.
    unfold connectionEdge, createEdge.
    by destruct tp, (sourceHandlePosition (connectionMode st)). }
  split.
  - intros Hh Hsnap. rewrite step_emitted, Ha. unfold handleMouseUp.
    rewrite Hh, Hsnap. cbn [truthyId].
    rewrite bool_decide_eq_false_2 by done. apply Hcc.
  - rewrite step_emitted. unfold onNodeClick. rewrite Ha. apply Hcc.
Qed.

Lemma commit_requests_edge_witness :
  snd (step draggingFromA (NodeClick 7 "B")) =
  [OnGraphChange
     {| nodes := [];
        edges := [connectionEdge 7 (connectionMode draggingFromA) "A" "B"
                    None] |}].
Proof.
  apply (commit_requests_edge 7 draggingFromA "A" "B" {| px := 0; py := 0 |});
    done.
Defined.

Lemma append_inj_r (pre a b : string) : pre +:+ a = pre +:+ b -> a = b.
Proof.
  induction pre as [|c pre IH]; intros H.
  - exact H.
  - change (String c (pre +:+ a) = String c (pre +:+ b)) in H.
    injection H as H. by apply IH.
Qed.

(** X12.  Edge ids come from the clock alone: two requests carry the same id
    exactly when they were made at the same millisecond. *)
Theorem edge_ids_follow_clock (now1 now2 : Z) (st1 st2 : Canvas)
    (t1 t2 : string) (tp1 tp2 : option Point) (g1 g2 : Graph) :
  snd (completeConnection now1 st1 t1 tp1) = [OnGraphChange g1] ->
  snd (completeConnection now2 st2 t2 tp2) = [OnGraphChange g2] ->
  exists e1 e2,
    last (edges g1) = Some e1 /\ last (edges g2) = Some e2 /\
    (edge_id e1 = edge_id e2 <-> now1 = now2).
Proof.
  intros H1 H2.
  destruct (completeConnection_edge now1 st1 t1 tp1)
    as [E|[E|(s1 & _ & _ & _ & E)]]; rewrite E in H1; try done.
  destruct (completeConnection_edge now2 st2 t2 tp2)
    as [E'|[E'|(s2 & _ & _ & _ & E')]]; rewrite E' in H2; try done.
  cbn [snd] in H1, H2. injection H1 as <-. injection H2 as <-.
  eexists _, _. cbn [edges]. rewrite !last_snoc. split; [done|].
  split; [done|]. cbn [connectionEdge edge_id]. split; [|by intros ->].
  intros H. apply append_inj_r in H. by apply (inj pretty) in H.
Qed.

Lemma edge_ids_follow_clock_witness :
  exists e1 e2,
    last (edges {| nodes := [];
                   edges := [connectionEdge 7 (connectionMode draggingFromA)
                               "A" "B" None] |}) = Some e1 /\
    last (edges {| nodes := [];
                   edges := [connectionEdge 8 (connectionMode draggingFromA)
                               "A" "C" None] |}) = Some e2 /\
    (edge_id e1 = edge_id e2 <-> 7%Z = 8%Z).
Proof.
  apply (edge_ids_follow_clock 7 8 draggingFromA draggingFromA "B" "C"
           None None); reflexivity.
Defined.

(** X13.  After a cursor update in a session dragged from a handle of a node
    on the canvas, the guide line starts at that handle; it ends at the snap
    point, on the boundary of the hovered node, when a candidate is hit, and
    at the cursor otherwise. *)
Theorem guide_line_after_move (st : Canvas) (p : Point)
    (rfNodes : list RFNode) (src : string) (handle : HandleSide)
    (sourceNode : RFNode) :
  isActive (connectionMode st) = true ->
  truthyId (sourceNodeId (connectionMode st)) = Some src ->
  sourceHandlePosition (connectionMode st) = Some handle ->
  List.find (fun n => String.eqb (rf_id n) src) rfNodes = Some sourceNode ->
  let st' := fst (step st (MouseMove p rfNodes)) in
  exists gl,
    guideLine (connectionMode st') rfNodes (system st') = Some gl /\
    gl_source gl =
      getHandlePosition (rf_position sourceNode) (nodeSizeOf sourceNode) handle /\
    match spec_firstCandidate src p rfNodes with
    | Some n =>
        gl_snapped gl = true /\
        gl_target gl =
          getClosestPointOnNode (rf_position n) (nodeSizeOf n) p /\
        (0 <= width (nodeSizeOf n) -> 0 <= height (nodeSizeOf n) ->
         onBoundary (rf_position n) (nodeSizeOf n) (gl_target gl))
    | None => gl_snapped gl = false /\ gl_target gl = p
    end.
Proof.
  intros Ha Hs Hh Hfind. cbv zeta.
  apply truthyId_Some in Hs as Hs'. destruct Hs' as [Hsrc Hne].
  unfold step. rewrite Ha. unfold syncSystem. cbn [connectionMode fst].
  rewrite Ha. cbn [connectionMode system].
  unfold guideLine. rewrite Ha, Hs, Hh. cbn [negb].
  unfold handleMouseMove. cbn [cursorPosition snapPosition].
  rewrite Hfind, Hsrc, findHovered_spec.
  destruct (spec_firstCandidate src p rfNodes) as [n|]; cbn [snd];
    eexists; (split; [reflexivity|]); cbn; (split; [reflexivity|]).
  - split; [done|]. split; [done|]. intros Hw Hht.
    by apply getClosestPointOnNode_onBoundary.
  - done.
Qed.

Lemma guide_line_after_move_witness :
  exists gl,
    guideLine
      (connectionMode
         (fst (step draggingFromA (MouseMove {| px := 390; py := 50 |} twoNodes))))
      twoNodes
      (system
         (fst (step draggingFromA (MouseMove {| px := 390; py := 50 |} twoNodes))))
    = Some gl /\
    gl_source gl =
      getHandlePosition (rf_position (rfNodeAt "A" 0 0))
        (nodeSizeOf (rfNodeAt "A" 0 0)) right /\
    match spec_firstCandidate "A" {| px := 390; py := 50 |} twoNodes with
    | Some n =>
        gl_snapped gl = true /\
        gl_target gl =
          getClosestPointOnNode (rf_position n) (nodeSizeOf n)
            {| px := 390; py := 50 |} /\
        (0 <= width (nodeSizeOf n) -> 0 <= height (nodeSizeOf n) ->
         onBoundary (rf_position n) (nodeSizeOf n) (gl_target gl))
    | None => gl_snapped gl = false /\ gl_target gl = {| px := 390; py := 50 |}
    end.
Proof.
  apply (guide_line_after_move draggingFromA {| px := 390; py := 50 |}
           twoNodes "A" right (rfNodeAt "A" 0 0)); reflexivity.
Defined.

End SessionTraceFacts.

(** ** Theorems: graph edits of the canvas *)

Module CanvasFacts.
Import Geometry Session Layout GraphSpec Clutter CanvasOps CanvasSpec
  LayoutExamples PlacementFacts LevelFacts StructureFacts FrameFacts.

Lemma sublist_List_filter {A : Type} (f : A -> bool) (l : list A) :
  sublist (List.filter f l) l.
Proof.
  induction l as [|x l IH]; cbn; [constructor|].
  destruct (f x); by constructor.
Qed.

Lemma elem_of_omap_removedId (changes : list EdgeChange) (id : string) :
  id ∈ omap removedId changes <-> EdgeRemove id ∈ changes.
Proof.
  rewrite list_elem_of_omap. split.
  - intros (c & Hc & Hid). destruct c; cbn in Hid; try done.
    by injection Hid as ->.
  - intros H. by exists (EdgeRemove id).
Qed.

Lemma existsb_eqb_elem_of (id : string) (ids : list string) :
  existsb (String.eqb id) ids = true <-> id ∈ ids.
Proof.
  rewrite existsb_exists. split.
  - intros (x & Hx & E). apply String.eqb_eq in E as ->.
    by apply list_elem_of_In.
  - intros H. exists id. split; [by apply list_elem_of_In|].
    apply String.eqb_refl.
Qed.

(** X14.  Edge changes reach the graph only when an edge is removed.  Then the
    nodes stay, exactly the edges whose id is among the removed ones go (all
    of them, should an id occur twice), the others keep their order, and
    applying the same changes again changes nothing more. *)
Theorem handleEdgesChange_removes (graph : Graph) (changes : list EdgeChange) :
  match handleEdgesChange graph changes with
  | None => forall id, EdgeRemove id ∉ changes
  | Some g' =>
      (exists id, EdgeRemove id ∈ changes) /\
      nodes g' = nodes graph /\
      (forall e, e ∈ edges g' <->
                 e ∈ edges graph /\ EdgeRemove (edge_id e) ∉ changes) /\
      sublist (edges g') (edges graph) /\
      handleEdgesChange g' changes = Some g'
  end.
Proof.
  unfold handleEdgesChange.
  set (removedIds := omap removedId changes).
  set (keep := fun edge : Edge =>
                 negb (existsb (String.eqb (edge_id edge)) removedIds)).
  assert (Hkeep : forall e, keep e = true <-> EdgeRemove (edge_id e) ∉ changes).
  { intros e. unfold keep. rewrite negb_true_iff, <- not_true_iff_false,
      existsb_eqb_elem_of. unfold removedIds.
    by rewrite elem_of_omap_removedId. }
  destruct removedIds as [|id ids] eqn:Hids; cbn [length Nat.ltb Nat.leb].
  - intros id Hid. apply elem_of_omap_removedId in Hid.
    fold removedIds in Hid. rewrite Hids in Hid. by apply elem_of_nil in Hid.
  - split.
    { exists id. apply elem_of_omap_removedId. fold removedIds.
      rewrite Hids. left. }
    cbn [nodes edges]. split; [done|]. split; [|split].
    + intros e. rewrite list_elem_of_In, List.filter_In, <- list_elem_of_In.
      by rewrite Hkeep.
    + apply sublist_List_filter.
    + f_equal. f_equal. fold keep.
      clear Hkeep. induction (edges graph) as [|e l IH]; [done|].
      cbn [List.filter]. destruct (keep e) eqn:E; [|done].
      cbn [List.filter]. by rewrite E, IH.
Qed.

(** X15.  Without an edge being edited nothing is sent.  Otherwise the nodes
    stay, every edge keeps its place and all its fields but the connection
    points, exactly the edges with the edited id get the chosen handle and
    target position, and a later choice overrides an earlier one. *)
Theorem updateEdgeConnectionPoints_sets_metadata (editingEdgeId : option string)
    (graph : Graph) (handle : HandleSide) (tp : Point) :
  match updateEdgeConnectionPoints editingEdgeId graph handle tp with
  | None => truthyId editingEdgeId = None
  | Some g' =>
      exists id,
        truthyId editingEdgeId = Some id /\
        nodes g' = nodes graph /\
        Forall2
          (fun e' e =>
             sameExceptMetadata e' e /\
             metadata e' =
               if String.eqb (edge_id e) id
               then Some {| sourceHandle := handle; targetPosition := tp |}
               else metadata e)
          (edges g') (edges graph) /\
        forall handle2 tp2,
          updateEdgeConnectionPoints editingEdgeId g' handle2 tp2 =
          updateEdgeConnectionPoints editingEdgeId graph handle2 tp2
  end.
Proof.
  unfold updateEdgeConnectionPoints.
  destruct (truthyId editingEdgeId) as [id|]; [|done].
  exists id. split; [done|]. cbn [nodes edges]. split; [done|]. split.
  - apply Forall2_fmap_l, Forall_Forall2_diag, Forall_forall.
    intros e _. unfold sameExceptMetadata, compose.
    by destruct (String.eqb (edge_id e) id).
  - intros handle2 tp2. f_equal. f_equal.
    rewrite <- list_fmap_compose. apply list_fmap_ext.
    intros i e _. cbn.
    destruct (String.eqb (edge_id e) id) eqn:E; cbn; by rewrite E.
Qed.

Lemma pretty_nat_ne (pre : string) (a b : nat) :
  a <> b -> pre +:+ pretty a <> pre +:+ pretty b.
Proof.
  intros Hne H. apply Hne.
  assert (H' : pretty a = pretty b).
  { revert H. induction pre as [|c pre IH]; intros H; [exact H|].
    change (String c (pre +:+ pretty a) = String c (pre +:+ pretty b)) in H.
    injection H as H. by apply IH. }
  by apply (inj pretty) in H'.
Qed.

(** X16.  The id of a new node comes from the node count alone.  In a graph
    with unique ids the ids stay unique exactly when that name is not in use.
    *)
Theorem addNodeAtPosition_collides (p : Point) (graph : Graph) :
  NoDup (node_id <$> nodes graph) ->
  exists g',
    addNodeAtPosition (Some p) graph = Some g' /\
    (NoDup (node_id <$> nodes g') <->
     "Node" +:+ pretty (length (nodes graph) + 1)%nat
       ∉ node_id <$> nodes graph).
Proof.
  intros Hnd. eexists. split; [reflexivity|]. cbn [nodes].
  rewrite fmap_app. cbn [fmap list_fmap createNode node_id].
  rewrite NoDup_app. split.
  - intros (_ & H & _) Hin. apply (H _ Hin). left.
  - intros Hnot. split; [done|]. split.
    + intros x Hx Hx'. apply list_elem_of_singleton in Hx' as ->. done.
    + apply NoDup_singleton.
Qed.

Lemma addNodeAtPosition_collides_witness :
  exists g',
    addNodeAtPosition (Some {| px := 0; py := 0 |})
      {| nodes := [mkNode "Node2"]; edges := [] |} = Some g' /\
    (NoDup (node_id <$> nodes g') <->
     "Node" +:+ pretty (1 + 1)%nat ∉ node_id <$> [mkNode "Node2"]).
Proof.
  apply (addNodeAtPosition_collides {| px := 0; py := 0 |}
           {| nodes := [mkNode "Node2"]; edges := [] |}).
  cbn. apply NoDup_singleton.
Defined.

(** X17.  Without a menu position nothing is added.  With one, a node is
    appended at that position and the edges stay; and a graph whose ids are
    unique and avoid the names still to be handed out stays such a graph, so
    adding nodes one after the other to it never repeats an id. *)
Theorem addNodeAtPosition_keeps_names_fresh (flowPosition : option Point)
    (graph : Graph) :
  freshNames graph ->
  match addNodeAtPosition flowPosition graph with
  | None => flowPosition = None
  | Some g' =>
      exists p n,
        flowPosition = Some p /\
        nodes g' = nodes graph ++ [n] /\ position n = p /\
        node_size n = None /\
        (node_id n ∉ node_id <$> nodes graph) /\
        edges g' = edges graph /\
        freshNames g'
  end.
Proof.
  intros [Hnd Hfresh]. destruct flowPosition as [p|]; [|done].
  cbn [addNodeAtPosition]. eexists p, _. split; [done|].
  cbn [nodes edges]. split; [reflexivity|].
  cbn [createNode position node_size node_id].
  split; [done|]. split; [done|].
  assert (Hnew : "Node" +:+ pretty (length (nodes graph) + 1)%nat
                   ∉ node_id <$> nodes graph) by (apply Hfresh; lia).
  split; [done|]. split; [done|]. split.
  - cbn [nodes]. rewrite fmap_app. cbn [fmap list_fmap node_id].
    rewrite NoDup_app. split; [done|]. split; [|apply NoDup_singleton].
    intros x Hx Hx'. apply list_elem_of_singleton in Hx' as ->. done.
  - cbn [nodes]. intros k Hk. rewrite length_app in Hk. cbn in Hk.
    rewrite fmap_app. cbn [fmap list_fmap node_id].
    rewrite elem_of_app. intros [Hin|Hin].
    + apply (Hfresh k); [lia | done].
    + apply list_elem_of_singleton in Hin.
      apply pretty_nat_ne in Hin; [done | lia].
Qed.

Lemma addNodeAtPosition_keeps_names_fresh_witness :
  match addNodeAtPosition (Some {| px := 10; py := 20 |})
          {| nodes := []; edges := [] |} with
  | None => Some {| px := 10; py := 20 |} = None
  | Some g' =>
      exists p n,
        Some {| px := 10; py := 20 |} = Some p /\
        nodes g' = [] ++ [n] /\ position n = p /\
        node_size n = None /\
        (node_id n ∉ node_id <$> []) /\
        edges g' = [] /\
        freshNames g'
  end.
Proof.
  apply (addNodeAtPosition_keeps_names_fresh (Some {| px := 10; py := 20 |})
           {| nodes := []; edges := [] |}).
  split; cbn.
  - apply NoDup_nil_2.
  - intros k _. apply not_elem_of_nil.
Defined.

Lemma existsb_isDragEnd (changes : list NodeChange) :
  existsb isDragEnd changes = true <-> endsDrag changes.
Proof.
  rewrite existsb_exists. unfold endsDrag. split.
  - intros (c & Hc & Hend). apply list_elem_of_In in Hc.
    destruct c as [id p d|]; [|done]. exists id, p, d. split; [done|].
    intros ->. done.
  - intros (id & p & d & Hc & Hd). exists (PositionChange id p d).
    split; [by apply list_elem_of_In|]. by destruct d as [[|]|].
Qed.

Lemma existsb_isDragStart (changes : list NodeChange) :
  existsb isDragStart changes = true <-> startsDrag changes.
Proof.
  rewrite existsb_exists. unfold startsDrag. split.
  - intros (c & Hc & Hstart). apply list_elem_of_In in Hc.
    destruct c as [id p [[|]|]|]; try done. by exists id, p.
  - intros (id & p & Hc). exists (PositionChange id p (Some true)).
    split; [by apply list_elem_of_In | done].
Qed.

Lemma omap_positionOfChange_nil (changes : list NodeChange) :
  omap positionOfChange changes = [] <-> ~ carriesPosition changes.
Proof.
  unfold carriesPosition. split.
  - intros Hnil (id & p & d & Hc).
    assert (Hin : (id, p) ∈ omap positionOfChange changes).
    { apply list_elem_of_omap. by exists (PositionChange id (Some p) d). }
    rewrite Hnil in Hin. by apply elem_of_nil in Hin.
  - intros Hno. destruct (omap positionOfChange changes) as [|[id p] l] eqn:E;
      [done|].
    exfalso. apply Hno.
    assert (Hin : (id, p) ∈ omap positionOfChange changes)
      by (rewrite E; left).
    apply list_elem_of_omap in Hin as (c & Hc & Hpos).
    destruct c as [cid [q|] d|]; try done. injection Hpos as -> ->.
    by exists id, p, d.
Qed.

(** X18.  A batch of node changes that holds a position change which is not
    dragging ends the drag: the graph staged before the batch is sent,
    whatever positions the batch carries, nothing is staged and the drag
    flag is cleared.  Any other batch sends nothing and raises the drag flag
    when it holds a dragging position change; it stages nodes only when one
    of its position changes carries a position, and then with the ids of the
    ReactFlow nodes in their order and with explicit sizes.  The staged edges
    never change. *)
Theorem handleNodesChange_commits_on_drag_end (rfNodes : list RFNode)
    (ds : DragState) (changes : list NodeChange) :
  let r := handleNodesChange rfNodes ds changes in
  edges (pendingGraph (fst r)) = edges (pendingGraph ds) /\
  (endsDrag changes ->
     snd r = Some (pendingGraph ds) /\
     pendingGraph (fst r) = pendingGraph ds /\
     isDragging (fst r) = false) /\
  (~ endsDrag changes ->
     snd r = None /\
     (isDragging (fst r) = true <->
        startsDrag changes \/ isDragging ds = true) /\
     (~ carriesPosition changes -> pendingGraph (fst r) = pendingGraph ds) /\
     (carriesPosition changes ->
        node_id <$> nodes (pendingGraph (fst r)) = rf_id <$> rfNodes /\
        Forall (fun m => node_size m <> None)
          (nodes (pendingGraph (fst r))))).
Proof.
  cbv zeta. unfold handleNodesChange.
  pose proof (existsb_isDragEnd changes) as Hend.
  pose proof (existsb_isDragStart changes) as Hstart.
  pose proof (omap_positionOfChange_nil changes) as Hpos.
  destruct (existsb isDragEnd changes); cbn [fst snd pendingGraph isDragging].
  { split; [done|]. split; [done|]. intros Hno. destruct Hno. by apply Hend. }
  assert (Hflag : (if existsb isDragStart changes then true else isDragging ds)
                  = true <-> startsDrag changes \/ isDragging ds = true).
  { destruct (existsb isDragStart changes).
    - split; [intros _; left; by apply Hstart | done].
    - split; [by right|]. intros [H|H]; [|done]. by apply Hstart in H. }
  destruct (omap positionOfChange changes) as [|pc pcs];
    cbn [length Nat.ltb Nat.leb fst snd pendingGraph isDragging edges nodes].
  - split; [done|]. split; [intros H; apply Hend in H; done|]. intros _.
    split; [done|]. split; [done|]. split; [done|].
    intros H. destruct (proj1 Hpos eq_refl H).
  - split; [done|]. split; [intros H; apply Hend in H; done|]. intros _.
    split; [done|]. split; [done|]. split.
    { intros H. apply Hpos in H. done. }
    intros _. split.
    + rewrite <- list_fmap_compose. by apply list_fmap_ext.
    + apply Forall_fmap, Forall_forall. intros n _. done.
Qed.

Lemma handleNodesChange_commits_on_drag_end_witness :
  let staged := {| nodes := [mkNode "A"]; edges := [] |} in
  let ds := {| isDragging := true; pendingGraph := staged |} in
  let changes := [PositionChange "A" (Some {| px := 9; py := 9 |})
                    (Some false)] in
  let r := handleNodesChange (convertToReactFlowNodes [mkNode "A"]) ds
             changes in
  snd r = Some staged /\ pendingGraph (fst r) = staged /\
  isDragging (fst r) = false.
Proof.
  cbv zeta.
  apply (handleNodesChange_commits_on_drag_end
           (convertToReactFlowNodes [mkNode "A"])
           {| isDragging := true;
              pendingGraph := {| nodes := [mkNode "A"]; edges := [] |} |}
           [PositionChange "A" (Some {| px := 9; py := 9 |}) (Some false)]).
  exists "A"%string, (Some {| px := 9; py := 9 |}), (Some false).
  split; [left | discriminate].
Defined.

Lemma find_positionOfChange (changes : list NodeChange) (id : string) :
  match List.find (fun ch => String.eqb (fst ch) id)
          (omap positionOfChange changes) with
  | Some ch => exists dragging,
      PositionChange id (Some (snd ch)) dragging ∈ changes
  | None => forall q dragging, PositionChange id (Some q) dragging ∉ changes
  end.
Proof.
  induction changes as [|c changes IH]; cbn [omap list_omap List.find].
  { intros q d H. by apply elem_of_nil in H. }
  destruct c as [cid [q|] d|]; cbn [positionOfChange].
  - cbn [List.find fst]. destruct (String.eqb cid id) eqn:E.
    + apply String.eqb_eq in E as ->. exists d. cbn. left.
    + apply String.eqb_neq in E.
      destruct (List.find _ _) as [ch|].
      * destruct IH as [d' IH]. exists d'. by right.
      * intros q' d' H. apply elem_of_cons in H as [H|H].
        -- injection H as -> _ _. done.
        -- by apply (IH q' d').
  - destruct (List.find _ _) as [ch|].
    + destruct IH as [d' IH]. exists d'. by right.
    + intros q' d' H. apply elem_of_cons in H as [H|H]; [done|].
      by apply (IH q' d').
  - destruct (List.find _ _) as [ch|].
    + destruct IH as [d' IH]. exists d'. by right.
    + intros q' d' H. apply elem_of_cons in H as [H|H]; [done|].
      by apply (IH q' d').
Qed.

Lemma find_firstPositionFor (changes : list NodeChange) (id : string)
    (q : Point) :
  firstPositionFor changes id q ->
  snd <$> List.find (fun ch => String.eqb (fst ch) id)
            (omap positionOfChange changes) = Some q.
Proof.
  intros (before & d & after & -> & Hfirst).
  induction before as [|c before IH]; cbn [app omap list_omap positionOfChange].
  { cbn [List.find fst]. by rewrite String.eqb_refl. }
  assert (Hrest : forall q' d', PositionChange id (Some q') d' ∉ before).
  { intros q' d' H. apply (Hfirst q' d'). by right. }
  destruct c as [cid [p|] d'|]; cbn [positionOfChange]; [|by apply IH..].
  cbn [List.find fst]. destruct (String.eqb_spec cid id) as [->|Hne].
  - destruct (Hfirst p d'). left.
  - by apply IH.
Qed.

(** X19.  Round trip through ReactFlow: when the canvas shows the staged graph
    and a batch that carries a position but ends no drag arrives, nothing is
    sent, the edges stay, and the nodes staged are those of the graph in
    their order, each with its id, label and markup, its size made explicit
    (192 by 96 when it had none) and its position taken from the first change
    of the batch that carries a position for that node; a node no such change
    mentions keeps its position. *)
Theorem staging_round_trip (ds : DragState) (changes : list NodeChange) :
  ~ endsDrag changes ->
  carriesPosition changes ->
  let r := handleNodesChange
             (convertToReactFlowNodes (nodes (pendingGraph ds))) ds changes in
  snd r = None /\
  edges (pendingGraph (fst r)) = edges (pendingGraph ds) /\
  Forall2 (stagedFrom changes)
    (nodes (pendingGraph (fst r))) (nodes (pendingGraph ds)).
Proof.
  intros Hend Hpos. unfold handleNodesChange.
  assert (Hend' : existsb isDragEnd changes = false).
  { apply not_true_is_false. intros H. by apply Hend, existsb_isDragEnd. }
  rewrite Hend'.
  destruct (omap positionOfChange changes) as [|pc pcs] eqn:E.
  { by apply omap_positionOfChange_nil in E. }
  cbn [length Nat.ltb Nat.leb fst snd pendingGraph edges nodes].
  split; [done|]. split; [done|].
  unfold convertToReactFlowNodes. rewrite <- list_fmap_compose.
  apply Forall2_fmap_l, Forall_Forall2_diag, Forall_forall.
  intros n _. unfold stagedFrom, externalNode.
  cbn [compose rf_id rf_position rf_data_node node_id node_label node_markup
       node_size position mbind option_bind].
  split; [done|]. split; [done|]. split; [done|].
  split; [by destruct (node_size n)|].
  pose proof (find_positionOfChange changes (node_id n)) as Hf.
  pose proof (find_firstPositionFor changes (node_id n)) as Hfirst.
  rewrite E in Hf, Hfirst.
  destruct (List.find _ (pc :: pcs)) as [ch|].
  - destruct Hf as [d Hd]. split.
    { intros q Hq. specialize (Hfirst q Hq). cbn in Hfirst. congruence. }
    split; [right; by exists d|].
    intros Hno. by destruct (Hno _ _ Hd).
  - split.
    { intros q Hq. specialize (Hfirst q Hq). done. }
    split; [by left | done].
Qed.

Lemma staging_round_trip_witness :
  let ds := {| isDragging := false;
               pendingGraph := {| nodes := [mkNode "A"; mkNode "B"];
                                  edges := [mkEdge "A" "B"] |} |} in
  let changes := [PositionChange "B" (Some {| px := 40; py := 50 |})
                    (Some true)] in
  let r := handleNodesChange
             (convertToReactFlowNodes (nodes (pendingGraph ds))) ds changes in
  snd r = None /\
  edges (pendingGraph (fst r)) = edges (pendingGraph ds) /\
  Forall2 (stagedFrom changes)
    (nodes (pendingGraph (fst r))) (nodes (pendingGraph ds)).
Proof.
  apply (staging_round_trip
           {| isDragging := false;
              pendingGraph := {| nodes := [mkNode "A"; mkNode "B"];
                                 edges := [mkEdge "A" "B"] |} |}
           [PositionChange "B" (Some {| px := 40; py := 50 |}) (Some true)]).
  - intros (id & p & d & Hin & Hd). apply Hd.
    apply list_elem_of_singleton in Hin. by injection Hin.
  - exists "B"%string, {| px := 40; py := 50 |}, (Some true). left.
Defined.

(** X20.  Whichever layout is asked for, a graph that comes back has the edges
    it had and the nodes it had, possibly in another order, each changed in
    its position at most. *)
Theorem applyLayout_keeps_graph (d3 : D3Force) (innerWidth innerHeight : Q)
    (layoutType : LayoutType) (graph g' : Graph) :
  applyLayout d3 innerWidth innerHeight layoutType graph = Some g' ->
  edges g' = edges graph /\
  exists perm,
    perm ≡ₚ nodes graph /\ Forall2 sameExceptPosition (nodes g') perm.
Proof.
  unfold applyLayout.
  set (opts := {| opt_width := _ |}).
  assert (Hforce : forall r,
    applyForceDirectedLayout d3 (nodes graph) (edges graph) opts = Some r ->
    res_edges r = edges graph /\
    exists perm, perm ≡ₚ nodes graph /\
                 Forall2 sameExceptPosition (res_nodes r) perm).
  { intros r Hr. apply applyForceDirectedLayout_same in Hr as [Hn He].
    split; [done|]. by exists (nodes graph). }
  assert (Hhier : forall r,
    applyHierarchicalLayout (nodes graph) (edges graph) opts = Some r ->
    res_edges r = edges graph /\
    exists perm, perm ≡ₚ nodes graph /\
                 Forall2 sameExceptPosition (res_nodes r) perm).
  { intros r Hr.
    destruct (applyHierarchicalLayout_same (nodes graph) (edges graph) opts)
      as (r' & perm & Hr' & Hp & Hn & He).
    rewrite Hr in Hr'. injection Hr' as <-. split; [done|]. by exists perm. }
  intros H.
  assert (Hr : exists r,
    g' = {| nodes := res_nodes r; edges := res_edges r |} /\
    res_edges r = edges graph /\
    exists perm, perm ≡ₚ nodes graph /\
                 Forall2 sameExceptPosition (res_nodes r) perm).
  { destruct layoutType.
    - destruct (applyAutoLayout d3 _ _ _) as [r|] eqn:Er; [|done].
      injection H as <-. exists r. split; [done|].
      unfold applyAutoLayout in Er.
      destruct (nodes graph) as [|n [|n' rest]] eqn:En.
      + injection Er as <-. cbn. split; [done|]. by exists [].
      + injection Er as <-. cbn. split; [done|]. exists [n].
        split; [done|]. constructor; [|constructor].
        apply sameExceptPosition_withPosition.
      + destruct (isHierarchicalGraph _ _) as [[|]|]; [| |done].
        * by apply Hhier.
        * by apply Hforce.
    - destruct (applyForceDirectedLayout d3 _ _ _) as [r|] eqn:Er; [|done].
      injection H as <-. exists r. split; [done|]. by apply Hforce.
    - destruct (applyHierarchicalLayout _ _ _) as [r|] eqn:Er; [|done].
      injection H as <-. exists r. split; [done|]. by apply Hhier. }
  destruct Hr as (r & -> & He & Hn). done.
Qed.

Lemma applyLayout_keeps_graph_witness :
  let graph := {| nodes := mkNode <$> ["A"; "B"; "C"; "D"]; edges := tree |} in
  exists g',
    applyLayout frozenD3 1440 900 LayoutAuto graph = Some g' /\
    edges g' = edges graph /\
    exists perm,
      perm ≡ₚ nodes graph /\ Forall2 sameExceptPosition (nodes g') perm.
Proof.
  intros graph.
  destruct (applyLayout frozenD3 1440 900 LayoutAuto graph) as [g'|] eqn:E;
    [|by vm_compute in E].
  exists g'. split; [done|].
  by apply (applyLayout_keeps_graph frozenD3 1440 900 LayoutAuto graph g').
Defined.

End CanvasFacts.

(** ** Theorems: what the layout verdicts and results depend on *)

Module StabilityFacts.
Import Layout LayoutExamples GraphSpec StructureFacts LevelFacts
  PlacementFacts FrameFacts.

Section Regroup.
Context {A : Type} (level : A -> nat).

Lemma groupPush_new (l : nat) (x : A) (acc : list (nat * list A)) :
  l ∉ fst <$> acc -> groupPush l x acc = acc ++ [(l, [x])].
Proof.
  induction acc as [|[k ys] acc IH]; cbn [groupPush]; intros H; [done|].
  cbn in H. apply not_elem_of_cons in H as [Hne H].
  destruct (Nat.eqb_spec k l); [congruence|]. cbn. by rewrite IH.
Qed.

Lemma groupPush_last (l : nat) (x : A) (acc : list (nat * list A))
    (ys : list A) :
  l ∉ fst <$> acc ->
  groupPush l x (acc ++ [(l, ys)]) = acc ++ [(l, ys ++ [x])].
Proof.
  induction acc as [|[k zs] acc IH]; cbn [groupPush app]; intros H.
  { by rewrite Nat.eqb_refl. }
  cbn in H. apply not_elem_of_cons in H as [Hne H].
  destruct (Nat.eqb_spec k l); [congruence|]. by rewrite IH.
Qed.

Lemma foldl_groupPush_level (l : nat) (y0 : A) (ys : list A)
    (acc : list (nat * list A)) :
  l ∉ fst <$> acc -> Forall (fun y => level y = l) (y0 :: ys) ->
  foldl (fun groups x => groupPush (level x) x groups) acc (y0 :: ys)
  = acc ++ [(l, y0 :: ys)].
Proof.
  intros Hl. induction ys as [|x ys IH] using rev_ind; intros Hall.
  - apply Forall_cons in Hall as [Hy _]. cbn. rewrite Hy.
    by apply groupPush_new.
  - rewrite app_comm_cons in Hall. apply Forall_app in Hall as [Hall Hx].
    rewrite Forall_singleton in Hx.
    rewrite app_comm_cons, foldl_snoc, (IH Hall). cbn beta. rewrite Hx.
    by apply groupPush_last.
Qed.

(** Grouping the members of groups that are already sorted by level gives
    the groups back. *)
Lemma regroup (groups acc : list (nat * list A)) :
  NoDup (fst <$> acc ++ groups) ->
  Forall (fun g => snd g <> [] /\ Forall (fun y => level y = fst g) (snd g))
    groups ->
  foldl (fun groups x => groupPush (level x) x groups) acc
    (concat (snd <$> groups))
  = acc ++ groups.
Proof.
  revert acc. induction groups as [|[l ys] groups IH]; intros acc Hnd Hall.
  { cbn. by rewrite app_nil_r. }
  apply Forall_cons in Hall as [[Hne Hl] Hall]. cbn [fst snd] in Hne, Hl.
  cbn [fmap list_fmap concat snd]. rewrite foldl_app.
  destruct ys as [|y0 ys]; [done|].
  assert (Hfresh : l ∉ fst <$> acc).
  { rewrite fmap_app in Hnd. apply NoDup_app in Hnd as (_ & Hdis & _).
    intros Hin. apply (Hdis l Hin). cbn. left. }
  rewrite (foldl_groupPush_level l y0 ys acc Hfresh Hl).
  rewrite IH; [by rewrite <- app_assoc | by rewrite <- app_assoc | done].
Qed.

Lemma groupPush_nonempty (l : nat) (x : A) (groups : list (nat * list A)) :
  Forall (fun g => snd g <> []) groups ->
  Forall (fun g => snd g <> []) (groupPush l x groups).
Proof.
  induction groups as [|[k ys] groups IH]; cbn [groupPush]; intros H.
  { by repeat constructor. }
  apply Forall_cons in H as [Hk H].
  destruct (Nat.eqb k l).
  - constructor; [|done]. cbn. by destruct ys.
  - constructor; [done | by apply IH].
Qed.

Lemma groupByLevel_nonempty (xs : list A) :
  Forall (fun g => snd g <> []) (groupByLevel level xs).
Proof.
  unfold groupByLevel. induction xs as [|x xs IH] using rev_ind.
  { constructor. }
  rewrite foldl_snoc. by apply groupPush_nonempty.
Qed.

(** The first element opens the first group. *)
Lemma groupByLevel_head (x : A) (xs : list A) :
  exists ys rest, groupByLevel level (x :: xs) = (level x, x :: ys) :: rest.
Proof.
  unfold groupByLevel. induction xs as [|y xs IH] using rev_ind.
  { by exists [], []. }
  destruct IH as (ys & rest & IH).
  rewrite app_comm_cons, foldl_snoc, IH. cbn [groupPush].
  destruct (Nat.eqb (level x) (level y)).
  - by exists (ys ++ [y]), rest.
  - by eexists ys, _.
Qed.

End Regroup.

Lemma placeAll_concat (opts : Options) (groups : list (nat * list Node)) :
  placeAll opts groups
  = concat (snd <$> ((fun g => (fst g, placeLevel opts (fst g) (snd g)))
                       <$> groups)).
Proof.
  unfold placeAll. induction groups as [|g groups IH]; [done|].
  cbn [flat_map fmap list_fmap concat snd]. by rewrite IH.
Qed.

Lemma placeLevel_again (opts : Options) (l : nat) (ys : list Node) :
  placeLevel opts l (placeLevel opts l ys) = placeLevel opts l ys.
Proof.
  unfold placeLevel. rewrite length_imap. apply list_eq. intros i.
  rewrite !list_lookup_imap. by destruct (ys !! i).
Qed.

(** Which ids are roots depends on the ids of the nodes and on which of
    them comes first. *)
Lemma rootNodes_ids (nodes : list Node) (edges : list Edge) :
  node_id <$> rootNodes nodes edges
  = match List.filter (fun id => bool_decide (id ∉ incomingEdges edges))
            (node_id <$> nodes), node_id <$> nodes with
    | [], first :: _ => [first]
    | roots, _ => roots
    end.
Proof.
  unfold rootNodes.
  assert (H : node_id <$> List.filter
                (fun node => bool_decide (node_id node ∉ incomingEdges edges))
                nodes
              = List.filter (fun id => bool_decide (id ∉ incomingEdges edges))
                  (node_id <$> nodes)).
  { induction nodes as [|n nodes IH]; [done|]. cbn.
    destruct (bool_decide _); cbn; by rewrite IH. }
  rewrite <- H. destruct (List.filter _ nodes) as [|r roots]; [|done].
  by destruct nodes.
Qed.

Lemma rootIds_same (nodes nodes' : list Node) (edges : list Edge) :
  node_id <$> nodes' ≡ₚ node_id <$> nodes ->
  head (node_id <$> nodes') = head (node_id <$> nodes) ->
  rootIds nodes' edges = rootIds nodes edges.
Proof.
  intros Hperm Hhead. unfold rootIds. rewrite !rootNodes_ids.
  set (P := fun id => bool_decide (id ∉ incomingEdges edges)).
  assert (Hf : forall id, id ∈ List.filter P (node_id <$> nodes') <->
                          id ∈ List.filter P (node_id <$> nodes)).
  { intros id. rewrite !list_elem_of_In, !List.filter_In, <- !list_elem_of_In.
    by rewrite Hperm. }
  destruct (List.filter P (node_id <$> nodes')) as [|r' roots'] eqn:E';
    destruct (List.filter P (node_id <$> nodes)) as [|r roots] eqn:E.
  - destruct (node_id <$> nodes') as [|a l'], (node_id <$> nodes) as [|b l];
      cbn in Hhead; try done. by injection Hhead as ->.
  - exfalso. apply (not_elem_of_nil r). apply Hf. left.
  - exfalso. apply (not_elem_of_nil r'). apply Hf. left.
  - apply set_eq. intros id. rewrite !elem_of_list_to_set. apply Hf.
Qed.

Lemma assignLevels_same_roots (nodes nodes' : list Node) (edges : list Edge) :
  rootIds nodes' edges = rootIds nodes edges ->
  assignLevels nodes' edges = assignLevels nodes edges.
Proof.
  intros Hroots.
  destruct (assignLevels_distance nodes edges) as (lv & -> & _ & Hd & _).
  destruct (assignLevels_distance nodes' edges) as (lv' & -> & _ & Hd' & _).
  f_equal. apply map_eq. intros v. apply option_eq. intros d.
  rewrite Hd, Hd', Hroots. done.
Qed.

(** X21.  The hierarchical layout is idempotent: laid out once more with the
    same options, its result comes back as it is, node for node. *)
Theorem applyHierarchicalLayout_idempotent (nodes : list Node)
    (edges : list Edge) (options : LayoutOptions) :
  exists r,
    applyHierarchicalLayout nodes edges options = Some r /\
    applyHierarchicalLayout (res_nodes r) (res_edges r) options = Some r.
Proof.
  unfold applyHierarchicalLayout.
  destruct (assignLevels_final nodes edges) as (lv & Hlv & _).
  rewrite Hlv. eexists. split; [reflexivity|]. cbn [res_nodes res_edges mbind
    option_bind].
  set (opts := withDefaults options).
  set (f := fun node : Node => levelOf lv (node_id node)).
  set (groups := groupByLevel f nodes).
  set (groups' := (fun g => (fst g, placeLevel opts (fst g) (snd g)))
                    <$> groups).
  assert (Hids : node_id <$> placeAll opts groups ≡ₚ node_id <$> nodes).
  { rewrite <- (groupByLevel_concat f nodes). fold groups.
    pose proof (placeAll_same opts groups) as H.
    assert (E : node_id <$> placeAll opts groups
                = node_id <$> concat (snd <$> groups)).
    { induction H as [|a b la lb Hab _ IH]; [done|]. cbn.
      destruct Hab as [-> _]. by rewrite IH. }
    by rewrite E. }
  assert (Hhead : head (node_id <$> placeAll opts groups)
                  = head (node_id <$> nodes)).
  { destruct nodes as [|x xs]; [done|].
    destruct (groupByLevel_head f x xs) as (ys & rest & E).
    unfold groups. rewrite E. unfold placeAll. cbn [flat_map fst snd].
    unfold placeLevel. by rewrite imap_cons. }
  rewrite (assignLevels_same_roots nodes (placeAll opts groups) edges
             (rootIds_same _ _ _ Hids Hhead)), Hlv.
  cbn [mbind option_bind]. f_equal. f_equal. fold f.
  destruct (groupByLevel_spec f nodes) as (Hnd & Hmem & _). fold groups in Hnd, Hmem.
  assert (Hregroup : groupByLevel f (placeAll opts groups) = groups').
  { rewrite placeAll_concat. fold groups'. unfold groupByLevel.
    rewrite (regroup f groups' []); [done| |].
    - cbn [app]. unfold groups'. rewrite <- list_fmap_compose.
      assert (E : fst ∘ (fun g : nat * list Node =>
                           (fst g, placeLevel opts (fst g) (snd g))) <$> groups
                  = fst <$> groups) by (by apply list_fmap_ext).
      by rewrite E.
    - unfold groups'. apply Forall_fmap, Forall_forall. intros [l ys] Hin.
      cbn [compose fst snd]. split.
      + pose proof (groupByLevel_nonempty f nodes) as Hne.
        rewrite Forall_forall in Hne. specialize (Hne _ Hin). cbn in Hne.
        unfold placeLevel. intros E. apply Hne.
        apply (f_equal length) in E. rewrite length_imap in E.
        by destruct ys.
      + unfold placeLevel. apply Forall_forall. intros y Hy.
        apply elem_of_lookup_imap in Hy as (i & n & -> & Hi).
        change (f n = l). rewrite (Hmem l ys Hin) in Hi.
        apply list_elem_of_lookup_2, list_elem_of_In in Hi.
        apply List.filter_In in Hi as [_ Hi]. by apply Nat.eqb_eq in Hi. }
  rewrite Hregroup. unfold groups', placeAll.
  clear. induction groups as [|[l ys] groups IH]; [done|].
  cbn [fmap list_fmap flat_map fst snd]. by rewrite placeLevel_again, IH.
Qed.

Lemma reachableCycle_same (nodes nodes' : list Node)
    (edges edges' : list Edge) :
  (forall id, id ∈ node_id <$> nodes -> id ∈ node_id <$> nodes') ->
  (forall u v, edgeRel edges u v -> edgeRel edges' u v) ->
  reachableCycle nodes edges -> reachableCycle nodes' edges'.
Proof.
  intros Hn He (n & c & Hin & Hreach & Hcyc).
  assert (Hid : node_id n ∈ node_id <$> nodes').
  { apply Hn, list_elem_of_fmap. by exists n. }
  apply list_elem_of_fmap in Hid as (n' & Hid & Hin').
  exists n', c. split; [done|]. rewrite <- Hid. split.
  - eapply rtc_subrel; [|exact Hreach]. done.
  - eapply tc_mono; [|exact Hcyc]. done.
Qed.

Lemma edgeRel_endpoints (edges : list Edge) (u v : string) :
  edgeRel edges u v <->
  (u, v) ∈@{gset (string * string)}
    list_to_set ((fun e => (source e, target e)) <$> edges).
Proof.
  unfold edgeRel. rewrite elem_of_list_to_set, list_elem_of_fmap. split.
  - intros (e & He & <- & <-). by exists e.
  - intros (e & [= -> ->] & He). by exists e.
Qed.

(** X22.  The verdict of [isHierarchicalGraph] depends only on which ids are
    nodes and which pairs of ids are linked: the order of nodes and of edges,
    repeated entries, positions, labels and edge ids play no part. *)
Theorem isHierarchicalGraph_sets_only (nodes nodes' : list Node)
    (edges edges' : list Edge) :
  list_to_set (node_id <$> nodes) =@{gset string}
    list_to_set (node_id <$> nodes') ->
  list_to_set ((fun e => (source e, target e)) <$> edges)
    =@{gset (string * string)}
    list_to_set ((fun e => (source e, target e)) <$> edges') ->
  isHierarchicalGraph nodes edges = isHierarchicalGraph nodes' edges'.
Proof.
  intros Hn He.
  assert (Hids : forall id, id ∈ node_id <$> nodes <-> id ∈ node_id <$> nodes').
  { intros id. rewrite <- !(elem_of_list_to_set (C := gset string)).
    by rewrite Hn. }
  assert (Hrel : forall u v, edgeRel edges u v <-> edgeRel edges' u v).
  { intros u v. by rewrite !edgeRel_endpoints, He. }
  assert (Hnil : edges <> [] <-> edges' <> []).
  { destruct edges as [|e es], edges' as [|e' es']; try done.
    - exfalso. assert (H : edgeRel [] (source e') (target e')).
      { apply Hrel. exists e'. split; [left | done]. }
      destruct H as (x & Hx & _). by apply elem_of_nil in Hx.
    - exfalso. assert (H : edgeRel [] (source e) (target e)).
      { apply Hrel. exists e. split; [left | done]. }
      destruct H as (x & Hx & _). by apply elem_of_nil in Hx. }
  destruct (isHierarchicalGraph_correct nodes edges) as (b & -> & Hb).
  destruct (isHierarchicalGraph_correct nodes' edges') as (b' & -> & Hb').
  f_equal.
  assert (Hiff : b = true <-> b' = true).
  { rewrite Hb, Hb', Hnil. split; intros [H1 H2]; (split; [done|]);
      intros Hc; apply H2.
    - eapply reachableCycle_same; [| |exact Hc]; intros; [apply Hids|apply Hrel];
        done.
    - eapply reachableCycle_same; [| |exact Hc]; intros; [apply Hids|apply Hrel];
        done. }
  destruct b, b'; try done.
  - symmetry. by apply Hiff.
  - by apply Hiff.
Qed.

Lemma isHierarchicalGraph_sets_only_witness :
  isHierarchicalGraph (mkNode <$> ["A"; "B"; "C"; "D"]) tree
  = isHierarchicalGraph (mkNode <$> ["D"; "C"; "B"; "A"; "A"])
      (mkEdge "B" "D" :: tree).
Proof.
  apply (isHierarchicalGraph_sets_only
           (mkNode <$> ["A"; "B"; "C"; "D"])
           (mkNode <$> ["D"; "C"; "B"; "A"; "A"])
           tree (mkEdge "B" "D" :: tree)).
  - vm_compute. reflexivity.
  - vm_compute. reflexivity.
Defined.

End StabilityFacts.

(** ** Theorems: the edge connection editor and the layout buttons *)

Module EditorFacts.
Import Geometry Session SessionSpec Layout GraphSpec Handles Clutter CanvasOps
  Editor LayoutExamples StructureFacts LevelFacts PlacementFacts ClutterFacts.

Lemma find_fmap_same {A : Type} (p : A -> bool) (f : A -> A) (l : list A) :
  (forall x, p (f x) = p x) ->
  List.find p (f <$> l) = f <$> List.find p l.
Proof.
  intros Hp. induction l as [|x l IH]; [done|]. cbn.
  rewrite Hp. by destruct (p x).
Qed.

Lemma updateEdgeConnectionPoints_again (editingEdgeId : option string)
    (graph g' : Graph) (h h2 : HandleSide) (tp tp2 : Point) :
  updateEdgeConnectionPoints editingEdgeId graph h tp = Some g' ->
  updateEdgeConnectionPoints editingEdgeId g' h2 tp2
  = updateEdgeConnectionPoints editingEdgeId graph h2 tp2.
Proof.
  unfold updateEdgeConnectionPoints.
  destruct (truthyId editingEdgeId) as [id|]; [|done].
  intros [= <-]. cbn [nodes edges]. f_equal. f_equal.
  rewrite <- list_fmap_compose. apply list_fmap_ext.
  intros i e _. cbn.
  destruct (String.eqb (edge_id e) id) eqn:E; cbn; by rewrite E.
Qed.

(** X23.  A click on a handle button of the editor sends the graph in which
    the edited edge has the chosen handle and the target position the editor
    showed: the stored one, or the middle of the right side of the target
    node for an edge without connection points.  The nodes and the edge's
    other fields stay.  From then on handle clicks leave that target
    position alone. *)
Theorem handle_change_keeps_target (editingEdgeId : option string)
    (graph : Graph) (rfNodes : list RFNode) (edge : Edge)
    (sourceNode targetNode : RFNode) (h : HandleSide) :
  editingEdge editingEdgeId graph = Some edge ->
  List.find (fun n => String.eqb (rf_id n) (source edge)) rfNodes
    = Some sourceNode ->
  List.find (fun n => String.eqb (rf_id n) (target edge)) rfNodes
    = Some targetNode ->
  let tp :=
    match metadata edge with
    | Some m => targetPosition m
    | None =>
        {| px := px (rf_position targetNode) + width (nodeSizeOf targetNode);
           py := py (rf_position targetNode)
                 + height (nodeSizeOf targetNode) / 2 |}
    end in
  exists g',
    handleSourceHandleChange editingEdgeId graph rfNodes h = Some g' /\
    nodes g' = nodes graph /\
    editingEdge editingEdgeId g'
      = Some {| edge_id := edge_id edge; source := source edge;
                target := target edge; directed := directed edge;
                edge_label := edge_label edge;
                edge_markup := edge_markup edge;
                metadata :=
                  Some {| sourceHandle := h; targetPosition := tp |} |} /\
    forall h2,
      handleSourceHandleChange editingEdgeId g' rfNodes h2
      = updateEdgeConnectionPoints editingEdgeId graph h2 tp /\
      exists g2,
        handleSourceHandleChange editingEdgeId g' rfNodes h2 = Some g2 /\
        editingEdge editingEdgeId g2
          = Some {| edge_id := edge_id edge; source := source edge;
                    target := target edge; directed := directed edge;
                    edge_label := edge_label edge;
                    edge_markup := edge_markup edge;
                    metadata :=
                      Some {| sourceHandle := h2; targetPosition := tp |} |}.
Proof.
  intros Hedge Hsrc Htgt tp.
  assert (Htp0 : currentTargetPosition edge targetNode = tp) by done.
  unfold editingEdge in Hedge.
  destruct (truthyId editingEdgeId) as [id|] eqn:Hid; [|done].
  cbn [mbind option_bind] in Hedge.
  pose proof (List.find_some _ _ Hedge) as [_ Heq].
  assert (Hupd : forall hh,
    editingEdge editingEdgeId
      {| nodes := nodes graph;
         edges := (fun e => if String.eqb (edge_id e) id
                            then withConnectionPoints e hh tp
                            else e) <$> edges graph |}
    = Some (withConnectionPoints edge hh tp)).
  { intros hh. unfold editingEdge. rewrite Hid. cbn [mbind option_bind edges].
    rewrite find_fmap_same, Hedge; [cbn; by rewrite Heq|].
    intros e. by destruct (String.eqb (edge_id e) id) eqn:E. }
  assert (Hup : forall hh,
    updateEdgeConnectionPoints editingEdgeId graph hh tp
    = Some {| nodes := nodes graph;
              edges := (fun e => if String.eqb (edge_id e) id
                                 then withConnectionPoints e hh tp
                                 else e) <$> edges graph |}).
  { intros hh. unfold updateEdgeConnectionPoints. by rewrite Hid. }
  assert (Hfirst : handleSourceHandleChange editingEdgeId graph rfNodes h
                   = updateEdgeConnectionPoints editingEdgeId graph h tp).
  { unfold handleSourceHandleChange, editingEdge. rewrite Hid.
    cbn [mbind option_bind]. rewrite Hedge. cbn [mbind option_bind].
    rewrite Hsrc, Htgt. cbn [mbind option_bind]. by rewrite Htp0. }
  eexists. split; [rewrite Hfirst; apply Hup|].
  cbn [nodes]. split; [done|]. split; [apply Hupd|].
  intros h2.
  assert (Hsecond :
    handleSourceHandleChange editingEdgeId
      {| nodes := nodes graph;
         edges := (fun e => if String.eqb (edge_id e) id
                            then withConnectionPoints e h tp
                            else e) <$> edges graph |} rfNodes h2
    = updateEdgeConnectionPoints editingEdgeId graph h2 tp).
  { unfold handleSourceHandleChange. rewrite Hupd. cbn [mbind option_bind].
    cbn [withConnectionPoints source target]. rewrite Hsrc, Htgt.
    cbn [mbind option_bind].
    assert (Htp : currentTargetPosition (withConnectionPoints edge h tp)
                    targetNode = tp) by done.
    rewrite Htp.
    apply (updateEdgeConnectionPoints_again _ _ _ h h2 tp tp), Hup. }
  split; [exact Hsecond|].
  eexists. split; [rewrite Hsecond; apply Hup|]. apply Hupd.
Qed.

Lemma handle_change_keeps_target_witness :
  let graph := {| nodes := [mkNode "A"; mkNode "B"];
                  edges := [mkEdge "A" "B"] |} in
  let rfNodes := [rfNodeAt "A" 0 0; rfNodeAt "B" 400 0] in
  let tp := {| px := 400 + 192; py := 0 + 96 / 2 |} in
  exists g',
    handleSourceHandleChange (Some "AB") graph rfNodes bottom = Some g' /\
    nodes g' = nodes graph /\
    editingEdge (Some "AB") g'
      = Some {| edge_id := "AB"; source := "A"; target := "B";
                directed := true; edge_label := None; edge_markup := None;
                metadata :=
                  Some {| sourceHandle := bottom; targetPosition := tp |} |} /\
    forall h2,
      handleSourceHandleChange (Some "AB") g' rfNodes h2
      = updateEdgeConnectionPoints (Some "AB") graph h2 tp /\
      exists g2,
        handleSourceHandleChange (Some "AB") g' rfNodes h2 = Some g2 /\
        editingEdge (Some "AB") g2
          = Some {| edge_id := "AB"; source := "A"; target := "B";
                    directed := true; edge_label := None;
                    edge_markup := None;
                    metadata :=
                      Some {| sourceHandle := h2;
                              targetPosition := tp |} |}.
Proof.
  cbv zeta.
  apply (handle_change_keeps_target (Some "AB"%string)
           {| nodes := [mkNode "A"; mkNode "B"]; edges := [mkEdge "A" "B"] |}
           [rfNodeAt "A" 0 0; rfNodeAt "B" 400 0] (mkEdge "A" "B")
           (rfNodeAt "A" 0 0) (rfNodeAt "B" 400 0) bottom);
    reflexivity.
Defined.

(** X24.  For a graph with an edge and no cycle that a node reaches, the Auto
    layout button always sends a graph, the same whatever the force simulation
    would do, and one for which no layout is suggested. *)
Theorem applyLayout_auto_acyclic (d3 : D3Force) (innerWidth innerHeight : Q)
    (graph : Graph) :
  edges graph <> [] ->
  ~ reachableCycle (nodes graph) (edges graph) ->
  exists g',
    applyLayout d3 innerWidth innerHeight LayoutAuto graph = Some g' /\
    shouldSuggestLayout g' = false /\
    forall d3', applyLayout d3' innerWidth innerHeight LayoutAuto graph = Some g'.
Proof.
  intros Hne Hacyc. unfold applyLayout.
  set (opts := {| opt_width := _ |}).
  destruct (nodes graph) as [|n [|n' rest]] eqn:En.
  - cbn. eexists. split; [reflexivity|]. split; [|done].
    unfold shouldSuggestLayout. by cbn.
  - cbn. eexists. split; [reflexivity|]. split; [|done].
    unfold shouldSuggestLayout. by cbn.
  - rewrite <- En in *.
    destruct (isHierarchicalGraph_correct (nodes graph) (edges graph))
      as (b & Hb & Hiff).
    assert (b = true) as -> by (by apply Hiff).
    assert (Hauto : forall d,
      applyAutoLayout d (nodes graph) (edges graph) opts
      = applyHierarchicalLayout (nodes graph) (edges graph) opts).
    { intros d. unfold applyAutoLayout. rewrite En, <- En, Hb. done. }
    rewrite Hauto. unfold applyHierarchicalLayout.
    destruct (assignLevels_final (nodes graph) (edges graph)) as (lv & Hlv & _).
    rewrite Hlv. cbn [mbind option_bind res_nodes res_edges].
    eexists. split; [reflexivity|]. split.
    + unfold shouldSuggestLayout. cbn [nodes].
      assert (H : isLayoutCluttered
                    (placeAll (withDefaults opts)
                       (groupByLevel
                          (fun node => levelOf lv (node_id node))
                          (nodes graph))) = false).
      { unfold isLayoutCluttered. destruct (_ <? 2)%nat; [done|].
        apply scanPairs_placeAll.
        apply (groupByLevel_spec
                 (fun node => levelOf lv (node_id node)) (nodes graph)). }
      by rewrite H.
    + intros d3'. rewrite Hauto. unfold applyHierarchicalLayout.
      by rewrite Hlv.
Qed.

Lemma applyLayout_auto_acyclic_witness :
  let graph := {| nodes := mkNode <$> ["A"; "B"; "C"; "D"]; edges := tree |} in
  exists g',
    applyLayout frozenD3 1440 900 LayoutAuto graph = Some g' /\
    shouldSuggestLayout g' = false /\
    forall d3', applyLayout d3' 1440 900 LayoutAuto graph = Some g'.
Proof.
  intros graph.
  apply (applyLayout_auto_acyclic frozenD3 1440 900 graph).
  - discriminate.
  - destruct (isHierarchicalGraph_correct (nodes graph) (edges graph))
      as (b & Hb & Hiff).
    assert (b = true) as -> by (vm_compute in Hb; congruence).
    by apply Hiff.
Defined.

End EditorFacts.
